(** * Aura AI landing page: the interaction script, embedded and verified

    A shallow embedding of [src/script.js].  The script is a set of DOM
    event listeners installed once at page load; every listener body is a
    short sequence of DOM reads and writes.  The embedding therefore has
    three layers:

    - the browser side: a store of elements (class list, attributes,
      ancestor chain), the document order, focus and scroll offset, and
      the layout and selector engines, which answer from the document's
      present state;
    - the script side: the module-level bindings of lines 18-21, the
      closure variable [lastScroll], the listener registry built by
      [addEventListener], the intersection observers and pending timers;
    - a state-and-exception monad [Js] in which each function of the
      script is written statement by statement, a [null] dereference
      being an abrupt completion with [TypeError].

    Numbers are IEEE-754 doubles, as in JavaScript ([PrimFloat]).

    The browser is the environment: what it does between two runs of
    script code (dispatching an event along its propagation path, firing
    a timer, reporting intersections, moving the focus, laying the page
    out again) is a [Stimulus], and [step] is one turn of the event loop.
    The document's tree grows only while the document is loading, when the
    parser attaches the elements that follow the script; after that no
    stimulus adds or removes elements.
    [debounce] (lines 218-228) is defined by the script and never called;
    it is modelled on its own at the end, in [Debounce]. *)

From Stdlib Require Import Floats ZArith Ascii.
From stdpp Require Import gmap strings list functions.

Set Warnings "-clear-no-such-hyp".

(** ** The browser side *)

Abbreviation node := nat (only parsing).

Record DOMRect := { rect_top : float; rect_bottom : float }.

(** An element object.  [ancestors] is the chain of [parentNode]s, nearest
    first; [classList] is the token set behind [el.classList]. *)
Record Element := {
  tagName : string;
  attributes : gmap string string;
  classList : gset string;
  ancestors : list node;
  style_transform : string;
  focusable : bool
}.

Definition set_classList (f : gset string → gset string) (e : Element) : Element :=
  {| tagName := tagName e; attributes := attributes e;
     classList := f (classList e); ancestors := ancestors e;
     style_transform := style_transform e; focusable := focusable e |}.

Definition set_attributes (f : gmap string string → gmap string string)
    (e : Element) : Element :=
  {| tagName := tagName e; attributes := f (attributes e);
     classList := classList e; ancestors := ancestors e;
     style_transform := style_transform e; focusable := focusable e |}.

Definition set_style_transform (v : string) (e : Element) : Element :=
  {| tagName := tagName e; attributes := attributes e;
     classList := classList e; ancestors := ancestors e;
     style_transform := v; focusable := focusable e |}.

(** What [document.querySelector] answers for a selector string. *)
Inductive Selected := Matched (n : node) | NoMatch | InvalidSelector.

(** What an answer of the browser depends on: the elements attached to the
    document, in tree order, each in its present state, the body's inline
    overflow, the focus, the scroll offset and the viewport's height.  A
    write of the script shows in the next answer. *)
Record Snapshot := {
  snap_elements : list (node * Element);
  snap_body_overflow : string;
  snap_activeElement : option node;
  snap_pageYOffset : float;
  snap_innerHeight : float
}.

Inductive ReadyState := loading | interactive | complete.

Global Instance ReadyState_eq_dec : EqDecision ReadyState.
Proof. solve_decision. Defined.

(** The document and window.  [elems] gives every element reference its
    object; [document_order] lists the elements attached to the document in
    tree order; [layout] is the layout engine behind
    [getBoundingClientRect] and [selector] the selector engine behind
    [document.querySelector] on an arbitrary selector, both functions of
    the document's present state. *)
Record Page := {
  elems : node → Element;
  document_order : list node;
  layout : Snapshot → node → DOMRect;
  selector : Snapshot → string → Selected;
  body_overflow : string;
  activeElement : option node;
  pageYOffset : float;
  innerHeight : float;
  readyState : ReadyState;
  hasIntersectionObserver : bool
}.

Definition set_elems (f : (node → Element) → node → Element) (p : Page) : Page :=
  {| elems := f (elems p); document_order := document_order p;
     layout := layout p; selector := selector p;
     body_overflow := body_overflow p; activeElement := activeElement p;
     pageYOffset := pageYOffset p; innerHeight := innerHeight p;
     readyState := readyState p;
     hasIntersectionObserver := hasIntersectionObserver p |}.

Definition set_body_overflow (v : string) (p : Page) : Page :=
  {| elems := elems p; document_order := document_order p;
     layout := layout p; selector := selector p;
     body_overflow := v; activeElement := activeElement p;
     pageYOffset := pageYOffset p; innerHeight := innerHeight p;
     readyState := readyState p;
     hasIntersectionObserver := hasIntersectionObserver p |}.

Definition set_activeElement (v : option node) (p : Page) : Page :=
  {| elems := elems p; document_order := document_order p;
     layout := layout p; selector := selector p;
     body_overflow := body_overflow p; activeElement := v;
     pageYOffset := pageYOffset p; innerHeight := innerHeight p;
     readyState := readyState p;
     hasIntersectionObserver := hasIntersectionObserver p |}.

Definition set_pageYOffset (v : float) (p : Page) : Page :=
  {| elems := elems p; document_order := document_order p;
     layout := layout p; selector := selector p;
     body_overflow := body_overflow p; activeElement := activeElement p;
     pageYOffset := v; innerHeight := innerHeight p;
     readyState := readyState p;
     hasIntersectionObserver := hasIntersectionObserver p |}.

Definition set_document_order (f : list node → list node) (p : Page) : Page :=
  {| elems := elems p; document_order := f (document_order p);
     layout := layout p; selector := selector p;
     body_overflow := body_overflow p; activeElement := activeElement p;
     pageYOffset := pageYOffset p; innerHeight := innerHeight p;
     readyState := readyState p;
     hasIntersectionObserver := hasIntersectionObserver p |}.

Definition set_layout (l : Snapshot → node → DOMRect) (h : float)
    (p : Page) : Page :=
  {| elems := elems p; document_order := document_order p;
     layout := l; selector := selector p;
     body_overflow := body_overflow p; activeElement := activeElement p;
     pageYOffset := pageYOffset p; innerHeight := h;
     readyState := readyState p;
     hasIntersectionObserver := hasIntersectionObserver p |}.

Definition set_readyState (v : ReadyState) (p : Page) : Page :=
  {| elems := elems p; document_order := document_order p;
     layout := layout p; selector := selector p;
     body_overflow := body_overflow p; activeElement := activeElement p;
     pageYOffset := pageYOffset p; innerHeight := innerHeight p;
     readyState := v;
     hasIntersectionObserver := hasIntersectionObserver p |}.

(** The state the engines answer from, and their answers on the page as
    it is. *)
Definition snapshot (p : Page) : Snapshot :=
  {| snap_elements := (λ n, (n, elems p n)) <$> document_order p;
     snap_body_overflow := body_overflow p;
     snap_activeElement := activeElement p;
     snap_pageYOffset := pageYOffset p;
     snap_innerHeight := innerHeight p |}.

Definition boundingClientRect (p : Page) (n : node) : DOMRect :=
  layout p (snapshot p) n.

Definition selected (p : Page) (sel : string) : Selected :=
  selector p (snapshot p) sel.

(** An id selector is a hash followed by an identifier; here an
    identifier is a letter followed by letters, digits, hyphens and
    underscores.  Outside quirks mode a browser resolves an id selector to
    the first element, in tree order, whose [id] attribute is the
    identifier; [resolves_ids] says that the page's selector engine does
    so. *)
Definition is_letter (c : Ascii.ascii) : bool :=
  let n := Ascii.nat_of_ascii c in
  (Nat.leb 65 n && Nat.leb n 90) || (Nat.leb 97 n && Nat.leb n 122).

Definition is_identifier_char (c : Ascii.ascii) : bool :=
  let n := Ascii.nat_of_ascii c in
  is_letter c || (Nat.leb 48 n && Nat.leb n 57) || Nat.eqb n 45 ||
  Nat.eqb n 95.

Fixpoint all_chars (f : Ascii.ascii → bool) (s : string) : bool :=
  match s with
  | EmptyString => true
  | String c s' => f c && all_chars f s'
  end.

Definition is_identifier (s : string) : bool :=
  match s with
  | EmptyString => false
  | String c s' => is_letter c && all_chars is_identifier_char s'
  end.

Definition snapshot_id (id : string) (s : Snapshot) : option node :=
  fst <$> head (filter (λ ne, attributes ne.2 !! "id" = Some id)
                       (snap_elements s)).

Definition id_answer (id : string) (s : Snapshot) : Selected :=
  match snapshot_id id s with
  | Some n => Matched n
  | None => NoMatch
  end.

Definition resolves_ids (p : Page) : Prop :=
  ∀ s id, is_identifier id = true →
          selector p s (String "#"%char id) = id_answer id s.

(** ** The script side *)

Inductive EventType :=
  click | keydown | scroll | mouseenter | mouseleave | DOMContentLoaded.

Inductive EventTarget := Elem (n : node) | Document | Window.

Global Instance EventType_eq_dec : EqDecision EventType.
Proof. solve_decision. Defined.

Global Instance EventTarget_eq_dec : EqDecision EventTarget.
Proof. solve_decision. Defined.

(** The function values the script passes to [addEventListener], one
    constructor per function expression; a closure carries what it captured
    at creation beyond the module-level bindings. *)
Inductive Callback :=
  | toggle_click          (* script.js:29 *)
  | navlink_click         (* script.js:43 *)
  | document_click        (* script.js:52 *)
  | navbar_scroll         (* script.js:74 *)
  | anchor_click          (* script.js:130 *)
  | button_mouseenter     (* script.js:161 *)
  | button_mouseleave     (* script.js:165 *)
  | escape_keydown        (* script.js:176 *)
  | trap_keydown (focusableElements : list node)  (* script.js:192 *)
  | init_callback.        (* script.js:236 *)

Record Listener := {
  on_target : EventTarget;
  on_type : EventType;
  callback : Callback
}.

Global Instance Callback_eq_dec : EqDecision Callback.
Proof. solve_decision. Defined.

Global Instance Listener_eq_dec : EqDecision Listener.
Proof. solve_decision. Defined.

(** The script's own state: the four bindings of lines 18-21, the closure
    variable of [initNavbarScroll], the listeners registered so far, the
    observation targets of each [IntersectionObserver] created (in creation
    order), the number of pending [setTimeout] callbacks, and whether
    [window.reinitAnimations] has been assigned. *)
Record Script := {
  mobileMenuToggle : option node;
  navLinks : option node;
  navbar : option node;
  navLinksArray : list node;
  lastScroll : float;
  listeners : list Listener;
  observers : list (gset node);
  timers : nat;
  reinitAnimations : bool
}.

Definition set_bindings (t nl nb : option node) (arr : list node)
    (s : Script) : Script :=
  {| mobileMenuToggle := t; navLinks := nl; navbar := nb;
     navLinksArray := arr; lastScroll := lastScroll s;
     listeners := listeners s; observers := observers s;
     timers := timers s; reinitAnimations := reinitAnimations s |}.

Definition set_lastScroll (v : float) (s : Script) : Script :=
  {| mobileMenuToggle := mobileMenuToggle s; navLinks := navLinks s;
     navbar := navbar s; navLinksArray := navLinksArray s;
     lastScroll := v;
     listeners := listeners s; observers := observers s;
     timers := timers s; reinitAnimations := reinitAnimations s |}.

Definition set_listeners (f : list Listener → list Listener) (s : Script) : Script :=
  {| mobileMenuToggle := mobileMenuToggle s; navLinks := navLinks s;
     navbar := navbar s; navLinksArray := navLinksArray s;
     lastScroll := lastScroll s;
     listeners := f (listeners s); observers := observers s;
     timers := timers s; reinitAnimations := reinitAnimations s |}.

Definition set_observers (f : list (gset node) → list (gset node))
    (s : Script) : Script :=
  {| mobileMenuToggle := mobileMenuToggle s; navLinks := navLinks s;
     navbar := navbar s; navLinksArray := navLinksArray s;
     lastScroll := lastScroll s;
     listeners := listeners s; observers := f (observers s);
     timers := timers s; reinitAnimations := reinitAnimations s |}.

Definition set_timers (f : nat → nat) (s : Script) : Script :=
  {| mobileMenuToggle := mobileMenuToggle s; navLinks := navLinks s;
     navbar := navbar s; navLinksArray := navLinksArray s;
     lastScroll := lastScroll s;
     listeners := listeners s; observers := observers s;
     timers := f (timers s); reinitAnimations := reinitAnimations s |}.

Definition set_reinitAnimations (v : bool) (s : Script) : Script :=
  {| mobileMenuToggle := mobileMenuToggle s; navLinks := navLinks s;
     navbar := navbar s; navLinksArray := navLinksArray s;
     lastScroll := lastScroll s;
     listeners := listeners s; observers := observers s;
     timers := timers s; reinitAnimations := v |}.

(** ** The world a statement runs in *)

Inductive JsError := TypeError | SyntaxError.

Record ScrollToOptions := { scroll_top : float; behavior : string }.

(** Besides page and script, the world records what the script asked of
    the browser: whether [preventDefault] was called on the event being
    dispatched, the [window.scrollTo] and [focus] calls made, and the
    exceptions that escaped a listener. *)
Record World := {
  page : Page;
  script : Script;
  defaultPrevented : bool;
  scrollTo_calls : list ScrollToOptions;
  focus_calls : list node;
  uncaught : list JsError
}.

Definition set_page (f : Page → Page) (w : World) : World :=
  {| page := f (page w); script := script w;
     defaultPrevented := defaultPrevented w;
     scrollTo_calls := scrollTo_calls w; focus_calls := focus_calls w;
     uncaught := uncaught w |}.

Definition set_script (f : Script → Script) (w : World) : World :=
  {| page := page w; script := f (script w);
     defaultPrevented := defaultPrevented w;
     scrollTo_calls := scrollTo_calls w; focus_calls := focus_calls w;
     uncaught := uncaught w |}.

Definition set_defaultPrevented (v : bool) (w : World) : World :=
  {| page := page w; script := script w;
     defaultPrevented := v;
     scrollTo_calls := scrollTo_calls w; focus_calls := focus_calls w;
     uncaught := uncaught w |}.

Definition log_scrollTo (o : ScrollToOptions) (w : World) : World :=
  {| page := page w; script := script w;
     defaultPrevented := defaultPrevented w;
     scrollTo_calls := scrollTo_calls w ++ [o]; focus_calls := focus_calls w;
     uncaught := uncaught w |}.

Definition log_focus (n : node) (w : World) : World :=
  {| page := page w; script := script w;
     defaultPrevented := defaultPrevented w;
     scrollTo_calls := scrollTo_calls w; focus_calls := focus_calls w ++ [n];
     uncaught := uncaught w |}.

Definition report (e : JsError) (w : World) : World :=
  {| page := page w; script := script w;
     defaultPrevented := defaultPrevented w;
     scrollTo_calls := scrollTo_calls w; focus_calls := focus_calls w;
     uncaught := uncaught w ++ [e] |}.

(** ** The [Js] monad: state, and abrupt completion by a thrown error *)

Inductive Completion (A : Type) := Normal (a : A) | Abrupt (e : JsError).
Arguments Normal {A} a.
Arguments Abrupt {A} e.

Definition Js (A : Type) : Type := World → Completion A * World.

Global Instance Js_ret : MRet Js := λ A a w, (Normal a, w).

Global Instance Js_bind : MBind Js := λ A B f m w,
  match m w with
  | (Normal a, w') => f a w'
  | (Abrupt e, w') => (Abrupt e, w')
  end.

Definition throw {A} (e : JsError) : Js A := λ w, (Abrupt e, w).
Definition get : Js World := λ w, (Normal w, w).
Definition modify (f : World → World) : Js unit := λ w, (Normal tt, f w).

(** [list.forEach(f)]: the callback runs on each element in order; an
    exception ends the loop. *)
Fixpoint forEach {A} (l : list A) (f : A → Js unit) : Js unit :=
  match l with
  | [] => mret tt
  | x :: l' => f x ;; forEach l' f
  end.

(** The world a computation leaves behind, whatever its completion. *)
Definition exec {A} (m : Js A) (w : World) : World := (m w).2.

(** ** DOM primitives *)

Record Event := {
  ev_type : EventType;
  target : EventTarget;
  key : string;
  shiftKey : bool
}.

Record IntersectionObserverEntry := {
  entry_target : node;
  isIntersecting : bool
}.

(** Property access on a value that may be [null] or [undefined]. *)
Definition deref {A} (o : option A) : Js A :=
  match o with
  | Some a => mret a
  | None => throw TypeError
  end.

(** A module-level binding used as an object ([navLinks.classList...]). *)
Definition ref (binding : Script → option node) : Js node :=
  w ← get; deref (binding (script w)).

(** [this] inside a listener registered on an element. *)
Definition this_element (this : EventTarget) : Js node :=
  match this with
  | Elem n => mret n
  | _ => throw TypeError
  end.

Definition element (n : node) : Js Element :=
  w ← get; mret (elems (page w) n).

Definition update_element (n : node) (f : Element → Element) : Js unit :=
  modify (set_page (set_elems (alter f n))).

Definition classList_contains (n : node) (c : string) : Js bool :=
  e ← element n; mret (bool_decide (c ∈ classList e)).

Definition classList_add (n : node) (c : string) : Js unit :=
  update_element n (set_classList (λ cs, cs ∪ {[c]})).

Definition classList_remove (n : node) (c : string) : Js unit :=
  update_element n (set_classList (λ cs, cs ∖ {[c]})).

Definition classList_toggle (n : node) (c : string) : Js unit :=
  b ← classList_contains n c;
  if b : bool then classList_remove n c else classList_add n c.

Definition getAttribute (n : node) (name : string) : Js (option string) :=
  e ← element n; mret (attributes e !! name).

Definition setAttribute (n : node) (name value : string) : Js unit :=
  update_element n (set_attributes (λ a, <[name := value]> a)).

(** [String(b)], the conversion [setAttribute] applies to a boolean. *)
Definition string_of_bool (b : bool) : string :=
  if b then "true" else "false".

(** [String(v)] for an attribute value that may be [null]. *)
Definition string_of_attr (v : option string) : string :=
  match v with
  | Some s => s
  | None => "null"
  end.

(** [document.body.style.overflow = v]. *)
Definition body_style_overflow (v : string) : Js unit :=
  modify (set_page (set_body_overflow v)).

(** [el.focus()]: the call is recorded; focus moves when the element can
    take it. *)
Definition focus (n : node) : Js unit :=
  e ← element n;
  modify (log_focus n);;
  if focusable e then modify (set_page (set_activeElement (Some n)))
  else mret tt.

Definition preventDefault : Js unit := modify (set_defaultPrevented true).

Definition scrollTo (o : ScrollToOptions) : Js unit := modify (log_scrollTo o).

Definition getBoundingClientRect (n : node) : Js DOMRect :=
  w ← get; mret (boundingClientRect (page w) n).

(** [a.contains(b)]: [b] is [a] or a descendant of [a]; the document is
    inside no element, and the window is not a [Node] at all. *)
Definition contains (a : node) (b : EventTarget) : Js bool :=
  match b with
  | Elem t => e ← element t; mret (bool_decide (t = a ∨ a ∈ ancestors e))
  | Document => mret false
  | Window => throw TypeError
  end.

(** [x === y] between [document.activeElement] ([null] when nothing has
    focus) and an array slot ([undefined] when out of range). *)
Definition strict_eq (x y : option node) : bool :=
  match x, y with
  | Some a, Some b => bool_decide (a = b)
  | _, _ => false
  end.

(** *** Queries *)

Definition getElementById (id : string) (p : Page) : option node :=
  head (filter (λ n, attributes (elems p n) !! "id" = Some id) (document_order p)).

(** [document.querySelectorAll('.c')]. *)
Definition querySelectorAll_class (c : string) (p : Page) : list node :=
  filter (λ n, c ∈ classList (elems p n)) (document_order p).

(** [document.querySelectorAll('.fade-in, .fade-in-up')]. *)
Definition animatable (p : Page) (n : node) : Prop :=
  "fade-in" ∈ classList (elems p n) ∨ "fade-in-up" ∈ classList (elems p n).

Definition querySelectorAll_animatable (p : Page) : list node :=
  filter (animatable p) (document_order p).

(** [document.querySelectorAll('a[href^="#"]')]. *)
Definition hash_anchor (e : Element) : bool :=
  bool_decide (tagName e = "a") &&
  match attributes e !! "href" with
  | Some h => String.prefix "#" h
  | None => false
  end.

Definition querySelectorAll_hash_anchors (p : Page) : list node :=
  filter (λ n, Is_true (hash_anchor (elems p n))) (document_order p).

(** [navLinks.querySelectorAll('a, button, [tabindex]:not([tabindex="-1"])')]:
    the descendants of [root] that match, in document order. *)
Definition tabbable (e : Element) : bool :=
  bool_decide (tagName e = "a") || bool_decide (tagName e = "button") ||
  match attributes e !! "tabindex" with
  | Some v => negb (bool_decide (v = "-1"))
  | None => false
  end.

Definition querySelectorAll_tabbable (root : node) (p : Page) : list node :=
  filter (λ n, root ∈ ancestors (elems p n) ∧ Is_true (tabbable (elems p n)))
         (document_order p).

(** [document.querySelector(sel)] for a selector the script does not fix:
    the empty string and a bare hash are not selectors; for the rest the
    selector engine answers, from the document as it is at the call. *)
Definition querySelector (sel : string) : Js (option node) :=
  w ← get;
  if decide (sel = "" ∨ sel = "#") then throw SyntaxError
  else match selected (page w) sel with
       | Matched n => mret (Some n)
       | NoMatch => mret None
       | InvalidSelector => throw SyntaxError
       end.

(** [target.addEventListener(type, f)] with a function expression for
    [f]: each evaluation of the expression is a new function object, so
    the listener is always appended. *)
Definition addEventListener (tg : EventTarget) (ty : EventType)
    (cb : Callback) : Js unit :=
  modify (set_script (set_listeners
    (λ ls, ls ++ [{| on_target := tg; on_type := ty; callback := cb |}]))).

(** [new IntersectionObserver(...)]: a new, empty target set; the result
    is the observer's index. *)
Definition new_IntersectionObserver : Js nat :=
  w ← get;
  modify (set_script (set_observers (λ os, os ++ [∅])));;
  mret (length (observers (script w))).

Definition observe (observer : nat) (n : node) : Js unit :=
  modify (set_script (set_observers (alter (λ ts, ts ∪ {[n]}) observer))).

Definition unobserve (observer : nat) (n : node) : Js unit :=
  modify (set_script (set_observers (alter (λ ts, ts ∖ {[n]}) observer))).

Definition setTimeout_checkInitialView : Js unit :=
  modify (set_script (set_timers S)).

(** ** The script, function by function *)

(** The closing mutation, written out three times in the source (lines
    44-47, 57-60 and 178-181) with the same four statements. *)
Definition close_menu : Js unit :=
  nav ← ref navLinks;
  classList_remove nav "active";;
  tog ← ref mobileMenuToggle;
  classList_remove tog "active";;
  setAttribute tog "aria-expanded" "false";;
  body_style_overflow "".

(** Lines 29-39: the toggle's click listener. *)
Definition on_toggle_click : Js unit :=
  nav ← ref navLinks;
  isActive ← classList_contains nav "active";
  classList_toggle nav "active";;
  tog ← ref mobileMenuToggle;
  classList_toggle tog "active";;
  setAttribute tog "aria-expanded" (string_of_bool (negb isActive));;
  body_style_overflow (if isActive : bool then "" else "hidden").

(** Lines 43-48: the click listener of each nav link. *)
Definition on_navlink_click : Js unit := close_menu.

(** Lines 52-62: the document's click listener. *)
Definition on_document_click (e : Event) : Js unit :=
  nav ← ref navLinks;
  isClickInsideNav ← contains nav (target e);
  tog ← ref mobileMenuToggle;
  isClickOnToggle ← contains tog (target e);
  open ← (if negb isClickInsideNav && negb isClickOnToggle
          then classList_contains nav "active" else mret false);
  if open : bool then close_menu else mret tt.

(** Lines 26-63. *)
Definition initMobileMenu : Js unit :=
  w ← get;
  match mobileMenuToggle (script w), navLinks (script w) with
  | Some tog, Some _ =>
      addEventListener (Elem tog) click toggle_click;;
      forEach (navLinksArray (script w))
        (λ link, addEventListener (Elem link) click navlink_click);;
      addEventListener Document click document_click
  | _, _ => mret tt
  end.

Definition scrollThreshold : float := 50%float.

(** Lines 74-85: the window's scroll listener. *)
Definition on_scroll : Js unit :=
  w ← get;
  let currentScroll := pageYOffset (page w) in
  nb ← ref navbar;
  (if PrimFloat.ltb scrollThreshold currentScroll
   then classList_add nb "scrolled"
   else classList_remove nb "scrolled");;
  modify (set_script (set_lastScroll currentScroll)).

(** Lines 68-86. *)
Definition initNavbarScroll : Js unit :=
  w ← get;
  match navbar (script w) with
  | None => mret tt
  | Some _ =>
      modify (set_script (set_lastScroll 0%float));;
      addEventListener Window scroll navbar_scroll
  end.

(** Lines 108-116: the observer's callback; [observer] is the observer the
    closure belongs to. *)
Definition on_intersection (observer : nat)
    (entries : list IntersectionObserverEntry) : Js unit :=
  forEach entries (λ entry,
    if isIntersecting entry
    then classList_add (entry_target entry) "visible";;
         unobserve observer (entry_target entry)
    else mret tt).

(** Lines 91-123. *)
Definition initScrollAnimations : Js unit :=
  w ← get;
  if negb (hasIntersectionObserver (page w))
  then forEach (querySelectorAll_animatable (page w))
         (λ el, classList_add el "visible")
  else
    observer ← new_IntersectionObserver;
    w' ← get;
    let animatedElements := querySelectorAll_animatable (page w') in
    forEach animatedElements (λ el, observe observer el).

Definition headerOffset : float := 80%float.

(** Lines 130-150: the click listener of each hash anchor. *)
Definition on_anchor_click (this : EventTarget) : Js unit :=
  anchor ← this_element this;
  href ← getAttribute anchor "href";
  if decide (href = Some "#" ∨ href = Some "") then mret tt
  else
    found ← querySelector (string_of_attr href);
    match found with
    | Some tgt =>
        preventDefault;;
        rect ← getBoundingClientRect tgt;
        let elementPosition := rect_top rect in
        w ← get;
        let offsetPosition :=
          PrimFloat.sub (PrimFloat.add elementPosition (pageYOffset (page w)))
                        headerOffset in
        scrollTo {| scroll_top := offsetPosition; behavior := "smooth" |}
    | None => mret tt
    end.

(** Lines 128-152. *)
Definition initSmoothScroll : Js unit :=
  w ← get;
  forEach (querySelectorAll_hash_anchors (page w))
    (λ anchor, addEventListener (Elem anchor) click anchor_click).

(** Lines 161-167. *)
Definition on_button_mouseenter (this : EventTarget) : Js unit :=
  button ← this_element this;
  update_element button (set_style_transform "translateY(-2px) scale(1.02)").

Definition on_button_mouseleave (this : EventTarget) : Js unit :=
  button ← this_element this;
  update_element button (set_style_transform "translateY(0) scale(1)").

(** Lines 157-169. *)
Definition initButtonEffects : Js unit :=
  w ← get;
  forEach (querySelectorAll_class "btn-primary" (page w))
    (λ button,
       addEventListener (Elem button) mouseenter button_mouseenter;;
       addEventListener (Elem button) mouseleave button_mouseleave).

(** Lines 176-184: the document's keydown listener. *)
Definition on_escape_keydown (e : Event) : Js unit :=
  w ← get;
  if bool_decide (key e = "Escape") then
    match navLinks (script w) with
    | Some nav =>
        open ← classList_contains nav "active";
        if open : bool then
          close_menu;;
          tog ← ref mobileMenuToggle;
          focus tog
        else mret tt
    | None => mret tt
    end
  else mret tt.

(** Lines 192-211: the menu's keydown listener, closed over the
    [focusableElements] list computed when it was installed. *)
Definition on_trap_keydown (focusableElements : list node) (e : Event) : Js unit :=
  nav ← ref navLinks;
  open ← classList_contains nav "active";
  if negb open then mret tt
  else
    let firstElement := head focusableElements in
    let lastElement := list.last focusableElements in
    if bool_decide (key e = "Tab") then
      w ← get;
      if shiftKey e then
        if strict_eq (activeElement (page w)) firstElement then
          preventDefault;;
          el ← deref lastElement;
          focus el
        else mret tt
      else
        if strict_eq (activeElement (page w)) lastElement then
          preventDefault;;
          el ← deref firstElement;
          focus el
        else mret tt
    else mret tt.

(** Lines 174-213. *)
Definition initKeyboardNavigation : Js unit :=
  addEventListener Document keydown escape_keydown;;
  w ← get;
  match navLinks (script w), mobileMenuToggle (script w) with
  | Some nav, Some _ =>
      let focusableElements := querySelectorAll_tabbable nav (page w) in
      addEventListener (Elem nav) keydown (trap_keydown focusableElements)
  | _, _ => mret tt
  end.

(** Lines 249-257. *)
Definition checkInitialView : Js unit :=
  w ← get;
  forEach (querySelectorAll_animatable (page w)) (λ el,
    rect ← getBoundingClientRect el;
    w' ← get;
    let isInViewport :=
      PrimFloat.ltb (rect_top rect) (innerHeight (page w')) &&
      PrimFloat.ltb 0%float (rect_bottom rect) in
    if isInViewport then classList_add el "visible" else mret tt).

(** Lines 240-260: what [init] does once the document is ready. *)
Definition init_features : Js unit :=
  initMobileMenu;;
  initNavbarScroll;;
  initScrollAnimations;;
  initSmoothScroll;;
  initButtonEffects;;
  initKeyboardNavigation;;
  setTimeout_checkInitialView.

(** [target.addEventListener(type, f)] with a declared function for [f],
    which is one object however often it is passed: the DOM ignores the
    call when that function is registered for this target and type
    already. *)
Definition addEventListener_declared (tg : EventTarget) (ty : EventType)
    (cb : Callback) : Js unit :=
  w ← get;
  if bool_decide ({| on_target := tg; on_type := ty; callback := cb |} ∈
                  listeners (script w))
  then mret tt
  else addEventListener tg ty cb.

(** Lines 233-261. *)
Definition init : Js unit :=
  w ← get;
  if decide (readyState (page w) = loading)
  then addEventListener_declared Document DOMContentLoaded init_callback
  else init_features.

(** Lines 12-270: the body of the script. *)
Definition main : Js unit :=
  w ← get;
  let p := page w in
  modify (set_script (set_bindings
    (getElementById "mobileMenuToggle" p)
    (getElementById "navLinks" p)
    (getElementById "navbar" p)
    (querySelectorAll_class "nav-link" p)));;
  init;;
  modify (set_script (set_reinitAnimations true)).

(** ** The browser's event loop *)

(** Calling a registered function with its [this] and the event. *)
Definition call (cb : Callback) (this : EventTarget) (e : Event) : Js unit :=
  match cb with
  | toggle_click => on_toggle_click
  | navlink_click => on_navlink_click
  | document_click => on_document_click e
  | navbar_scroll => on_scroll
  | anchor_click => on_anchor_click this
  | button_mouseenter => on_button_mouseenter this
  | button_mouseleave => on_button_mouseleave this
  | escape_keydown => on_escape_keydown e
  | trap_keydown focusableElements => on_trap_keydown focusableElements e
  | init_callback => init
  end.

(** A task run by the browser: an exception that escapes it is reported
    and the state it reached stays. *)
Definition run_task (m : Js unit) (w : World) : World :=
  match m w with
  | (Normal _, w') => w'
  | (Abrupt err, w') => report err w'
  end.

(** [mouseenter] and [mouseleave] do not bubble; [scroll] bubbles only
    from the document (to the window). *)
Definition bubbles (ty : EventType) (tg : EventTarget) : bool :=
  match ty, tg with
  | mouseenter, _ | mouseleave, _ => false
  | scroll, Elem _ => false
  | _, _ => true
  end.

(** Every listener of the script is registered for the bubbling phase, so
    the event visits its target, then the target's ancestors, then the
    document and the window. *)
Definition propagation_path (p : Page) (e : Event) : list EventTarget :=
  match target e with
  | Elem t =>
      if bubbles (ev_type e) (target e)
      then Elem t :: (Elem <$> ancestors (elems p t)) ++ [Document; Window]
      else [Elem t]
  | Document =>
      if bubbles (ev_type e) (target e) then [Document; Window] else [Document]
  | Window => [Window]
  end.

Definition listeners_on (ty : EventType) (ls : list Listener)
    (tg : EventTarget) : list Listener :=
  filter (λ l, on_target l = tg ∧ on_type l = ty) ls.

Definition listeners_for (e : Event) (w : World) : list Listener :=
  propagation_path (page w) e ≫= listeners_on (ev_type e) (listeners (script w)).

Definition invoke (e : Event) (w : World) (l : Listener) : World :=
  run_task (call (callback l) (on_target l) e) w.

(** No listener of the script adds a listener that the event under
    dispatch would still reach, so the listeners are those present when
    dispatch starts. *)
Definition dispatchEvent (e : Event) (w : World) : World :=
  foldl (invoke e) (set_defaultPrevented false w) (listeners_for e w).

(** What can happen to the page after the script was loaded.  [Parsed]
    is the parser attaching the elements [late], which follow everything
    attached so far in tree order; it happens only while the document is
    loading. *)
Inductive Stimulus :=
  | Dispatch (e : Event)
  | Scrolled (y : float)
  | Parsed (late : list node)
  | ContentLoaded
  | Intersection (observer : nat) (entries : list IntersectionObserverEntry)
  | TimerFired
  | Reinit
  | Relayout (l : Snapshot → node → DOMRect) (h : float)
  | FocusMoved (n : option node).

Definition plain_event (ty : EventType) (tg : EventTarget) : Event :=
  {| ev_type := ty; target := tg; key := ""; shiftKey := false |}.

(** The browser only reports entries for targets the observer watches. *)
Definition deliverable (observer : nat)
    (entries : list IntersectionObserverEntry) (w : World) : Prop :=
  ∃ ts, observers (script w) !! observer = Some ts ∧
        Forall (λ entry, entry_target entry ∈ ts) entries.

Global Instance deliverable_dec observer entries w :
  Decision (deliverable observer entries w).
Proof.
  unfold deliverable.
  destruct (observers (script w) !! observer) as [ts|].
  - destruct (decide (Forall (λ entry, entry_target entry ∈ ts) entries)).
    + left. eauto.
    + right. intros (ts' & [= <-] & ?). done.
  - right. intros (ts' & [=] & ?).
Defined.

Definition step (s : Stimulus) (w : World) : World :=
  match s with
  | Dispatch e => dispatchEvent e w
  | Scrolled y =>
      dispatchEvent (plain_event scroll Document)
                    (set_page (set_pageYOffset y) w)
  | Parsed late =>
      if decide (readyState (page w) = loading)
      then set_page (set_document_order (λ l, l ++ late)) w
      else w
  | ContentLoaded =>
      if decide (readyState (page w) = loading)
      then dispatchEvent (plain_event DOMContentLoaded Document)
                         (set_page (set_readyState interactive) w)
      else w
  | Intersection observer entries =>
      if decide (deliverable observer entries w)
      then run_task (on_intersection observer entries) w
      else w
  | TimerFired =>
      match timers (script w) with
      | O => w
      | S _ => run_task checkInitialView (set_script (set_timers pred) w)
      end
  | Reinit =>
      if reinitAnimations (script w) then run_task initScrollAnimations w
      else w
  | Relayout l h => set_page (set_layout l h) w
  | FocusMoved n => set_page (set_activeElement n) w
  end.

Definition run (ss : list Stimulus) (w : World) : World :=
  foldl (λ w s, step s w) w ss.

(** The world in which the script starts on page [p], and the world it
    leaves when its body has run. *)
Definition fresh (p : Page) : World :=
  {| page := p;
     script := {| mobileMenuToggle := None; navLinks := None; navbar := None;
                  navLinksArray := []; lastScroll := 0%float;
                  listeners := []; observers := []; timers := 0;
                  reinitAnimations := false |};
     defaultPrevented := false; scrollTo_calls := []; focus_calls := [];
     uncaught := [] |}.

Definition load (p : Page) : World := run_task main (fresh p).

(** ** A sample page

    The markup the script is written for, cut down to one element of each
    kind: a navbar holding the toggle button and the menu with two links,
    two animated sections and a call-to-action button. *)
Module Sample.

Definition el (tag : string) (attrs : list (string * string))
    (classes : list string) (anc : list node) : Element :=
  {| tagName := tag; attributes := list_to_map attrs;
     classList := list_to_set classes; ancestors := anc;
     style_transform := ""; focusable := true |}.

Definition blank : Element := el "div" [] [] [].

Definition navbar_id : node := 0.
Definition toggle_id : node := 1.
Definition menu_id : node := 2.
Definition link1_id : node := 3.
Definition link2_id : node := 4.
Definition features_id : node := 5.
Definition pricing_id : node := 6.
Definition cta_id : node := 7.

Definition markup : list Element :=
  [ el "nav" [("id", "navbar")] ["navbar"] [];
    el "button" [("id", "mobileMenuToggle"); ("aria-expanded", "false")]
       ["mobile-menu-toggle"] [navbar_id];
    el "ul" [("id", "navLinks")] ["nav-links"] [navbar_id];
    el "a" [("href", "#features")] ["nav-link"] [menu_id; navbar_id];
    el "a" [("href", "#pricing")] ["nav-link"] [menu_id; navbar_id];
    el "section" [("id", "features")] ["fade-in"] [];
    el "section" [("id", "pricing")] ["fade-in-up"] [];
    el "a" [("href", "#")] ["btn-primary"] [features_id] ].

Definition rects (n : node) : DOMRect :=
  match n with
  | 5 => {| rect_top := 780%float; rect_bottom := 1400%float |}
  | 6 => {| rect_top := 1400.5%float; rect_bottom := 2000%float |}
  | _ => {| rect_top := 0%float; rect_bottom := 64%float |}
  end.

(** The sample's selector engine knows id selectors only. *)
Definition answers (s : Snapshot) (sel : string) : Selected :=
  match sel with
  | String c id =>
      if Ascii.eqb c "#"%char && is_identifier id then id_answer id s
      else NoMatch
  | EmptyString => NoMatch
  end.

Definition document_of (els : list Element) (observer_support : bool) : Page :=
  {| elems := λ n, default blank (els !! n);
     document_order := seq 0 (length els);
     layout := λ _, rects; selector := answers;
     body_overflow := ""; activeElement := None;
     pageYOffset := 0%float; innerHeight := 800%float;
     readyState := interactive;
     hasIntersectionObserver := observer_support |}.

Definition doc : Page := document_of markup true.

(** The same page in a browser without [IntersectionObserver]. *)
Definition legacy_doc : Page := document_of markup false.

(** A page whose menu is marked open in the markup and that has no toggle
    button. *)
Definition toggleless_markup : list Element :=
  [ el "nav" [("id", "navbar")] ["navbar"] [];
    el "ul" [("id", "navLinks")] ["nav-links"; "active"] [0];
    el "a" [("href", "#features")] ["nav-link"] [1; 0] ].

Definition toggleless_doc : Page := document_of toggleless_markup true.

Definition keypress (k : string) (shift : bool) (tg : node) : Event :=
  {| ev_type := keydown; target := Elem tg; key := k; shiftKey := shift |}.

Definition click_on (tg : node) : Event := plain_event click (Elem tg).

(** What a user sees of the menu: the two [active] classes, the toggle's
    [aria-expanded] and the body's overflow. *)
Definition menu_view (w : World) : bool * bool * option string * string :=
  (bool_decide ("active" ∈ classList (elems (page w) menu_id)),
   bool_decide ("active" ∈ classList (elems (page w) toggle_id)),
   attributes (elems (page w) toggle_id) !! "aria-expanded",
   body_overflow (page w)).

Example bindings_resolved :
  (mobileMenuToggle (script (load doc)), navLinks (script (load doc)),
   navbar (script (load doc)), navLinksArray (script (load doc))) =
  (Some toggle_id, Some menu_id, Some navbar_id, [link1_id; link2_id]).
Proof. vm_compute. reflexivity. Qed.

Example keydown_listeners_installed :
  filter (λ l, on_type l = keydown) (listeners (script (load doc))) =
  [ {| on_target := Document; on_type := keydown; callback := escape_keydown |};
    {| on_target := Elem menu_id; on_type := keydown;
       callback := trap_keydown [link1_id; link2_id] |} ].
Proof. vm_compute. reflexivity. Qed.

Example toggle_click_opens :
  menu_view (run [Dispatch (click_on toggle_id)] (load doc)) =
  (true, true, Some "true", "hidden").
Proof. vm_compute. reflexivity. Qed.

Example toggle_click_twice_closes :
  menu_view (run [Dispatch (click_on toggle_id); Dispatch (click_on toggle_id)]
                 (load doc)) =
  (false, false, Some "false", "").
Proof. vm_compute. reflexivity. Qed.

Example outside_click_closes :
  menu_view (run [Dispatch (click_on toggle_id); Dispatch (click_on pricing_id)]
                 (load doc)) =
  (false, false, Some "false", "").
Proof. vm_compute. reflexivity. Qed.

Example click_inside_menu_keeps_open :
  menu_view (run [Dispatch (click_on toggle_id); Dispatch (click_on menu_id)]
                 (load doc)) =
  (true, true, Some "true", "hidden").
Proof. vm_compute. reflexivity. Qed.

(** A click on a nav link closes the menu and scrolls to the section. *)
Example navlink_click_closes_and_scrolls :
  let w := run [Dispatch (click_on toggle_id); Dispatch (click_on link1_id)]
               (load doc) in
  (menu_view w, defaultPrevented w, scrollTo_calls w) =
  ((false, false, Some "false", ""), true,
   [ {| scroll_top := 700%float; behavior := "smooth" |} ]).
Proof. vm_compute. reflexivity. Qed.

End Sample.

(** ** Reasoning about [Js] computations *)

Lemma bind_unfold {A B} (m : Js A) (f : A → Js B) (w : World) :
  (m ≫= f) w = match m w with
               | (Normal a, w') => f a w'
               | (Abrupt e, w') => (Abrupt e, w')
               end.
Proof. reflexivity. Qed.

Lemma ret_unfold {A} (a : A) (w : World) :
  (mret a : Js A) w = (Normal a, w).
Proof. reflexivity. Qed.

(** [keeps R m]: from any world, [m] leads to an [R]-related world,
    whether it returns or throws.  With [R] a preorder this composes along
    sequencing and loops, so that a property of a whole listener follows
    from the same property of the state updates at its leaves. *)
Definition keeps (R : relation World) {A} (m : Js A) : Prop :=
  ∀ w, R w (m w).2.

Section keeps.
Context (R : relation World) `{!PreOrder R}.

Lemma keeps_ret {A} (a : A) : keeps R (mret a).
Proof. intros w. simpl. reflexivity. Qed.

Lemma keeps_get : keeps R get.
Proof. intros w. simpl. reflexivity. Qed.

Lemma keeps_throw {A} (e : JsError) : keeps R (@throw A e).
Proof. intros w. simpl. reflexivity. Qed.

Lemma keeps_modify (f : World → World) :
  (∀ w, R w (f w)) → keeps R (modify f).
Proof. intros Hf w. apply Hf. Qed.

Lemma keeps_bind {A B} (m : Js A) (f : A → Js B) :
  keeps R m → (∀ a, keeps R (f a)) → keeps R (m ≫= f).
Proof.
  intros Hm Hf w. rewrite bind_unfold.
  specialize (Hm w). destruct (m w) as [[a|e] w']; simpl in *; [|done].
  etrans; [exact Hm|]. apply Hf.
Qed.

(** After [get], the continuation may be analysed at the world read. *)
Lemma keeps_get_bind {A} (f : World → Js A) :
  (∀ w, R w (f w w).2) → keeps R (get ≫= f).
Proof. intros Hf w. apply Hf. Qed.

Lemma keeps_forEach {A} (l : list A) (f : A → Js unit) :
  (∀ x, x ∈ l → keeps R (f x)) → keeps R (forEach l f).
Proof.
  induction l as [|x l IH]; intros Hf; simpl.
  - apply keeps_ret.
  - apply keeps_bind; [apply Hf; left|].
    intros _. apply IH. intros y Hy. apply Hf. by right.
Qed.

Lemma keeps_run_task (m : Js unit) (w : World) :
  keeps R m → (∀ e w', R w' (report e w')) → R w (run_task m w).
Proof.
  intros Hm Hr. unfold run_task. specialize (Hm w).
  destruct (m w) as [[a|e] w']; simpl in *; [done|].
  etrans; [exact Hm|]. apply Hr.
Qed.
End keeps.

(** Unfolding a listener down to its [get]s and [modify]s. *)
Create HintDb js discriminated.

#[export] Hint Unfold
  close_menu on_toggle_click on_navlink_click on_document_click
  on_scroll on_intersection on_anchor_click on_button_mouseenter
  on_button_mouseleave on_escape_keydown on_trap_keydown checkInitialView
  initMobileMenu initNavbarScroll initScrollAnimations initSmoothScroll
  initButtonEffects initKeyboardNavigation init_features init
  deref ref this_element element update_element classList_contains
  classList_add classList_remove classList_toggle getAttribute setAttribute
  body_style_overflow focus preventDefault scrollTo getBoundingClientRect
  contains querySelector addEventListener addEventListener_declared
  new_IntersectionObserver observe
  unobserve setTimeout_checkInitialView : js.

(** Decomposes a [keeps] goal along the structure of the computation; what
    is left are the goals [∀ w, R w (f w)] of the state updates. *)
Ltac keeps_split :=
  repeat match goal with
    | |- keeps _ (mret _) => apply keeps_ret; typeclasses eauto
    | |- keeps _ get => apply keeps_get; typeclasses eauto
    | |- keeps _ (throw _) => apply keeps_throw; typeclasses eauto
    | |- keeps _ (_ ≫= _) => apply keeps_bind; [typeclasses eauto| |intros ?]
    | |- keeps _ (forEach _ _) =>
        apply keeps_forEach; [typeclasses eauto|intros ? _]
    | |- keeps _ (modify _) => apply keeps_modify
    | |- keeps _ (match ?x with _ => _ end) => destruct x
    end.

Ltac keeps_auto := autounfold with js; keeps_split.

(** ** Relations between the world before and after a computation *)

(** The class [c] is never taken from an element. *)
Definition class_kept (c : string) : relation World := λ w w',
  ∀ n, c ∈ classList (elems (page w) n) → c ∈ classList (elems (page w') n).

Global Instance class_kept_preorder c : PreOrder (class_kept c).
Proof.
  split.
  - by intros w n.
  - intros w1 w2 w3 H12 H23 n Hn. by apply H23, H12.
Qed.

(** A state update that rewrites one element, looked up at any element. *)
Lemma elems_alter (f : Element → Element) (n m : node) (w : World) :
  elems (page (set_page (set_elems (alter f n)) w)) m =
  if decide (n = m) then f (elems (page w) m) else elems (page w) m.
Proof.
  simpl. destruct (decide (n = m)) as [->|Hne].
  - by rewrite fn_lookup_alter.
  - by rewrite fn_lookup_alter_ne.
Qed.

Ltac class_kept_leaf :=
  let w := fresh "w" in let m := fresh "m" in let H := fresh "H" in
  intros w m H;
  first
    [ exact H
    | rewrite elems_alter; case_decide; [simpl; set_solver | exact H] ].

Lemma init_keeps_visible : keeps (class_kept "visible") init.
Proof.
  keeps_auto; class_kept_leaf.
Qed.

Lemma call_keeps_visible (cb : Callback) (this : EventTarget) (e : Event) :
  keeps (class_kept "visible") (call cb this e).
Proof.
  destruct cb; simpl; try apply init_keeps_visible; keeps_auto; class_kept_leaf.
Qed.



(** ** Invariants of the event loop *)

(** A predicate [I] on worlds is kept by every stimulus as soon as it is
    kept by each thing the browser can run: a registered listener (all of
    which satisfy [L]), the observer callback, the timer callback and the
    re-initialisation hook, and by the browser's own bookkeeping. *)
Record loop_invariant (I : World → Prop) (L : Listener → Prop) : Prop := {
  inv_registered : ∀ w l, I w → l ∈ listeners (script w) → L l;
  inv_invoke : ∀ w l e, I w → L l → I (invoke e w l);
  inv_flag : ∀ w b, I w → I (set_defaultPrevented b w);
  inv_scroll : ∀ w y, I w → I (set_page (set_pageYOffset y) w);
  inv_parsed : ∀ w late, readyState (page w) = loading → I w →
                 I (set_page (set_document_order (λ l, l ++ late)) w);
  inv_ready : ∀ w, readyState (page w) = loading → I w →
                I (set_page (set_readyState interactive) w);
  inv_layout : ∀ w l h, I w → I (set_page (set_layout l h) w);
  inv_focus : ∀ w n, I w → I (set_page (set_activeElement n) w);
  inv_timer : ∀ w, I w → I (set_script (set_timers pred) w);
  inv_intersection : ∀ w o es, I w → I (run_task (on_intersection o es) w);
  inv_check : ∀ w, I w → I (run_task checkInitialView w);
  inv_reinit : ∀ w, I w → I (run_task initScrollAnimations w)
}.

Lemma listeners_for_registered (e : Event) (w : World) (l : Listener) :
  l ∈ listeners_for e w → l ∈ listeners (script w).
Proof.
  unfold listeners_for, listeners_on. rewrite list_elem_of_bind.
  intros (tg & Hl & _). by apply list_elem_of_filter in Hl as [_ ?].
Qed.

Section loop_invariant.
Context (I : World → Prop) (L : Listener → Prop) (HI : loop_invariant I L).

Lemma invoke_all_inv (e : Event) (ls : list Listener) (w : World) :
  I w → Forall L ls → I (foldl (invoke e) w ls).
Proof.
  revert w. induction ls as [|l ls IH]; intros w Hw Hls; simpl; [done|].
  inversion Hls; subst. apply IH; [|done]. by apply (inv_invoke I L HI).
Qed.

Lemma dispatchEvent_inv (e : Event) (w : World) :
  I w → I (dispatchEvent e w).
Proof.
  intros Hw. unfold dispatchEvent. apply invoke_all_inv.
  - by apply (inv_flag I L HI).
  - apply list.Forall_forall. intros l Hl.
    apply (inv_registered I L HI w); [done|].
    by apply listeners_for_registered in Hl.
Qed.

Lemma step_inv (s : Stimulus) (w : World) : I w → I (step s w).
Proof.
  intros Hw. destruct s; simpl.
  - by apply dispatchEvent_inv.
  - apply dispatchEvent_inv. by apply (inv_scroll I L HI).
  - case_decide; [|done]. by apply (inv_parsed I L HI).
  - case_decide; [|done].
    apply dispatchEvent_inv. by apply (inv_ready I L HI).
  - case_decide; [|done]. by apply (inv_intersection I L HI).
  - destruct (timers (script w)) eqn:Ht; [done|].
    apply (inv_check I L HI). by apply (inv_timer I L HI).
  - destruct (reinitAnimations (script w)); [|done].
    by apply (inv_reinit I L HI).
  - by apply (inv_layout I L HI).
  - by apply (inv_focus I L HI).
Qed.

Lemma run_inv (ss : list Stimulus) (w : World) : I w → I (run ss w).
Proof.
  revert w. induction ss as [|s ss IH]; intros w Hw; simpl; [done|].
  apply IH. by apply step_inv.
Qed.
End loop_invariant.

(** *** The reveal is permanent *)

Lemma on_intersection_keeps_visible o es :
  keeps (class_kept "visible") (on_intersection o es).
Proof. keeps_auto; class_kept_leaf. Qed.

Lemma checkInitialView_keeps_visible :
  keeps (class_kept "visible") checkInitialView.
Proof. keeps_auto; class_kept_leaf. Qed.

Lemma initScrollAnimations_keeps_visible :
  keeps (class_kept "visible") initScrollAnimations.
Proof. keeps_auto; class_kept_leaf. Qed.

Lemma visible_loop_invariant (w0 : World) :
  loop_invariant (class_kept "visible" w0) (λ _, True).
Proof.
  assert (∀ (m : Js unit) w, keeps (class_kept "visible") m →
            class_kept "visible" w0 w →
            class_kept "visible" w0 (run_task m w)) as Htask.
  { intros m w Hm Hw. etrans; [exact Hw|].
    apply keeps_run_task; [apply _|done|]. intros e. class_kept_leaf. }
  split; try done.
  - intros w l e Hw _. apply Htask; [apply call_keeps_visible|done].
  - intros w o es Hw. by apply Htask; [apply on_intersection_keeps_visible|].
  - intros w Hw. by apply Htask; [apply checkInitialView_keeps_visible|].
  - intros w Hw. by apply Htask; [apply initScrollAnimations_keeps_visible|].
Qed.

Lemma run_keeps_visible (ss : list Stimulus) (w : World) :
  class_kept "visible" w (run ss w).
Proof. apply (run_inv _ _ (visible_loop_invariant w)). reflexivity. Qed.

(** *** Observation *)

Definition visible (n : node) (w : World) : Prop :=
  "visible" ∈ classList (elems (page w) n).

Definition observed_by (observer : nat) (n : node) (w : World) : Prop :=
  ∃ ts, observers (script w) !! observer = Some ts ∧ n ∈ ts.

Definition observed (n : node) (w : World) : Prop :=
  ∃ observer, observed_by observer n w.

Lemma observed_by_unobserve (o o' : nat) (n m : node) (w : World) :
  observed_by o n (exec (unobserve o' m) w) ↔
  observed_by o n w ∧ ¬ (o = o' ∧ n = m).
Proof.
  unfold observed_by, exec, unobserve. simpl.
  destruct (decide (o = o')) as [->|Ho].
  - rewrite list_lookup_alter_eq. split.
    + intros (ts & Hts & Hn).
      destruct (observers (script w) !! o') as [ts'|]; [|done].
      injection Hts as <-.
      split; [exists ts'; split; [done|set_solver] | set_solver].
    + intros [(ts & Hts & Hn) Hne]. rewrite Hts. simpl.
      eexists; split; [done|]. set_solver.
  - rewrite list_lookup_alter_ne by done. naive_solver.
Qed.

(** Once the callback has processed an intersecting entry for [n], the
    element is visible and off the observer's list, and the remaining
    entries do not change that. *)
Lemma on_intersection_reveals (o : nat) (n : node)
    (es : list IntersectionObserverEntry) (w : World) :
  {| entry_target := n; isIntersecting := true |} ∈ es ∨
    (visible n w ∧ ¬ observed_by o n w) →
  visible n (exec (on_intersection o es) w) ∧
  ¬ observed_by o n (exec (on_intersection o es) w).
Proof.
  unfold on_intersection. revert w.
  induction es as [|[t b] es IH]; intros w Hw.
  - destruct Hw as [Hw|Hw]; [by apply elem_of_nil in Hw|done].
  - unfold exec in *. cbn [forEach]. rewrite bind_unfold.
    cbn [isIntersecting entry_target].
    destruct b.
    + (* an intersecting entry *)
      set (w1 := exec (classList_add t "visible" ;; unobserve o t) w).
      change ((classList_add t "visible" ;; unobserve o t) w)
        with (Normal tt, w1).
      cbv beta iota. apply IH.
      assert (visible t w1 ∧ ¬ observed_by o t w1) as Ht.
      { split.
        - unfold visible, w1, exec. simpl. rewrite fn_lookup_alter. simpl.
          set_solver.
        - unfold w1. intros Ho.
          change (exec (classList_add t "visible";; unobserve o t) w)
            with (exec (unobserve o t) (exec (classList_add t "visible") w)) in Ho.
          apply observed_by_unobserve in Ho. naive_solver. }
      destruct Hw as [Hw|[Hv Ho]].
      * apply elem_of_cons in Hw as [[= ->]|Hw]; [by right|by left].
      * destruct (decide (n = t)) as [->|Hne]; [by right|]. right. split.
        -- unfold visible, w1, exec. simpl.
           rewrite fn_lookup_alter_ne by done. exact Hv.
        -- unfold w1. intros Ho'.
           change (exec (classList_add t "visible";; unobserve o t) w)
             with (exec (unobserve o t) (exec (classList_add t "visible") w)) in Ho'.
           apply observed_by_unobserve in Ho' as [Ho' _]. by apply Ho.
    + (* a non-intersecting entry changes nothing *)
      simpl. apply IH.
      destruct Hw as [Hw|Hw]; [|by right].
      apply elem_of_cons in Hw as [[=]|Hw]. by left.
Qed.

Lemma forEach_classList_add (c : string) (l : list node) (w : World) :
  (forEach l (λ el, classList_add el c) w).1 = Normal tt ∧
  script (exec (forEach l (λ el, classList_add el c)) w) = script w ∧
  (∀ n, n ∈ l →
     c ∈ classList (elems (page (exec (forEach l (λ el, classList_add el c)) w)) n)).
Proof.
  assert (keeps (class_kept c) (forEach l (λ el, classList_add el c))) as Hk.
  { keeps_auto. class_kept_leaf. }
  unfold exec. revert w Hk. induction l as [|x l IH]; intros w Hk.
  - split_and!; [done..|]. intros n Hn. by apply elem_of_nil in Hn.
  - cbn [forEach]. rewrite bind_unfold.
    set (w1 := exec (classList_add x c) w).
    change (classList_add x c w) with (Normal tt, w1). cbv beta iota.
    assert (keeps (class_kept c) (forEach l (λ el, classList_add el c))) as Hl.
    { keeps_auto. class_kept_leaf. }
    destruct (IH w1 Hl) as (Hr & Hs & Hin). split_and!; [done|done|].
    intros n [->|Hn]%elem_of_cons; [|by apply Hin].
    apply (Hl w1). unfold w1, exec. simpl. rewrite fn_lookup_alter. simpl.
    set_solver.
Qed.

(** ** Reveal on scroll *)

(** C9.  Without [IntersectionObserver], scroll-animation setup returns
    normally, leaves every element of the document that carries [fade-in]
    or [fade-in-up] with the [visible] class, and creates no observer. *)
Theorem initScrollAnimations_fallback (w : World) :
  hasIntersectionObserver (page w) = false →
  (initScrollAnimations w).1 = Normal tt ∧
  (∀ n, n ∈ document_order (page w) → animatable (page w) n →
        visible n (exec initScrollAnimations w)) ∧
  observers (script (exec initScrollAnimations w)) = observers (script w).
Proof.
  intros Hio. unfold initScrollAnimations, exec.
  rewrite bind_unfold. cbn [get]. cbv beta iota. rewrite Hio. cbn [negb].
  destruct (forEach_classList_add "visible"
              (querySelectorAll_animatable (page w)) w) as (Hr & Hs & Hv).
  split_and!; [done| |by rewrite <- Hs].
  intros n Hn Ha. apply Hv. apply list_elem_of_filter. by split.
Qed.

Lemma initScrollAnimations_fallback_witness :
  hasIntersectionObserver (page (fresh Sample.legacy_doc)) = false ∧
  visible Sample.features_id
    (exec initScrollAnimations (fresh Sample.legacy_doc)) ∧
  visible Sample.pricing_id
    (exec initScrollAnimations (fresh Sample.legacy_doc)) ∧
  observers (script (exec initScrollAnimations (fresh Sample.legacy_doc))) = [].
Proof.
  destruct (initScrollAnimations_fallback (fresh Sample.legacy_doc) eq_refl)
    as (_ & Hv & Ho).
  split; [reflexivity|].
  split; [apply Hv; compute_done|].
  split; [apply Hv; compute_done|].
  exact Ho.
Defined.

(** ** Computations that cannot throw *)

Definition returns {A} (m : Js A) : Prop := ∀ w, ∃ a, (m w).1 = Normal a.

Lemma returns_ret {A} (a : A) : returns (mret a).
Proof. intros w. by exists a. Qed.

Lemma returns_get : returns get.
Proof. intros w. by exists w. Qed.

Lemma returns_modify (f : World → World) : returns (modify f).
Proof. intros w. by exists tt. Qed.

Lemma returns_bind {A B} (m : Js A) (f : A → Js B) :
  returns m → (∀ a, returns (f a)) → returns (m ≫= f).
Proof.
  intros Hm Hf w. rewrite bind_unfold. destruct (Hm w) as [a Ha].
  destruct (m w) as [[a'|e] w']; simpl in *; [|discriminate]. apply Hf.
Qed.

Lemma returns_forEach {A} (l : list A) (f : A → Js unit) :
  (∀ x, returns (f x)) → returns (forEach l f).
Proof.
  intros Hf. induction l as [|x l IH]; simpl.
  - apply returns_ret.
  - by apply returns_bind.
Qed.

Ltac returns_split :=
  repeat match goal with
    | |- returns (mret _) => apply returns_ret
    | |- returns get => apply returns_get
    | |- returns (modify _) => apply returns_modify
    | |- returns (_ ≫= _) => apply returns_bind; [|intros ?]
    | |- returns (forEach _ _) => apply returns_forEach; intros ?
    | |- returns (match ?x with _ => _ end) => destruct x
    end.

Ltac returns_auto := autounfold with js; returns_split.

Lemma exec_seq {B} (m : Js unit) (k : Js B) (w : World) :
  returns m → exec (m ;; k) w = exec k (exec m w).
Proof.
  intros Hm. unfold exec. rewrite bind_unfold. destruct (Hm w) as [a Ha].
  destruct (m w) as [[a'|e] w']; simpl in *; [done|discriminate].
Qed.

Lemma run_task_returns (m : Js unit) (w : World) :
  returns m → run_task m w = exec m w.
Proof.
  intros Hm. unfold run_task, exec. destruct (Hm w) as [a Ha].
  destruct (m w) as [[a'|e] w']; simpl in *; [done|discriminate].
Qed.

Lemma init_returns : returns init.
Proof. returns_auto. Qed.

(** The bindings [main] computes from the page it starts on. *)
Definition bound (p : Page) (w : World) : World :=
  set_script (set_bindings
    (getElementById "mobileMenuToggle" p)
    (getElementById "navLinks" p)
    (getElementById "navbar" p)
    (querySelectorAll_class "nav-link" p)) w.

Lemma load_unfold (p : Page) :
  load p = set_script (set_reinitAnimations true)
             (exec init (bound p (fresh p))).
Proof.
  unfold load. rewrite run_task_returns.
  2:{ unfold main. returns_split. apply init_returns. }
  unfold main, exec. rewrite bind_unfold. cbn [get]. cbv beta iota.
  rewrite bind_unfold. cbn [modify page fresh]. cbv beta iota.
  rewrite bind_unfold. fold (bound p (fresh p)).
  destruct (init_returns (bound p (fresh p))) as [[] Ha].
  destruct (init (bound p (fresh p))) as [[[]|e] w']; simpl in *; [done|discriminate].
Qed.

Lemma init_ready (w : World) :
  readyState (page w) ≠ loading → exec init w = exec init_features w.
Proof.
  intros Hr. unfold init, exec. rewrite bind_unfold. cbn [get]. cbv beta iota.
  by rewrite decide_False.
Qed.

(** A predicate on worlds, read as a relation for [keeps]. *)
Definition inv_rel (I : World → Prop) : relation World := λ w w', I w → I w'.

Global Instance inv_rel_preorder I : PreOrder (inv_rel I).
Proof. split; unfold inv_rel; [by intros w|intros w1 w2 w3; tauto]. Qed.

Lemma keeps_inv_run_task (I : World → Prop) (m : Js unit) (w : World) :
  keeps (inv_rel I) m → (∀ e w', I w' → I (report e w')) →
  I w → I (run_task m w).
Proof.
  intros Hm Hr Hw.
  by apply (keeps_run_task (inv_rel I) m w Hm (λ e w', Hr e w')).
Qed.

(** ** Navbar scroll styling *)

Definition apply_threshold (y : float) (cs : gset string) : gset string :=
  if PrimFloat.ltb scrollThreshold y
  then cs ∪ {["scrolled"]} else cs ∖ {["scrolled"]}.

Lemma apply_threshold_idemp (y : float) (cs : gset string) :
  apply_threshold y (apply_threshold y cs) = apply_threshold y cs.
Proof. unfold apply_threshold. destruct (PrimFloat.ltb _ _); set_solver. Qed.

Lemma apply_threshold_scrolled (y : float) (cs : gset string) :
  "scrolled" ∈ apply_threshold y cs ↔ PrimFloat.ltb scrollThreshold y = true.
Proof. unfold apply_threshold. destruct (PrimFloat.ltb _ _); set_solver. Qed.

(** What the scroll listener does when the navbar exists. *)
Lemma on_scroll_spec (w : World) (nb : node) :
  navbar (script w) = Some nb →
  on_scroll w =
    (Normal tt,
     set_script (set_lastScroll (pageYOffset (page w)))
       (set_page (set_elems (alter
          (set_classList (apply_threshold (pageYOffset (page w)))) nb)) w)).
Proof.
  intros Hnb. unfold on_scroll, ref, apply_threshold.
  rewrite bind_unfold. cbn [get]. cbv beta iota zeta.
  rewrite (bind_unfold (get ≫= _)), (bind_unfold get). cbn [get].
  cbv beta iota. rewrite Hnb. cbn.
  destruct (PrimFloat.ltb _ _); reflexivity.
Qed.

(** The scroll wiring: the navbar is bound, the window carries the scroll
    listener, and nothing else listens for [scroll]. *)
Definition scroll_listener : Listener :=
  {| on_target := Window; on_type := scroll; callback := navbar_scroll |}.

Definition only_navbar_scroll (nb : node) (w : World) : Prop :=
  navbar (script w) = Some nb ∧
  ∀ l, l ∈ listeners (script w) → on_type l = scroll → callback l = navbar_scroll.

Definition scroll_wired (nb : node) (w : World) : Prop :=
  only_navbar_scroll nb w ∧ scroll_listener ∈ listeners (script w).

Ltac scroll_leaf :=
  let w := fresh "w" in let H1 := fresh "H" in let H2 := fresh "H" in
  let H3 := fresh "H" in
  first
    [ intros w [[H1 H2] H3]; split; [split|]
    | intros w [H1 H2]; split ];
  simpl;
  [ exact H1
  | first [ exact H2
          | let l := fresh "l" in let Hty := fresh "Hty" in
            intros l [?| ->%list_elem_of_singleton]%elem_of_app Hty;
            [by apply H2 | first [reflexivity | discriminate Hty]] ]
  | try first [ exact H3 | apply elem_of_app; left; exact H3 ] .. ].

Lemma call_keeps_scroll_wired nb cb this e :
  keeps (inv_rel (scroll_wired nb)) (call cb this e).
Proof. destruct cb; simpl; keeps_auto; scroll_leaf. Qed.

Lemma scroll_wired_loop_invariant (nb : node) :
  loop_invariant (scroll_wired nb) (λ _, True).
Proof.
  assert (∀ (m : Js unit) w, keeps (inv_rel (scroll_wired nb)) m →
            scroll_wired nb w → scroll_wired nb (run_task m w)) as Htask.
  { intros m w Hm Hw. by apply (keeps_inv_run_task _ m w Hm). }
  split; try done.
  - intros w l e Hw _. apply Htask; [apply call_keeps_scroll_wired|done].
  - intros w o es Hw. apply Htask; [keeps_auto; scroll_leaf|done].
  - intros w Hw. apply Htask; [keeps_auto; scroll_leaf|done].
  - intros w Hw. apply Htask; [keeps_auto; scroll_leaf|done].
Qed.

(** Loading a ready page that has a navbar installs the wiring. *)
Lemma load_scroll_wired (p : Page) (nb : node) :
  readyState p ≠ loading → getElementById "navbar" p = Some nb →
  scroll_wired nb (load p).
Proof.
  intros Hr Hnb. rewrite load_unfold.
  assert (∀ w, scroll_wired nb w →
            scroll_wired nb (set_script (set_reinitAnimations true) w)) as Hfin
    by scroll_leaf.
  apply Hfin. clear Hfin.
  rewrite init_ready by done. unfold init_features.
  rewrite exec_seq by returns_auto.
  set (w1 := exec initMobileMenu (bound p (fresh p))).
  assert (only_navbar_scroll nb w1) as Hw1.
  { assert (keeps (inv_rel (only_navbar_scroll nb)) initMobileMenu) as Hk
      by (keeps_auto; scroll_leaf).
    apply (Hk (bound p (fresh p))). split; [exact Hnb|].
    intros l Hl. by apply elem_of_nil in Hl. }
  rewrite exec_seq by returns_auto.
  set (w2 := exec initNavbarScroll w1).
  assert (scroll_wired nb w2) as Hw2.
  { destruct Hw1 as [Hb Hq]. unfold w2, exec, initNavbarScroll.
    rewrite bind_unfold. cbn [get]. cbv beta iota. rewrite Hb. simpl.
    split; [split; [exact Hb|]|].
    - intros l [?| ->%list_elem_of_singleton]%elem_of_app Hty; [by apply Hq|done].
    - apply elem_of_app. right. by apply list_elem_of_singleton. }
  revert Hw2. generalize w2. change (keeps (inv_rel (scroll_wired nb))
    (initScrollAnimations;; initSmoothScroll;; initButtonEffects;;
     initKeyboardNavigation;; setTimeout_checkInitialView)).
  keeps_auto; scroll_leaf.
Qed.

Lemma run_scroll_wired (p : Page) (nb : node) (ss : list Stimulus) :
  readyState p ≠ loading → getElementById "navbar" p = Some nb →
  scroll_wired nb (run ss (load p)).
Proof.
  intros Hr Hnb. apply (run_inv _ _ (scroll_wired_loop_invariant nb)).
  by apply load_scroll_wired.
Qed.

(** Running scroll listeners one after the other applies the threshold
    rule once per listener, to the navbar and to nothing else. *)
Lemma invoke_scroll_listeners (e : Event) (nb : node) (ls : list Listener)
    (w : World) :
  Forall (λ l, callback l = navbar_scroll) ls →
  navbar (script w) = Some nb →
  classList (elems (page (foldl (invoke e) w ls)) nb) =
    Nat.iter (length ls) (apply_threshold (pageYOffset (page w)))
             (classList (elems (page w) nb)).
Proof.
  revert w. induction ls as [|l ls IH]; intros w Hls Hnb; [done|].
  inversion Hls as [|? ? Hl Hls']; subst. cbn [foldl length].
  rewrite Nat.iter_succ_r.
  assert (invoke e w l =
            set_script (set_lastScroll (pageYOffset (page w)))
              (set_page (set_elems (alter
                 (set_classList (apply_threshold (pageYOffset (page w)))) nb)) w))
    as ->.
  { unfold invoke, run_task. rewrite Hl. cbn [call].
    by rewrite (on_scroll_spec w nb Hnb). }
  rewrite IH by done. cbn [page set_script set_page set_elems pageYOffset elems].
  by rewrite fn_lookup_alter.
Qed.

Lemma iter_idemp {A} (f : A → A) (n : nat) (x : A) :
  (∀ a, f (f a) = f a) → Nat.iter (S n) f x = f x.
Proof.
  intros Hf. induction n as [|n IH]; [done|].
  change (f (Nat.iter (S n) f x) = f x). by rewrite IH.
Qed.

(** A scroll to offset [y], in a wired world, leaves the navbar with the
    class list the threshold rule gives for [y]. *)
Lemma scrolled_class_list (nb : node) (y : float) (w : World) :
  scroll_wired nb w →
  classList (elems (page (step (Scrolled y) w)) nb) =
    apply_threshold y (classList (elems (page w) nb)).
Proof.
  intros [[Hnb Hq] Hin]. cbn [step]. unfold dispatchEvent.
  set (w0 := set_page (set_pageYOffset y) w).
  set (ls := listeners_for (plain_event scroll Document) w0).
  assert (Forall (λ l, callback l = navbar_scroll) ls) as Hls.
  { apply list.Forall_forall. intros l Hl. unfold ls, listeners_for in Hl.
    apply list_elem_of_bind in Hl as (tg & Hl & _).
    apply list_elem_of_filter in Hl as [[_ Hty] Hl]. by apply Hq. }
  assert (scroll_listener ∈ ls) as Hne.
  { unfold ls, listeners_for. apply list_elem_of_bind. exists Window. split.
    - apply list_elem_of_filter. by split.
    - cbn. set_solver. }
  rewrite (invoke_scroll_listeners _ nb ls) by done.
  destruct ls as [|l ls']; [by apply elem_of_nil in Hne|].
  cbn [length]. rewrite iter_idemp by apply apply_threshold_idemp. done.
Qed.

(** Order of doubles: [y <= x] excludes [x < y]. *)
Lemma SFcompare_antisym (x y : SpecFloat.spec_float) (c : comparison) :
  SpecFloat.SFcompare x y = Some c →
  SpecFloat.SFcompare y x = Some (CompOpp c).
Proof.
  destruct x as [sx|sx| |sx mx ex], y as [sy|sy| |sy my ey]; simpl;
    try discriminate; intros [= <-];
    try (by destruct sx); try (by destruct sy); try (by destruct sx, sy).
  destruct sx, sy; try done.
  - rewrite (Z.compare_antisym ex ey).
    destruct (ex ?= ey)%Z; simpl; try done.
    f_equal. rewrite CompOpp_involutive.
    by rewrite (Pos.compare_cont_antisym my mx Eq).
  - rewrite (Z.compare_antisym ex ey).
    destruct (ex ?= ey)%Z; simpl; try done.
    f_equal. by rewrite (Pos.compare_cont_antisym mx my Eq).
Qed.

Lemma float_leb_not_ltb (x y : float) :
  PrimFloat.leb y x = true → PrimFloat.ltb x y = false.
Proof.
  rewrite FloatAxioms.leb_spec, FloatAxioms.ltb_spec.
  unfold SpecFloat.SFleb, SpecFloat.SFltb.
  destruct (SpecFloat.SFcompare (Prim2SF y) (Prim2SF x)) as [c|] eqn:Hc;
    [|discriminate].
  rewrite (SFcompare_antisym _ _ _ Hc). by destruct c.
Qed.

(** C7.  On a page that was ready when the script ran and that has a
    navbar, after any scroll event, whatever happened before, the navbar
    carries [scrolled] exactly when the offset is above 50: at 50 or below
    the class is absent.  Scrolling again to the same offset leaves the
    navbar's class list as it is. *)
Theorem navbar_scrolled_iff_above_threshold (p : Page) (nb : node)
    (ss : list Stimulus) (y : float) :
  readyState p ≠ loading →
  getElementById "navbar" p = Some nb →
  let w := step (Scrolled y) (run ss (load p)) in
  ("scrolled" ∈ classList (elems (page w) nb) ↔
     PrimFloat.ltb 50%float y = true) ∧
  (PrimFloat.leb y 50%float = true →
     "scrolled" ∉ classList (elems (page w) nb)) ∧
  classList (elems (page (step (Scrolled y) w)) nb) =
    classList (elems (page w) nb).
Proof.
  intros Hr Hnb w.
  pose proof (run_scroll_wired p nb ss Hr Hnb) as Hw.
  assert (scroll_wired nb w) as Hw'.
  { apply (run_scroll_wired p nb (ss ++ [Scrolled y]) Hr) in Hnb.
    unfold run in Hnb. by rewrite foldl_app in Hnb. }
  assert ("scrolled" ∈ classList (elems (page w) nb) ↔
            PrimFloat.ltb 50%float y = true) as Hiff.
  { unfold w. rewrite (scrolled_class_list nb y _ Hw).
    apply apply_threshold_scrolled. }
  split_and!; [exact Hiff| |].
  - intros Hle Hin. apply Hiff in Hin.
    by rewrite (float_leb_not_ltb _ _ Hle) in Hin.
  - rewrite (scrolled_class_list nb y w Hw'). unfold w.
    rewrite (scrolled_class_list nb y _ Hw). apply apply_threshold_idemp.
Qed.

Lemma navbar_scrolled_iff_above_threshold_witness :
  ("scrolled" ∉ classList (elems (page
     (step (Scrolled 50%float) (run [Scrolled 300%float] (load Sample.doc))))
     Sample.navbar_id)) ∧
  ("scrolled" ∈ classList (elems (page
     (step (Scrolled 51%float) (run [Scrolled 50%float] (load Sample.doc))))
     Sample.navbar_id)).
Proof.
  split.
  - apply (navbar_scrolled_iff_above_threshold Sample.doc Sample.navbar_id
             [Scrolled 300%float] 50%float); [done|reflexivity|reflexivity].
  - apply (navbar_scrolled_iff_above_threshold Sample.doc Sample.navbar_id
             [Scrolled 50%float] 51%float); [done|reflexivity|reflexivity].
Defined.

(** C10.  The class state a scroll event leaves on the navbar depends on
    the offset it observes and on nothing else: the listener run in any two
    worlds that agree on the navbar binding and on the offset decides
    [scrolled] alike, whatever [lastScroll] holds; and on a loaded page two
    scroll events to the same offset give the same [scrolled] state after
    any two histories. *)
Theorem scroll_effect_depends_on_offset_only :
  (∀ (w1 w2 : World) (nb : node),
     navbar (script w1) = Some nb → navbar (script w2) = Some nb →
     pageYOffset (page w1) = pageYOffset (page w2) →
     ("scrolled" ∈ classList (elems (page (exec on_scroll w1)) nb) ↔
      "scrolled" ∈ classList (elems (page (exec on_scroll w2)) nb))) ∧
  (∀ (p : Page) (nb : node) (ss1 ss2 : list Stimulus) (y : float),
     readyState p ≠ loading →
     getElementById "navbar" p = Some nb →
     ("scrolled" ∈ classList (elems (page
         (step (Scrolled y) (run ss1 (load p)))) nb) ↔
      "scrolled" ∈ classList (elems (page
         (step (Scrolled y) (run ss2 (load p)))) nb))).
Proof.
  split.
  - intros w1 w2 nb H1 H2 Hy. unfold exec.
    rewrite (on_scroll_spec w1 nb H1), (on_scroll_spec w2 nb H2). simpl.
    rewrite !fn_lookup_alter. simpl. rewrite !apply_threshold_scrolled.
    by rewrite Hy.
  - intros p nb ss1 ss2 y Hr Hnb.
    rewrite (scrolled_class_list nb y _ (run_scroll_wired p nb ss1 Hr Hnb)).
    rewrite (scrolled_class_list nb y _ (run_scroll_wired p nb ss2 Hr Hnb)).
    by rewrite !apply_threshold_scrolled.
Qed.

Lemma scroll_effect_depends_on_offset_only_witness :
  ("scrolled" ∈ classList (elems (page
      (step (Scrolled 120%float) (run [] (load Sample.doc))))
      Sample.navbar_id) ↔
   "scrolled" ∈ classList (elems (page
      (step (Scrolled 120%float)
         (run [Scrolled 10%float; Scrolled 700%float; Scrolled 3%float]
              (load Sample.doc))))
      Sample.navbar_id)).
Proof.
  apply (proj2 scroll_effect_depends_on_offset_only Sample.doc
           Sample.navbar_id); [done|reflexivity].
Defined.

(** ** Smooth anchor scroll *)

(** Running a listener symbolically: unfold the script's functions and
    push the world through binds and returns. *)
Ltac world_simpl :=
  cbn [page script defaultPrevented scrollTo_calls focus_calls uncaught
       set_page set_script set_defaultPrevented log_scrollTo log_focus report
       elems document_order layout selector body_overflow activeElement
       pageYOffset innerHeight readyState hasIntersectionObserver
       set_elems set_body_overflow set_activeElement set_pageYOffset
       set_document_order set_layout set_readyState
       mobileMenuToggle navLinks navbar navLinksArray lastScroll listeners
       observers timers reinitAnimations
       set_bindings set_lastScroll set_listeners set_observers set_timers
       set_reinitAnimations fst snd].

Ltac js_run :=
  repeat first
    [ rewrite bind_unfold
    | rewrite ret_unfold
    | progress unfold get, modify, throw
    | progress cbv beta iota
    | progress world_simpl ].

Ltac js_eval := autounfold with js; js_run.

Lemma alter_lookup {A} (f : A → A) (g : node → A) (a b : node) :
  alter f a g b = if decide (a = b) then f (g b) else g b.
Proof.
  case_decide as Hab.
  - subst. apply fn_lookup_alter.
  - by apply fn_lookup_alter_ne.
Qed.

(** A query for a selector leaves the world as it is. *)
Lemma querySelector_reads (sel : string) (w : World) :
  (querySelector sel w).2 = w.
Proof.
  unfold querySelector. js_run. case_decide; [done|].
  by destruct (selected (page w) sel).
Qed.

(** What the anchor's listener does when its [href] selects [tgt]. *)
Lemma on_anchor_click_found (w : World) (a tgt : node) (href : string) :
  attributes (elems (page w) a) !! "href" = Some href →
  (querySelector href w).1 = Normal (Some tgt) →
  on_anchor_click (Elem a) w =
    (Normal tt,
     log_scrollTo
       {| scroll_top :=
            PrimFloat.sub
              (PrimFloat.add (rect_top (boundingClientRect (page w) tgt))
                             (pageYOffset (page w)))
              headerOffset;
          behavior := "smooth" |}
       (set_defaultPrevented true w)).
Proof.
  intros Hhref Hq. unfold on_anchor_click. cbn [this_element].
  unfold getAttribute, element. js_run. rewrite Hhref.
  assert (href ≠ "#" ∧ href ≠ "") as [Hh1 Hh2].
  { unfold querySelector in Hq. rewrite bind_unfold in Hq. cbn [get] in Hq.
    cbv beta iota in Hq. case_decide as Hd; [discriminate Hq|].
    split; intros ->; apply Hd; auto. }
  rewrite decide_False by (intros [[=]|[=]]; done).
  cbn [string_of_attr]. rewrite bind_unfold.
  pose proof (querySelector_reads href w) as Hw.
  destruct (querySelector href w) as [[[t|]|err] w'];
    simpl in Hq, Hw; try discriminate. injection Hq as ->. subst w'.
  unfold preventDefault, getBoundingClientRect, scrollTo. js_run. done.
Qed.

(** What it does when the [href] is a bare hash or empty, or selects
    nothing: it returns, or the query throws, and the world is as it
    was. *)
Lemma on_anchor_click_idle (w : World) (a : node) :
  (attributes (elems (page w) a) !! "href" = Some "#" ∨
   attributes (elems (page w) a) !! "href" = Some "" ∨
   ∀ tgt, (querySelector
             (string_of_attr (attributes (elems (page w) a) !! "href")) w).1
          ≠ Normal (Some tgt)) →
  on_anchor_click (Elem a) w = (Normal tt, w) ∨
  on_anchor_click (Elem a) w = (Abrupt SyntaxError, w).
Proof.
  intros Hhref. unfold on_anchor_click. js_eval.
  case_decide as Hd; [by left|].
  destruct Hhref as [Hh|[Hh|Hh]]; [by destruct Hd; left|by destruct Hd; right|].
  revert Hh. unfold querySelector. js_eval. intros Hh.
  case_decide; [by right|].
  destruct (selected (page w) _) as [t| |]; js_eval;
    [by destruct (Hh t)|by left|by right].
Qed.

(** C6.  When the anchor's [href] is a bare hash or empty, or selects no
    element of the document, the click listener leaves the world exactly
    as it found it: no [preventDefault], no [scrollTo], no change to the
    page; so [preventDefault] is called only when a target was found.  The
    listener then returns normally, unless the browser rejects the [href]
    as a selector and [querySelector] throws. *)
Theorem anchor_click_without_target (w : World) (a : node) (e : Event) :
  (attributes (elems (page w) a) !! "href" = Some "#" ∨
   attributes (elems (page w) a) !! "href" = Some "" ∨
   ∀ tgt, (querySelector
             (string_of_attr (attributes (elems (page w) a) !! "href")) w).1
          ≠ Normal (Some tgt)) →
  exec (call anchor_click (Elem a) e) w = w ∧
  defaultPrevented (exec (call anchor_click (Elem a) e) w) = defaultPrevented w ∧
  scrollTo_calls (exec (call anchor_click (Elem a) e) w) = scrollTo_calls w ∧
  ((call anchor_click (Elem a) e w).1 = Normal tt ∨
   (call anchor_click (Elem a) e w).1 = Abrupt SyntaxError).
Proof.
  intros Hhref.
  assert (exec (call anchor_click (Elem a) e) w = w ∧
          ((call anchor_click (Elem a) e w).1 = Normal tt ∨
           (call anchor_click (Elem a) e w).1 = Abrupt SyntaxError))
    as [-> ?]; [|done].
  unfold exec. cbn [call]. unfold on_anchor_click. js_eval.
  case_decide as Hd; [by split; [|left]|].
  destruct Hhref as [Hh|[Hh|Hh]]; [by destruct Hd; left|by destruct Hd; right|].
  revert Hh. unfold querySelector. js_eval. intros Hh.
  case_decide; [by split; [|right]|].
  destruct (selected (page w) _) as [t| |]; js_eval;
    [by destruct (Hh t)|by split; [|left]|by split; [|right]].
Qed.

Lemma anchor_click_without_target_witness :
  exec (call anchor_click (Elem Sample.cta_id) (Sample.click_on Sample.cta_id))
       (load Sample.doc) = load Sample.doc.
Proof.
  apply (anchor_click_without_target (load Sample.doc) Sample.cta_id
           (Sample.click_on Sample.cta_id)).
  left. vm_compute. reflexivity.
Defined.

(** ** The closing mutation *)

(** The world [close_menu] leaves when menu and toggle exist. *)
Definition closed_world (nav tog : node) (w : World) : World :=
  set_page (set_body_overflow "")
    (set_page (set_elems (alter
       (set_attributes (λ a, <["aria-expanded" := "false"]> a)) tog))
    (set_page (set_elems (alter
       (set_classList (λ cs, cs ∖ {["active"]})) tog))
    (set_page (set_elems (alter
       (set_classList (λ cs, cs ∖ {["active"]})) nav)) w))).

Lemma close_menu_spec (w : World) (nav tog : node) :
  navLinks (script w) = Some nav →
  mobileMenuToggle (script w) = Some tog →
  close_menu w = (Normal tt, closed_world nav tog w).
Proof.
  intros Hnav Htog. js_eval. rewrite Hnav. cbn [deref]. js_eval.
  rewrite Htog. cbn [deref]. js_eval. reflexivity.
Qed.

Lemma closed_world_elems (nav tog n : node) (w : World) :
  "active" ∈ classList (elems (page (closed_world nav tog w)) n) ↔
    "active" ∈ classList (elems (page w) n) ∧ n ≠ nav ∧ n ≠ tog.
Proof.
  unfold closed_world. world_simpl. rewrite !alter_lookup.
  repeat case_decide; simpl; set_solver.
Qed.

Lemma closed_world_aria (nav tog n : node) (w : World) :
  attributes (elems (page (closed_world nav tog w)) n) !! "aria-expanded" =
    if decide (n = tog) then Some "false"
    else attributes (elems (page w) n) !! "aria-expanded".
Proof.
  unfold closed_world. world_simpl. rewrite !alter_lookup.
  repeat case_decide; simpl; subst; try done; by rewrite lookup_insert_eq.
Qed.

Lemma closed_world_focusable (nav tog n : node) (w : World) :
  focusable (elems (page (closed_world nav tog w)) n) =
    focusable (elems (page w) n).
Proof.
  unfold closed_world. world_simpl. rewrite !alter_lookup.
  by repeat case_decide.
Qed.

Lemma focus_spec (n : node) (w : World) :
  focus n w =
    (Normal tt,
     if focusable (elems (page w) n)
     then set_page (set_activeElement (Some n)) (log_focus n w)
     else log_focus n w).
Proof. js_eval. by destruct (focusable _). Qed.

(** ** Escape and the focus trap *)

Lemma on_escape_keydown_open (w : World) (nav tog : node) (e : Event) :
  navLinks (script w) = Some nav →
  mobileMenuToggle (script w) = Some tog →
  key e = "Escape" →
  "active" ∈ classList (elems (page w) nav) →
  on_escape_keydown e w =
    (Normal tt,
     if focusable (elems (page w) tog)
     then set_page (set_activeElement (Some tog))
            (log_focus tog (closed_world nav tog w))
     else log_focus tog (closed_world nav tog w)).
Proof.
  intros Hnav Htog Hkey Hact. unfold on_escape_keydown.
  rewrite bind_unfold. unfold get at 1. cbv beta iota.
  rewrite Hkey, Hnav. rewrite bool_decide_eq_true_2 by done.
  unfold classList_contains, element. js_run.
  rewrite bool_decide_eq_true_2 by done. rewrite bind_unfold.
  rewrite (close_menu_spec w nav tog Hnav Htog). cbv beta iota.
  unfold ref. js_run. change (script (closed_world nav tog w)) with (script w).
  rewrite Htog. cbn [deref]. js_run.
  rewrite focus_spec. by rewrite closed_world_focusable.
Qed.

Lemma on_escape_keydown_closed (w : World) (e : Event) :
  (∀ nav, navLinks (script w) = Some nav →
          "active" ∉ classList (elems (page w) nav)) →
  on_escape_keydown e w = (Normal tt, w).
Proof.
  intros Hclosed. unfold on_escape_keydown.
  rewrite bind_unfold. unfold get at 1. cbv beta iota.
  destruct (bool_decide (key e = "Escape")); [|done].
  destruct (navLinks (script w)) as [nav|] eqn:Hnav; [|done].
  unfold classList_contains, element. js_run.
  by rewrite bool_decide_eq_false_2 by by apply Hclosed.
Qed.

(** The Escape listener on its own: with menu and toggle present, Escape
    while the menu is open returns normally and leaves both [active]
    classes off, [aria-expanded] at ["false"] and the body's overflow
    reset; it then calls [focus] on the toggle, which takes the focus if it
    can.  Escape while the menu is closed changes nothing at all. *)
Lemma escape_keydown_effect (w : World) (nav tog : node)
    (this : EventTarget) (e : Event) :
  navLinks (script w) = Some nav →
  mobileMenuToggle (script w) = Some tog →
  key e = "Escape" →
  ("active" ∈ classList (elems (page w) nav) →
     (call escape_keydown this e w).1 = Normal tt ∧
     ("active" ∉ classList (elems (page (exec (call escape_keydown this e) w)) nav)) ∧
     ("active" ∉ classList (elems (page (exec (call escape_keydown this e) w)) tog)) ∧
     attributes (elems (page (exec (call escape_keydown this e) w)) tog)
       !! "aria-expanded" = Some "false" ∧
     body_overflow (page (exec (call escape_keydown this e) w)) = "" ∧
     focus_calls (exec (call escape_keydown this e) w) = focus_calls w ++ [tog] ∧
     (focusable (elems (page w) tog) = true →
      activeElement (page (exec (call escape_keydown this e) w)) = Some tog)) ∧
  ("active" ∉ classList (elems (page w) nav) →
     (call escape_keydown this e w).1 = Normal tt ∧
     exec (call escape_keydown this e) w = w).
Proof.
  intros Hnav Htog Hkey. unfold exec. cbn [call]. split; intros Hact.
  - rewrite (on_escape_keydown_open w nav tog e) by done. cbn [fst snd].
    assert (∀ w', page w' = page (closed_world nav tog w) ∨
                  page w' = set_activeElement (Some tog)
                              (page (closed_world nav tog w)) →
              ("active" ∉ classList (elems (page w') nav)) ∧
              ("active" ∉ classList (elems (page w') tog)) ∧
              attributes (elems (page w') tog) !! "aria-expanded" = Some "false" ∧
              body_overflow (page w') = "") as Hpage.
    { intros w' Hw'.
      assert (elems (page w') = elems (page (closed_world nav tog w)) ∧
              body_overflow (page w') = "") as [-> ->]
        by (destruct Hw' as [->| ->]; done).
      rewrite !closed_world_elems, closed_world_aria.
      rewrite decide_True by done. naive_solver. }
    destruct (focusable (elems (page w) tog)).
    + split; [done|].
      destruct (Hpage (set_page (set_activeElement (Some tog))
                         (log_focus tog (closed_world nav tog w))))
        as (?&?&?&?); [by right|]. done.
    + split; [done|].
      destruct (Hpage (log_focus tog (closed_world nav tog w)))
        as (?&?&?&?); [by left|]. done.
  - rewrite on_escape_keydown_closed; [done|].
    intros nav' Hnav'. by simplify_eq.
Qed.

Lemma on_trap_keydown_closed (w : World) (nav : node)
    (focusableElements : list node) (e : Event) :
  navLinks (script w) = Some nav →
  "active" ∉ classList (elems (page w) nav) →
  on_trap_keydown focusableElements e w = (Normal tt, w).
Proof.
  intros Hnav Hact. unfold on_trap_keydown, ref. js_run. rewrite Hnav.
  cbn [deref]. unfold classList_contains, element. js_run.
  by rewrite bool_decide_eq_false_2 by done.
Qed.

Lemma on_trap_keydown_open (w : World) (nav : node)
    (focusableElements : list node) (e : Event) :
  navLinks (script w) = Some nav →
  "active" ∈ classList (elems (page w) nav) →
  key e = "Tab" →
  on_trap_keydown focusableElements e w =
    if shiftKey e then
      if strict_eq (activeElement (page w)) (head focusableElements)
      then (preventDefault ;; el ← deref (list.last focusableElements); focus el) w
      else (Normal tt, w)
    else
      if strict_eq (activeElement (page w)) (list.last focusableElements)
      then (preventDefault ;; el ← deref (head focusableElements); focus el) w
      else (Normal tt, w).
Proof.
  intros Hnav Hact Hkey. unfold on_trap_keydown, ref. js_run. rewrite Hnav.
  cbn [deref]. unfold classList_contains, element. js_run.
  rewrite bool_decide_eq_true_2 by done. cbn [negb]. rewrite Hkey.
  rewrite bool_decide_eq_true_2 by done. js_run.
  destruct (shiftKey e); by destruct (strict_eq _ _).
Qed.

Lemma strict_eq_refl (n : node) : strict_eq (Some n) (Some n) = true.
Proof. unfold strict_eq. by rewrite bool_decide_eq_true_2. Qed.

(** What the wrap-around does: [preventDefault], then [focus] on the
    element at the other end. *)
Lemma wrap_focus_spec (w : World) (n : node) :
  (preventDefault ;; el ← deref (Some n); focus el) w =
    (Normal tt,
     if focusable (elems (page w) n)
     then set_page (set_activeElement (Some n))
            (log_focus n (set_defaultPrevented true w))
     else log_focus n (set_defaultPrevented true w)).
Proof.
  unfold preventDefault. js_run. cbn [deref]. js_run. by rewrite focus_spec.
Qed.

(** The focus trap on its own, closed over the list [focusableElements],
    with [first] and [lst] its first and last element. *)
Lemma trap_keydown_effect (w : World) (nav first lst : node)
    (focusableElements : list node) (this : EventTarget) (e : Event) :
  navLinks (script w) = Some nav →
  head focusableElements = Some first →
  list.last focusableElements = Some lst →
  ("active" ∈ classList (elems (page w) nav) → key e = "Tab" →
   shiftKey e = false → activeElement (page w) = Some lst →
     (call (trap_keydown focusableElements) this e w).1 = Normal tt ∧
     defaultPrevented (exec (call (trap_keydown focusableElements) this e) w) = true ∧
     focus_calls (exec (call (trap_keydown focusableElements) this e) w) =
       focus_calls w ++ [first] ∧
     (focusable (elems (page w) first) = true →
      activeElement (page (exec (call (trap_keydown focusableElements) this e) w)) =
        Some first)) ∧
  ("active" ∈ classList (elems (page w) nav) → key e = "Tab" →
   shiftKey e = true → activeElement (page w) = Some first →
     (call (trap_keydown focusableElements) this e w).1 = Normal tt ∧
     defaultPrevented (exec (call (trap_keydown focusableElements) this e) w) = true ∧
     focus_calls (exec (call (trap_keydown focusableElements) this e) w) =
       focus_calls w ++ [lst] ∧
     (focusable (elems (page w) lst) = true →
      activeElement (page (exec (call (trap_keydown focusableElements) this e) w)) =
        Some lst)) ∧
  ("active" ∉ classList (elems (page w) nav) →
     (call (trap_keydown focusableElements) this e w).1 = Normal tt ∧
     exec (call (trap_keydown focusableElements) this e) w = w).
Proof.
  intros Hnav Hfirst Hlast. unfold exec. cbn [call]. split_and!.
  - intros Hact Hkey Hshift Hfocus.
    rewrite (on_trap_keydown_open w nav) by done.
    rewrite Hshift, Hfocus, Hlast, Hfirst, strict_eq_refl, wrap_focus_spec.
    by destruct (focusable (elems (page w) first)).
  - intros Hact Hkey Hshift Hfocus.
    rewrite (on_trap_keydown_open w nav) by done.
    rewrite Hshift, Hfocus, Hlast, Hfirst, strict_eq_refl, wrap_focus_spec.
    by destruct (focusable (elems (page w) lst)).
  - intros Hact. by rewrite (on_trap_keydown_closed w nav).
Qed.

(** ** A missing toggle *)

(** C2, at the failing input.  With the menu present and carrying
    [active] but no toggle on the page, the Escape listener removes the
    menu's [active] class and then ends with a [TypeError]: line 177 tests
    [navLinks] only, and line 179 dereferences [mobileMenuToggle]. *)
Theorem escape_without_toggle_throws (w : World) (nav : node)
    (this : EventTarget) (e : Event) :
  navLinks (script w) = Some nav →
  mobileMenuToggle (script w) = None →
  key e = "Escape" →
  "active" ∈ classList (elems (page w) nav) →
  (call escape_keydown this e w).1 = Abrupt TypeError ∧
  "active" ∉ classList (elems (page (exec (call escape_keydown this e) w)) nav).
Proof.
  intros Hnav Htog Hkey Hact. unfold exec. cbn [call].
  unfold on_escape_keydown. js_run. rewrite Hkey, Hnav.
  rewrite bool_decide_eq_true_2 by done.
  unfold classList_contains, element. js_run.
  rewrite bool_decide_eq_true_2 by done.
  unfold close_menu, ref. js_run. rewrite Hnav. cbn [deref]. js_eval.
  rewrite Htog. cbn [deref]. js_run. split; [done|].
  rewrite alter_lookup, decide_True by done. simpl. set_solver.
Qed.

Lemma escape_without_toggle_throws_witness :
  uncaught (step (Dispatch (Sample.keypress "Escape" false 2))
                 (load Sample.toggleless_doc)) = [TypeError] ∧
  (call escape_keydown Document (Sample.keypress "Escape" false 2)
        (load Sample.toggleless_doc)).1 = Abrupt TypeError ∧
  "active" ∈ classList (elems (page (load Sample.toggleless_doc)) 1) ∧
  ("active" ∉ classList (elems (page
      (exec (call escape_keydown Document (Sample.keypress "Escape" false 2))
            (load Sample.toggleless_doc))) 1)).
Proof.
  split; [vm_compute; reflexivity|].
  destruct (escape_without_toggle_throws (load Sample.toggleless_doc) 1
              Document (Sample.keypress "Escape" false 2))
    as [Hthrow Hgone];
    [vm_compute; reflexivity|vm_compute; reflexivity|reflexivity|compute_done|].
  split; [exact Hthrow|]. split; [compute_done|exact Hgone].
Defined.

(** ** The menu state machine *)

(** The four indicators of the menu's state; an indicator whose element is
    not bound says nothing. *)
Definition menu_closed (w : World) : Prop :=
  (∀ nav, navLinks (script w) = Some nav →
     "active" ∉ classList (elems (page w) nav)) ∧
  (∀ tog, mobileMenuToggle (script w) = Some tog →
     ("active" ∉ classList (elems (page w) tog)) ∧
     attributes (elems (page w) tog) !! "aria-expanded" = Some "false") ∧
  body_overflow (page w) = "".

Definition menu_open (w : World) : Prop :=
  (∀ nav, navLinks (script w) = Some nav →
     "active" ∈ classList (elems (page w) nav)) ∧
  (∀ tog, mobileMenuToggle (script w) = Some tog →
     "active" ∈ classList (elems (page w) tog) ∧
     attributes (elems (page w) tog) !! "aria-expanded" = Some "true") ∧
  body_overflow (page w) = "hidden".

Definition menu_consistent (w : World) : Prop := menu_closed w ∨ menu_open w.

(** What a computation that is not one of the menu's own leaves alone: the
    two bindings, every element's [active] class and [aria-expanded]
    attribute, and the body's overflow.  It may register listeners, the
    toggle's click listener only when the toggle [t] exists. *)
Definition menu_frame (t : option node) : relation World := λ w w',
  mobileMenuToggle (script w') = mobileMenuToggle (script w) ∧
  navLinks (script w') = navLinks (script w) ∧
  (∀ m, "active" ∈ classList (elems (page w') m) ↔
        "active" ∈ classList (elems (page w) m)) ∧
  (∀ m, attributes (elems (page w') m) !! "aria-expanded" =
        attributes (elems (page w) m) !! "aria-expanded") ∧
  body_overflow (page w') = body_overflow (page w) ∧
  (∀ l, l ∈ listeners (script w') → callback l = toggle_click →
        l ∈ listeners (script w) ∨ is_Some t).

Global Instance menu_frame_preorder t : PreOrder (menu_frame t).
Proof.
  split.
  - intros w. unfold menu_frame. split_and!; try done. by left.
  - intros w1 w2 w3 (Ha1 & Ha2 & Ha3 & Ha4 & Ha5 & Ha6)
      (Hb1 & Hb2 & Hb3 & Hb4 & Hb5 & Hb6).
    unfold menu_frame. split_and!.
    + by rewrite Hb1.
    + by rewrite Hb2.
    + intros m. by rewrite Hb3.
    + intros m. by rewrite Hb4.
    + by rewrite Hb5.
    + intros l Hl Hcb. destruct (Hb6 l Hl Hcb) as [Hl2|?]; [|by right].
      by apply Ha6.
Qed.

Ltac menu_frame_leaf :=
  let w := fresh "w" in
  intros w; unfold menu_frame; world_simpl;
  split_and!;
  [ reflexivity
  | reflexivity
  | first [ done
          | let m := fresh "m" in
            intros m; rewrite alter_lookup; case_decide; simpl; set_solver ]
  | first [ done
          | let m := fresh "m" in
            intros m; rewrite alter_lookup; by case_decide ]
  | reflexivity
  | first [ by left
          | let l := fresh "l" in let Hcb := fresh "Hcb" in
            intros l [?| ->%list_elem_of_singleton]%elem_of_app Hcb;
            [ by left | first [ discriminate Hcb | by right ] ] ] ].

Lemma other_callbacks_keep_menu (t : option node) (cb : Callback)
    (this : EventTarget) (e : Event) :
  match cb with
  | toggle_click | navlink_click | document_click | escape_keydown
  | init_callback => True
  | _ => keeps (menu_frame t) (call cb this e)
  end.
Proof. destruct cb; try done; simpl; keeps_auto; menu_frame_leaf. Qed.

Lemma on_intersection_keeps_menu t o es :
  keeps (menu_frame t) (on_intersection o es).
Proof. keeps_auto; menu_frame_leaf. Qed.

Lemma checkInitialView_keeps_menu t : keeps (menu_frame t) checkInitialView.
Proof. keeps_auto; menu_frame_leaf. Qed.

Lemma initScrollAnimations_keeps_menu t :
  keeps (menu_frame t) initScrollAnimations.
Proof. keeps_auto; menu_frame_leaf. Qed.

(** The world the toggle's click leaves when the menu was closed. *)
Definition opened_world (nav tog : node) (w : World) : World :=
  set_page (set_body_overflow "hidden")
    (set_page (set_elems (alter
       (set_attributes (λ a, <["aria-expanded" := "true"]> a)) tog))
    (set_page (set_elems (alter
       (set_classList (λ cs, cs ∪ {["active"]})) tog))
    (set_page (set_elems (alter
       (set_classList (λ cs, cs ∪ {["active"]})) nav)) w))).

Lemma on_toggle_click_closed (w : World) (nav tog : node) :
  navLinks (script w) = Some nav →
  mobileMenuToggle (script w) = Some tog →
  nav ≠ tog →
  "active" ∉ classList (elems (page w) nav) →
  "active" ∉ classList (elems (page w) tog) →
  on_toggle_click w = (Normal tt, opened_world nav tog w).
Proof.
  intros Hnav Htog Hne Han Hat. unfold on_toggle_click, ref. js_run.
  rewrite Hnav. cbn [deref]. unfold classList_contains, element. js_run.
  rewrite bool_decide_eq_false_2 by done.
  unfold classList_toggle, classList_contains, element. js_run.
  rewrite bool_decide_eq_false_2 by done.
  unfold classList_add, update_element. js_run. rewrite Htog. cbn [deref].
  js_run. rewrite alter_lookup, decide_False by done.
  rewrite bool_decide_eq_false_2 by done. js_run.
  unfold setAttribute, body_style_overflow, update_element. js_run.
  reflexivity.
Qed.

Lemma on_toggle_click_open (w : World) (nav tog : node) :
  navLinks (script w) = Some nav →
  mobileMenuToggle (script w) = Some tog →
  nav ≠ tog →
  "active" ∈ classList (elems (page w) nav) →
  "active" ∈ classList (elems (page w) tog) →
  on_toggle_click w = (Normal tt, closed_world nav tog w).
Proof.
  intros Hnav Htog Hne Han Hat. unfold on_toggle_click, ref. js_run.
  rewrite Hnav. cbn [deref]. unfold classList_contains, element. js_run.
  rewrite bool_decide_eq_true_2 by done.
  unfold classList_toggle, classList_contains, element. js_run.
  rewrite bool_decide_eq_true_2 by done.
  unfold classList_remove, update_element. js_run. rewrite Htog. cbn [deref].
  js_run. rewrite alter_lookup, decide_False by done.
  rewrite bool_decide_eq_true_2 by done. js_run.
  unfold setAttribute, body_style_overflow, update_element. js_run.
  reflexivity.
Qed.

Lemma opened_world_elems (nav tog m : node) (w : World) :
  "active" ∈ classList (elems (page (opened_world nav tog w)) m) ↔
    "active" ∈ classList (elems (page w) m) ∨ m = nav ∨ m = tog.
Proof.
  unfold opened_world. world_simpl. rewrite !alter_lookup.
  repeat case_decide; simpl; set_solver.
Qed.

Lemma opened_world_aria (nav tog : node) (w : World) :
  attributes (elems (page (opened_world nav tog w)) tog) !! "aria-expanded" =
    Some "true".
Proof.
  unfold opened_world. world_simpl. rewrite !alter_lookup.
  repeat case_decide; simpl; subst; try done; by rewrite lookup_insert_eq.
Qed.

(** The invariant behind the agreement of the indicators: the bindings
    are [t] and [n]; the toggle's click listener is registered only if the
    toggle exists; and the menu is closed, or it is open and both elements
    exist. *)
Definition menu_inv (t n : option node) (w : World) : Prop :=
  mobileMenuToggle (script w) = t ∧
  navLinks (script w) = n ∧
  (∀ l, l ∈ listeners (script w) → callback l = toggle_click → is_Some t) ∧
  (menu_closed w ∨ (is_Some t ∧ is_Some n ∧ menu_open w)).

Definition distinct (t n : option node) : Prop :=
  ∀ tog nav, t = Some tog → n = Some nav → nav ≠ tog.

Lemma menu_inv_frame (t n : option node) (w w' : World) :
  menu_frame t w w' → menu_inv t n w → menu_inv t n w'.
Proof.
  intros (Hf1 & Hf2 & Hf3 & Hf4 & Hf5 & Hf6) (Ht & Hn & Hreg & Hst).
  unfold menu_inv, menu_closed, menu_open in *.
  rewrite Hf1, Hf2, Hf5. split_and!; [done|done| |].
  - intros l Hl Hcb. destruct (Hf6 l Hl Hcb); [by apply (Hreg l)|done].
  - setoid_rewrite Hf3. setoid_rewrite Hf4. exact Hst.
Qed.

Lemma keeps_menu_inv (t n : option node) {A} (m : Js A) :
  keeps (menu_frame t) m → keeps (inv_rel (menu_inv t n)) m.
Proof. intros Hm w Hw. exact (menu_inv_frame t n w _ (Hm w) Hw). Qed.

Lemma menu_inv_closed_world (w : World) (nav tog : node) :
  menu_inv (Some tog) (Some nav) w →
  menu_inv (Some tog) (Some nav) (closed_world nav tog w).
Proof.
  intros (Ht & Hn & Hreg & _). unfold menu_inv, menu_closed.
  change (script (closed_world nav tog w)) with (script w).
  rewrite Ht, Hn. split_and!; [done|done|done|]. left. split_and!.
  - intros ? [= <-]. rewrite closed_world_elems. naive_solver.
  - intros ? [= <-]. rewrite closed_world_elems, closed_world_aria.
    rewrite decide_True by done. naive_solver.
  - done.
Qed.

Lemma menu_inv_opened_world (w : World) (nav tog : node) :
  menu_inv (Some tog) (Some nav) w →
  menu_inv (Some tog) (Some nav) (opened_world nav tog w).
Proof.
  intros (Ht & Hn & Hreg & _). unfold menu_inv, menu_open.
  change (script (opened_world nav tog w)) with (script w).
  rewrite Ht, Hn. split_and!; [done|done|done|]. right.
  split_and!; [done|done| | |done].
  - intros ? [= <-]. rewrite opened_world_elems. naive_solver.
  - intros ? [= <-]. rewrite opened_world_elems, opened_world_aria.
    naive_solver.
Qed.

Lemma menu_inv_report (t n : option node) (e : JsError) (w : World) :
  menu_inv t n w → menu_inv t n (report e w).
Proof. apply menu_inv_frame. revert w. menu_frame_leaf. Qed.

Lemma toggle_click_menu_inv (t n : option node) (w : World) :
  distinct t n → is_Some t →
  menu_inv t n w → menu_inv t n (run_task on_toggle_click w).
Proof.
  intros Hd [tog ->] Hw. pose proof Hw as (Ht & Hn & Hreg & Hst).
  destruct n as [nav|].
  - pose proof (Hd tog nav eq_refl eq_refl) as Hne.
    destruct Hst as [(Hc1 & Hc2 & Hc3)|(_ & _ & Ho1 & Ho2 & Ho3)].
    + destruct (Hc2 tog Ht) as [Hat _]. unfold run_task.
      rewrite (on_toggle_click_closed w nav tog) by auto.
      by apply menu_inv_opened_world.
    + destruct (Ho2 tog Ht) as [Hat _]. unfold run_task.
      rewrite (on_toggle_click_open w nav tog) by auto.
      by apply menu_inv_closed_world.
  - unfold run_task, on_toggle_click, ref. js_run. rewrite Hn. cbn [deref].
    js_run. by apply menu_inv_report.
Qed.

(** [close_menu], run to the end or cut short by a missing element. *)
Lemma close_menu_menu_inv (t n : option node) (w : World) :
  menu_inv t n w →
  menu_inv t n (exec close_menu w) ∧
  ((close_menu w).1 = Normal tt →
   menu_closed (exec close_menu w) ∧ is_Some t ∧ is_Some n).
Proof.
  intros Hw. pose proof Hw as (Ht & Hn & Hreg & Hst). unfold exec.
  destruct n as [nav|]; [destruct t as [tog|]|].
  - rewrite (close_menu_spec w nav tog) by done. cbn [fst snd].
    pose proof (menu_inv_closed_world w nav tog Hw) as Hc.
    split; [done|]. intros _. split; [|eauto].
    destruct Hc as (_ & _ & _ & [?|(_ & _ & _ & _ & Ho)]); [done|].
    discriminate Ho.
  - unfold close_menu, ref. js_run. rewrite Hn. cbn [deref].
    unfold classList_remove, update_element. js_run. rewrite Ht.
    cbn [deref]. js_run. split; [|done].
    destruct Hst as [(Hc1 & Hc2 & Hc3)|([? [=]] & _)].
    unfold menu_inv, menu_closed. world_simpl. rewrite Ht, Hn.
    split_and!; [done|done|done|]. left. split_and!; [|done|done].
    intros ? [= <-]. rewrite alter_lookup, decide_True by done. simpl.
    set_solver.
  - unfold close_menu, ref. js_run. rewrite Hn. cbn [deref]. js_run.
    split; [done|done].
Qed.

Lemma navlink_click_menu_inv (t n : option node) (w : World) :
  menu_inv t n w → menu_inv t n (run_task on_navlink_click w).
Proof.
  intros Hw. destruct (close_menu_menu_inv t n w Hw) as [Hc _].
  unfold run_task, on_navlink_click, exec in *.
  destruct (close_menu w) as [[[]|err] w']; [done|by apply menu_inv_report].
Qed.

(** Until it reaches [close_menu], the document's click listener only
    reads. *)
Lemma on_document_click_cases (e : Event) (w : World) :
  (∃ c, on_document_click e w = (c, w)) ∨
  on_document_click e w = close_menu w.
Proof.
  unfold on_document_click, ref. js_run.
  destruct (navLinks (script w)) as [nav|]; cbn [deref]; js_run;
    [|left; eauto].
  unfold contains, element.
  destruct (target e) as [tg| |]; js_run; [| |left; eauto].
  - destruct (mobileMenuToggle (script w)) as [tog|]; cbn [deref]; js_run;
      [|left; eauto].
    unfold classList_contains, element.
    destruct (negb _ && negb _); js_run; [|left; eauto].
    destruct (bool_decide _); [by right|left; eauto].
  - destruct (mobileMenuToggle (script w)) as [tog|]; cbn [deref]; js_run;
      [|left; eauto].
    cbn [negb andb]. unfold classList_contains, element. js_run.
    destruct (bool_decide _); [by right|left; eauto].
Qed.

Lemma document_click_menu_inv (t n : option node) (e : Event) (w : World) :
  menu_inv t n w → menu_inv t n (run_task (on_document_click e) w).
Proof.
  intros Hw. unfold run_task.
  destruct (on_document_click_cases e w) as [[c ->]| ->].
  - destruct c; [done|by apply menu_inv_report].
  - destruct (close_menu_menu_inv t n w Hw) as [Hc _]. unfold exec in Hc.
    destruct (close_menu w) as [[[]|err] w']; [done|by apply menu_inv_report].
Qed.

Lemma escape_keydown_menu_inv (t n : option node) (e : Event) (w : World) :
  menu_inv t n w → menu_inv t n (run_task (on_escape_keydown e) w).
Proof.
  intros Hw. pose proof Hw as (Ht & Hn & Hreg & Hst). unfold run_task.
  destruct Hst as [Hc|([tog ->] & [nav ->] & Ho)].
  - rewrite on_escape_keydown_closed; [done|]. apply Hc.
  - destruct (decide (key e = "Escape")) as [Hkey|Hkey].
    + destruct Ho as (Ho1 & _).
      rewrite (on_escape_keydown_open w nav tog) by auto.
      pose proof (menu_inv_closed_world w nav tog Hw) as Hcw.
      assert (menu_inv (Some tog) (Some nav) (log_focus tog (closed_world nav tog w)))
        as Hlog.
      { revert Hcw. apply menu_inv_frame. generalize (closed_world nav tog w).
        menu_frame_leaf. }
      destruct (focusable _); [|done].
      revert Hlog. apply menu_inv_frame.
      generalize (log_focus tog (closed_world nav tog w)). menu_frame_leaf.
    + unfold on_escape_keydown. js_run.
      by rewrite bool_decide_eq_false_2 by done.
Qed.

Lemma initMobileMenu_menu_inv (t n : option node) :
  keeps (inv_rel (menu_inv t n)) initMobileMenu.
Proof.
  unfold initMobileMenu. apply keeps_get_bind. intros w Hw.
  pose proof Hw as (Ht & Hn & _). rewrite Ht, Hn.
  destruct t as [tog|]; [destruct n as [nav|]|]; [|done|done].
  assert (keeps (inv_rel (menu_inv (Some tog) (Some nav)))
    (addEventListener (Elem tog) click toggle_click;;
     forEach (navLinksArray (script w))
       (λ link, addEventListener (Elem link) click navlink_click);;
     addEventListener Document click document_click)) as Hk
    by (apply keeps_menu_inv; keeps_auto; menu_frame_leaf).
  exact (Hk w Hw).
Qed.

Lemma init_menu_inv (t n : option node) : keeps (inv_rel (menu_inv t n)) init.
Proof.
  unfold init. apply keeps_bind; [apply _|apply keeps_get; apply _|].
  intros w0. case_decide.
  - apply keeps_menu_inv. keeps_auto; menu_frame_leaf.
  - unfold init_features. apply keeps_bind; [apply _| |intros _].
    + apply initMobileMenu_menu_inv.
    + apply keeps_menu_inv. keeps_auto; menu_frame_leaf.
Qed.

Lemma menu_loop_invariant (t n : option node) :
  distinct t n →
  loop_invariant (menu_inv t n) (λ l, callback l = toggle_click → is_Some t).
Proof.
  intros Hd.
  assert (∀ (m : Js unit) w, keeps (menu_frame t) m →
            menu_inv t n w → menu_inv t n (run_task m w)) as Htask.
  { intros m w Hm Hw.
    apply (keeps_inv_run_task _ m w (keeps_menu_inv t n m Hm)); [|done].
    intros e w'. apply menu_inv_report. }
  assert (∀ (f : World → World) w, (∀ w, menu_frame t w (f w)) →
            menu_inv t n w → menu_inv t n (f w)) as Hupd.
  { intros f w Hf. apply menu_inv_frame, Hf. }
  split.
  - intros w l (_ & _ & Hreg & _) Hl. by apply Hreg.
  - intros w l e Hw Hl. unfold invoke.
    pose proof (other_callbacks_keep_menu t (callback l) (on_target l) e) as Ho.
    destruct (callback l); cbn [call]; try (apply Htask; [exact Ho|done]).
    + apply toggle_click_menu_inv; auto.
    + by apply navlink_click_menu_inv.
    + by apply document_click_menu_inv.
    + by apply escape_keydown_menu_inv.
    + apply (keeps_inv_run_task _ init w (init_menu_inv t n)); [|done].
      intros err w'. apply menu_inv_report.
  - intros w b. apply Hupd. menu_frame_leaf.
  - intros w y. apply Hupd. menu_frame_leaf.
  - intros w late _. apply Hupd. menu_frame_leaf.
  - intros w _. apply Hupd. menu_frame_leaf.
  - intros w l h. apply Hupd. menu_frame_leaf.
  - intros w m. apply Hupd. menu_frame_leaf.
  - intros w. apply Hupd. menu_frame_leaf.
  - intros w o es. apply Htask, on_intersection_keeps_menu.
  - intros w. apply Htask, checkInitialView_keeps_menu.
  - intros w. apply Htask, initScrollAnimations_keeps_menu.
Qed.

(** Two different ids name two different elements. *)
Lemma getElementById_distinct (p : Page) (a b : string) (x y : node) :
  a ≠ b → getElementById a p = Some x → getElementById b p = Some y → x ≠ y.
Proof.
  intros Hab Hx Hy ->. unfold getElementById in *.
  apply head_Some_elem_of, list_elem_of_filter in Hx as [Hx _].
  apply head_Some_elem_of, list_elem_of_filter in Hy as [Hy _].
  congruence.
Qed.

(** Loading leaves the indicators as they are in the markup, and
    establishes the invariant if the markup has the menu closed. *)
Lemma load_menu_frame (p : Page) :
  menu_frame (Some 0) (bound p (fresh p)) (load p).
Proof.
  rewrite load_unfold.
  assert (keeps (menu_frame (Some 0))
            (init ;; modify (set_script (set_reinitAnimations true)))) as Hk
    by (keeps_auto; menu_frame_leaf).
  specialize (Hk (bound p (fresh p))). revert Hk.
  rewrite bind_unfold. destruct (init_returns (bound p (fresh p))) as [[] Hr].
  unfold exec. destruct (init (bound p (fresh p))) as [[[]|err] w']; [done|].
  discriminate Hr.
Qed.

Lemma load_menu_inv (p : Page) :
  menu_closed (load p) →
  menu_inv (getElementById "mobileMenuToggle" p) (getElementById "navLinks" p)
           (load p).
Proof.
  intros Hclosed.
  destruct (load_menu_frame p) as (Hf1 & Hf2 & Hf3 & Hf4 & Hf5 & _).
  assert (menu_inv (getElementById "mobileMenuToggle" p)
            (getElementById "navLinks" p) (bound p (fresh p))) as Hw.
  { split_and!; [done|done| |left].
    - intros l Hl. by apply elem_of_nil in Hl.
    - unfold menu_closed in *. rewrite Hf1, Hf2, Hf5 in Hclosed.
      setoid_rewrite Hf3 in Hclosed. setoid_rewrite Hf4 in Hclosed.
      exact Hclosed. }
  rewrite load_unfold.
  assert (menu_inv (getElementById "mobileMenuToggle" p)
            (getElementById "navLinks" p) (exec init (bound p (fresh p)))) as Hi
    by (by apply init_menu_inv).
  revert Hi. apply menu_inv_frame. generalize (exec init (bound p (fresh p))).
  menu_frame_leaf.
Qed.

(** C1.  Starting from a page whose menu indicators all say closed, after
    any sequence of stimuli (clicks anywhere, key presses, scrolling,
    intersection reports, timers, and whatever else the event loop
    delivers) the indicators agree: the menu's [active] class, which is the
    open flag, the toggle's [active] class, the toggle's [aria-expanded]
    and the body's overflow either all say closed or all say open.  Every
    prefix of a sequence is a sequence, so this holds after each
    transition. *)
Theorem menu_indicators_agree (p : Page) (ss : list Stimulus) :
  menu_closed (load p) → menu_consistent (run ss (load p)).
Proof.
  intros Hclosed.
  assert (distinct (getElementById "mobileMenuToggle" p)
                   (getElementById "navLinks" p)) as Hd.
  { intros tog nav Ht Hn.
    by apply (getElementById_distinct p "navLinks" "mobileMenuToggle"). }
  pose proof (run_inv _ _ (menu_loop_invariant _ _ Hd) ss (load p)
                (load_menu_inv p Hclosed)) as (_ & _ & _ & Hst).
  destruct Hst as [?|(_ & _ & ?)]; [by left|by right].
Qed.

Lemma menu_indicators_agree_witness :
  menu_closed (load Sample.doc) ∧
  menu_consistent
    (run [Dispatch (Sample.click_on Sample.toggle_id);
          Scrolled 120%float;
          Dispatch (Sample.click_on Sample.features_id);
          Dispatch (Sample.click_on Sample.toggle_id);
          Dispatch (Sample.keypress "Escape" false Sample.link1_id)]
         (load Sample.doc)).
Proof.
  assert (menu_closed (load Sample.doc)) as Hc.
  { split_and!.
    - intros nav [= <-]. compute_done.
    - intros tog [= <-]. split; [compute_done|vm_compute; reflexivity].
    - reflexivity. }
  split; [exact Hc|]. by apply menu_indicators_agree.
Defined.

(** ** Escape, through the event loop *)

Definition escape_listener : Listener :=
  {| on_target := Document; on_type := keydown; callback := escape_keydown |}.

Definition key_callback (cb : Callback) : Prop :=
  cb = escape_keydown ∨ ∃ focusableElements, cb = trap_keydown focusableElements.

(** The keydown wiring: menu and toggle are bound, the only keydown
    listeners are the Escape listener and focus traps, and the document
    carries the Escape listener. *)
Definition only_key_callbacks (nav tog : node) (w : World) : Prop :=
  navLinks (script w) = Some nav ∧
  mobileMenuToggle (script w) = Some tog ∧
  ∀ l, l ∈ listeners (script w) → on_type l = keydown → key_callback (callback l).

Definition keydown_wired (nav tog : node) (w : World) : Prop :=
  only_key_callbacks nav tog w ∧ escape_listener ∈ listeners (script w).

Ltac keydown_leaf :=
  let w := fresh "w" in let H1 := fresh "H" in let H2 := fresh "H" in
  let H3 := fresh "H" in let H4 := fresh "H" in
  first
    [ intros w [(H1 & H2 & H3) H4]; split; [split_and!|]
    | intros w (H1 & H2 & H3); split_and! ];
  simpl;
  [ exact H1
  | exact H2
  | first [ exact H3
          | let l := fresh "l" in let Hty := fresh "Hty" in
            intros l [?| ->%list_elem_of_singleton]%elem_of_app Hty;
            [ by apply H3
            | first [ discriminate Hty | by left | by right; eexists ] ] ]
  | try first [ exact H4 | apply elem_of_app; left; exact H4 ] .. ].

Lemma call_keeps_keydown_wired nav tog cb this e :
  keeps (inv_rel (keydown_wired nav tog)) (call cb this e).
Proof. destruct cb; simpl; keeps_auto; keydown_leaf. Qed.

Lemma keydown_wired_loop_invariant (nav tog : node) :
  loop_invariant (keydown_wired nav tog) (λ _, True).
Proof.
  assert (∀ (m : Js unit) w, keeps (inv_rel (keydown_wired nav tog)) m →
            keydown_wired nav tog w → keydown_wired nav tog (run_task m w))
    as Htask.
  { intros m w Hm Hw. by apply (keeps_inv_run_task _ m w Hm). }
  split; try done.
  - intros w l e Hw _. apply Htask; [apply call_keeps_keydown_wired|done].
  - intros w o es Hw. apply Htask; [keeps_auto; keydown_leaf|done].
  - intros w Hw. apply Htask; [keeps_auto; keydown_leaf|done].
  - intros w Hw. apply Htask; [keeps_auto; keydown_leaf|done].
Qed.

Lemma exec_keeps_inv (I : World → Prop) {A} (m : Js A) (w : World) :
  keeps (inv_rel I) m → I w → I (exec m w).
Proof. intros Hm. apply Hm. Qed.

Lemma load_keydown_wired (p : Page) (nav tog : node) :
  readyState p ≠ loading →
  getElementById "navLinks" p = Some nav →
  getElementById "mobileMenuToggle" p = Some tog →
  keydown_wired nav tog (load p).
Proof.
  intros Hr Hnav Htog. rewrite load_unfold.
  assert (∀ w, keydown_wired nav tog w →
            keydown_wired nav tog (set_script (set_reinitAnimations true) w))
    as Hfin by keydown_leaf.
  apply Hfin. clear Hfin.
  rewrite init_ready by done. unfold init_features.
  rewrite 5!exec_seq by returns_auto.
  set (w5 := exec initButtonEffects _).
  assert (only_key_callbacks nav tog w5) as (Hn5 & Ht5 & Hk5).
  { unfold w5. repeat (apply exec_keeps_inv; [keeps_auto; keydown_leaf|]).
    split_and!; [done|done|]. intros l Hl. by apply elem_of_nil in Hl. }
  rewrite exec_seq by returns_auto.
  apply exec_keeps_inv; [keeps_auto; keydown_leaf|].
  unfold exec, initKeyboardNavigation, addEventListener. js_run.
  rewrite Hn5, Ht5. js_run. split; [split_and!; [exact Hn5|exact Ht5|]|];
    cbn [listeners script set_script set_listeners].
  - intros l Hl Hty. rewrite <- app_assoc in Hl.
    apply elem_of_app in Hl as [Hl|Hl]; [by apply Hk5|].
    apply elem_of_cons in Hl as [->|Hl]; [by left|].
    apply list_elem_of_singleton in Hl as ->. right. by eexists.
  - apply elem_of_app. left. apply elem_of_app. right.
    by apply list_elem_of_singleton.
Qed.

Lemma run_keydown_wired (p : Page) (nav tog : node) (ss : list Stimulus) :
  readyState p ≠ loading →
  getElementById "navLinks" p = Some nav →
  getElementById "mobileMenuToggle" p = Some tog →
  keydown_wired nav tog (run ss (load p)).
Proof.
  intros Hr Hnav Htog.
  apply (run_inv _ _ (keydown_wired_loop_invariant nav tog)).
  by apply load_keydown_wired.
Qed.

Lemma on_trap_keydown_other_key (w : World) (nav : node)
    (focusableElements : list node) (e : Event) :
  navLinks (script w) = Some nav → key e ≠ "Tab" →
  on_trap_keydown focusableElements e w = (Normal tt, w).
Proof.
  intros Hnav Hkey. unfold on_trap_keydown, ref. js_run. rewrite Hnav.
  cbn [deref]. unfold classList_contains, element. js_run.
  destruct (bool_decide _); cbn [negb]; js_run; [|done].
  by rewrite bool_decide_eq_false_2 by done.
Qed.

(** While the menu is closed, the keydown listeners change nothing. *)
Lemma invoke_key_listeners_closed (e : Event) (nav : node)
    (ls : list Listener) (w : World) :
  navLinks (script w) = Some nav →
  "active" ∉ classList (elems (page w) nav) →
  Forall (λ l, key_callback (callback l)) ls →
  foldl (invoke e) w ls = w.
Proof.
  intros Hnav Hact Hls. induction Hls as [|l ls Hl _ IH]; [done|].
  cbn [foldl]. assert (invoke e w l = w) as ->; [|done].
  unfold invoke, run_task. destruct Hl as [-> | [F ->]]; cbn [call].
  - rewrite on_escape_keydown_closed; [done|]. intros ? ?. by simplify_eq.
  - by rewrite (on_trap_keydown_closed w nav).
Qed.

(** While it is open, Escape runs the closing mutation once: the focus
    traps ignore the key, and after the first Escape listener the menu is
    closed. *)
Lemma invoke_key_listeners_open (e : Event) (nav tog : node)
    (ls : list Listener) (w : World) :
  navLinks (script w) = Some nav →
  mobileMenuToggle (script w) = Some tog →
  key e = "Escape" →
  "active" ∈ classList (elems (page w) nav) →
  Forall (λ l, key_callback (callback l)) ls →
  (∃ l, l ∈ ls ∧ callback l = escape_keydown) →
  foldl (invoke e) w ls = exec (on_escape_keydown e) w.
Proof.
  intros Hnav Htog Hkey Hact Hls. induction Hls as [|l ls Hl Hls IH].
  - intros (l & Hl & _). by apply elem_of_nil in Hl.
  - intros Hex. cbn [foldl]. destruct Hl as [Hcb | [F Hcb]].
    + assert (invoke e w l = exec (on_escape_keydown e) w) as ->.
      { unfold invoke, run_task, exec. rewrite Hcb. cbn [call].
        by rewrite (on_escape_keydown_open w nav tog). }
      destruct (escape_keydown_effect w nav tog Document e Hnav Htog Hkey)
        as [Hopen _].
      destruct (Hopen Hact) as (_ & Hgone & _). cbn [call] in Hgone.
      apply (invoke_key_listeners_closed e nav); [|done|done].
      unfold exec. rewrite (on_escape_keydown_open w nav tog) by done.
      by destruct (focusable _).
    + assert (invoke e w l = w) as ->.
      { unfold invoke, run_task. rewrite Hcb. cbn [call].
        rewrite (on_trap_keydown_other_key w nav); [done|done|by rewrite Hkey]. }
      apply IH. destruct Hex as (l' & [->|Hl']%elem_of_cons & Hesc);
        [congruence|eauto].
  Qed.

Lemma keydown_listeners_for (e : Event) (nav tog tg : node) (w : World) :
  keydown_wired nav tog w →
  ev_type e = keydown → target e = Elem tg →
  Forall (λ l, key_callback (callback l)) (listeners_for e w) ∧
  ∃ l, l ∈ listeners_for e w ∧ callback l = escape_keydown.
Proof.
  intros [(_ & _ & Hk) Hesc] Hty Htg. split.
  - apply list.Forall_forall. intros l Hl. unfold listeners_for in Hl.
    apply list_elem_of_bind in Hl as (tg' & Hl & _).
    apply list_elem_of_filter in Hl as [[_ Hty'] Hl].
    apply Hk; [done|congruence].
  - exists escape_listener. split; [|done].
    unfold listeners_for, propagation_path. rewrite Htg, Hty. cbn [bubbles].
    apply list_elem_of_bind. exists Document. split.
    + apply list_elem_of_filter. by split.
    + apply elem_of_cons. right. apply elem_of_app. right. set_solver.
Qed.

(** C3.  On a page that was ready when the script ran and has the menu
    and the toggle, after any history: an Escape keydown on any element,
    while the menu is open, leaves both [active] classes off,
    [aria-expanded] at ["false"] and the body's overflow reset, and calls
    [focus] once, on the toggle, which takes the focus if it can; no
    listener throws.  While the menu is closed, the same key leaves the
    page as it is, calls no [focus] and throws nothing. *)
Theorem escape_closes_open_menu (p : Page) (nav tog tg : node)
    (ss : list Stimulus) (e : Event) :
  readyState p ≠ loading →
  getElementById "navLinks" p = Some nav →
  getElementById "mobileMenuToggle" p = Some tog →
  ev_type e = keydown → key e = "Escape" → target e = Elem tg →
  let w := run ss (load p) in
  let w' := step (Dispatch e) w in
  ("active" ∈ classList (elems (page w) nav) →
     ("active" ∉ classList (elems (page w') nav)) ∧
     ("active" ∉ classList (elems (page w') tog)) ∧
     attributes (elems (page w') tog) !! "aria-expanded" = Some "false" ∧
     body_overflow (page w') = "" ∧
     focus_calls w' = focus_calls w ++ [tog] ∧
     (focusable (elems (page w) tog) = true →
      activeElement (page w') = Some tog) ∧
     uncaught w' = uncaught w) ∧
  ("active" ∉ classList (elems (page w) nav) →
     page w' = page w ∧ focus_calls w' = focus_calls w ∧
     uncaught w' = uncaught w).
Proof.
  intros Hr Hnav Htog Hty Hkey Htg w w'.
  pose proof (run_keydown_wired p nav tog ss Hr Hnav Htog) as Hw.
  fold w in Hw. pose proof Hw as [(Hn & Ht & _) _].
  destruct (keydown_listeners_for e nav tog tg w Hw Hty Htg) as [Hls Hex].
  set (w0 := set_defaultPrevented false w).
  assert (w' = foldl (invoke e) w0 (listeners_for e w)) as Hw' by done.
  split; intros Hact.
  - rewrite Hw'.
    rewrite (invoke_key_listeners_open e nav tog _ w0) by done.
    destruct (escape_keydown_effect w0 nav tog Document e Hn Ht Hkey)
      as [Hopen _].
    destruct (Hopen Hact) as (_ & H1 & H2 & H3 & H4 & H5 & H6).
    cbn [call] in *. split_and!; try done.
    unfold exec. rewrite (on_escape_keydown_open w0 nav tog) by done.
    by destruct (focusable _).
  - rewrite Hw'. by rewrite (invoke_key_listeners_closed e nav _ w0).
Qed.

Lemma escape_closes_open_menu_witness :
  ("active" ∉ classList (elems (page
     (step (Dispatch (Sample.keypress "Escape" false Sample.link1_id))
           (run [Dispatch (Sample.click_on Sample.toggle_id)]
                (load Sample.doc)))) Sample.menu_id)) ∧
  focus_calls
    (step (Dispatch (Sample.keypress "Escape" false Sample.link1_id))
          (run [Dispatch (Sample.click_on Sample.toggle_id)]
               (load Sample.doc))) =
  focus_calls (run [Dispatch (Sample.click_on Sample.toggle_id)]
                   (load Sample.doc)) ++ [Sample.toggle_id].
Proof.
  destruct (escape_closes_open_menu Sample.doc
              Sample.menu_id Sample.toggle_id Sample.link1_id
              [Dispatch (Sample.click_on Sample.toggle_id)]
              (Sample.keypress "Escape" false Sample.link1_id))
    as [Hopen _]; [done|reflexivity..|].
  destruct Hopen as (Hn & _ & _ & _ & Hf & _); [compute_done|].
  split; [exact Hn|exact Hf].
Defined.

(** ** The registry of a loaded page *)

(** What no part of the script changes: the document order and, of each
    element, its tag, its ancestors, its [tabindex], its [href] and its
    [id]. *)
Definition same_tree : relation World := λ w w',
  document_order (page w') = document_order (page w) ∧
  ∀ m, tagName (elems (page w') m) = tagName (elems (page w) m) ∧
       ancestors (elems (page w') m) = ancestors (elems (page w) m) ∧
       attributes (elems (page w') m) !! "tabindex" =
         attributes (elems (page w) m) !! "tabindex" ∧
       attributes (elems (page w') m) !! "href" =
         attributes (elems (page w) m) !! "href" ∧
       attributes (elems (page w') m) !! "id" =
         attributes (elems (page w) m) !! "id".

Global Instance same_tree_preorder : PreOrder same_tree.
Proof.
  split.
  - by intros w.
  - intros w1 w2 w3 [Ha Ha'] [Hb Hb']. split; [congruence|].
    intros m. destruct (Ha' m) as (?&?&?&?&?), (Hb' m) as (?&?&?&?&?).
    split_and!; congruence.
Qed.

Ltac same_tree_leaf :=
  let w := fresh "w" in let m := fresh "m" in
  intros w; split; [reflexivity|]; intros m; world_simpl;
  first
    [ done
    | rewrite alter_lookup; case_decide; [|done]; simpl;
      split_and!; first [done|by rewrite lookup_insert_ne] ].

Lemma call_keeps_tree (cb : Callback) (this : EventTarget) (e : Event) :
  keeps same_tree (call cb this e).
Proof. destruct cb; simpl; keeps_auto; same_tree_leaf. Qed.

Lemma querySelectorAll_tabbable_same_tree (w w' : World) (root : node) :
  same_tree w w' →
  querySelectorAll_tabbable root (page w') = querySelectorAll_tabbable root (page w).
Proof.
  intros [Ho Hm]. unfold querySelectorAll_tabbable, tabbable. rewrite Ho.
  apply list_filter_iff. intros m. destruct (Hm m) as (-> & -> & -> & _). done.
Qed.

Lemma querySelectorAll_hash_anchors_same_tree (w w' : World) :
  same_tree w w' →
  querySelectorAll_hash_anchors (page w') = querySelectorAll_hash_anchors (page w).
Proof.
  intros [Ho Hm]. unfold querySelectorAll_hash_anchors, hash_anchor. rewrite Ho.
  apply list_filter_iff. intros m. destruct (Hm m) as (-> & _ & _ & -> & _). done.
Qed.

Lemma getElementById_same_tree (w w' : World) (id : string) :
  same_tree w w' →
  getElementById id (page w') = getElementById id (page w).
Proof.
  intros [Ho Hm]. unfold getElementById. rewrite Ho. f_equal.
  apply list_filter_iff. intros m. by destruct (Hm m) as (_ & _ & _ & _ & ->).
Qed.

(** Bindings and registry unchanged: what every listener but [init]
    guarantees. *)
Definition same_script : relation World := λ w w',
  mobileMenuToggle (script w') = mobileMenuToggle (script w) ∧
  navLinks (script w') = navLinks (script w) ∧
  navbar (script w') = navbar (script w) ∧
  listeners (script w') = listeners (script w).

Global Instance same_script_preorder : PreOrder same_script.
Proof.
  split.
  - by intros w.
  - intros w1 w2 w3 (?&?&?&?) (?&?&?&?). split_and!; congruence.
Qed.

Ltac same_script_leaf :=
  let w := fresh "w" in intros w; by split_and!.

Lemma call_keeps_script (cb : Callback) (this : EventTarget) (e : Event) :
  cb ≠ init_callback → keeps same_script (call cb this e).
Proof. destruct cb; try done; intros _; simpl; keeps_auto; same_script_leaf. Qed.

(** The registry grows by listeners that satisfy [P]. *)
Definition appends (P : Listener → Prop) : relation World := λ w w',
  mobileMenuToggle (script w') = mobileMenuToggle (script w) ∧
  navLinks (script w') = navLinks (script w) ∧
  ∃ extra, listeners (script w') = listeners (script w) ++ extra ∧
           Forall P extra.

Global Instance appends_preorder P : PreOrder (appends P).
Proof.
  split.
  - intros w. split_and!; [done..|]. exists []. by rewrite app_nil_r.
  - intros w1 w2 w3 (Ha&Hb&x1&Hx1&?) (Hc&Hd&x2&Hx2&?).
    split_and!; [congruence..|].
    exists (x1 ++ x2). rewrite Hx2, Hx1, app_assoc. split; [done|].
    by apply Forall_app.
Qed.

Definition plain_listener (l : Listener) : Prop :=
  on_type l ≠ keydown ∧ callback l ≠ init_callback.

Ltac appends_leaf :=
  let w := fresh "w" in
  intros w; split_and!; [reflexivity..|]; world_simpl;
  first
    [ exists []; split; [by rewrite app_nil_r|constructor]
    | eexists [_]; split; [reflexivity|]; constructor; [|constructor];
      by split ].

(** The ready state, which no part of the script writes: a document that
    has left [loading] stays out of it. *)
Definition ready (w : World) : Prop := readyState (page w) ≠ loading.

Ltac ready_leaf :=
  let w := fresh "w" in let H := fresh "H" in intros w H; exact H.

Lemma call_keeps_ready (cb : Callback) (this : EventTarget) (e : Event) :
  keeps (inv_rel ready) (call cb this e).
Proof. destruct cb; simpl; keeps_auto; ready_leaf. Qed.

Lemma load_ready (p : Page) : readyState p ≠ loading → ready (load p).
Proof.
  intros Hr. unfold load.
  apply (keeps_inv_run_task ready main (fresh p)); [|by intros err w'|exact Hr].
  unfold main. keeps_auto; ready_leaf.
Qed.

(** A world reached from the loaded world [w0] of a ready page. *)
Definition settled (w0 w : World) : Prop := same_script w0 w ∧ same_tree w0 w.

Lemma settled_loop_invariant (w0 : World) :
  (∀ l, l ∈ listeners (script w0) → callback l ≠ init_callback) →
  loop_invariant (λ w, settled w0 w ∧ ready w)
                 (λ l, callback l ≠ init_callback).
Proof.
  intros Hno.
  assert (∀ (m : Js unit) w, keeps same_script m → keeps same_tree m →
            keeps (inv_rel ready) m →
            settled w0 w ∧ ready w →
            settled w0 (run_task m w) ∧ ready (run_task m w)) as Htask.
  { intros m w Hs Ht Hr [[Hws Hwt] Hwr]. split; [split|].
    - etrans; [exact Hws|]. apply keeps_run_task; [apply _|done|].
      intros err. same_script_leaf.
    - etrans; [exact Hwt|]. apply keeps_run_task; [apply _|done|].
      intros err. same_tree_leaf.
    - by apply (keeps_inv_run_task ready m w Hr); [intros err w'|]. }
  assert (∀ (f : World → World) w, (∀ w, same_script w (f w)) →
            (∀ w, same_tree w (f w)) → (∀ w, ready w → ready (f w)) →
            settled w0 w ∧ ready w → settled w0 (f w) ∧ ready (f w)) as Hupd.
  { intros f w Hs Ht Hr [[Hws Hwt] Hwr].
    split; [split; (etrans; [eassumption|]); auto|auto]. }
  split.
  - intros w l [[(_ & _ & _ & Hl) _] _] Hin. apply Hno. by rewrite <- Hl.
  - intros w l e Hw Hl. unfold invoke.
    apply Htask;
      [by apply call_keeps_script|apply call_keeps_tree|apply call_keeps_ready
      |done].
  - intros w b. apply Hupd; [same_script_leaf|same_tree_leaf|ready_leaf].
  - intros w y. apply Hupd; [same_script_leaf|same_tree_leaf|ready_leaf].
  - intros w late Hl [_ Hr]. by destruct Hr.
  - intros w Hl [_ Hr]. by destruct Hr.
  - intros w l h. apply Hupd; [same_script_leaf|same_tree_leaf|ready_leaf].
  - intros w m. apply Hupd; [same_script_leaf|same_tree_leaf|ready_leaf].
  - intros w. apply Hupd; [same_script_leaf|same_tree_leaf|ready_leaf].
  - intros w o es.
    apply Htask; [keeps_auto; same_script_leaf|keeps_auto; same_tree_leaf
                 |keeps_auto; ready_leaf].
  - intros w.
    apply Htask; [keeps_auto; same_script_leaf|keeps_auto; same_tree_leaf
                 |keeps_auto; ready_leaf].
  - intros w.
    apply Htask; [keeps_auto; same_script_leaf|keeps_auto; same_tree_leaf
                 |keeps_auto; ready_leaf].
Qed.

Lemma keeps_exec_chain (R : relation World) `{!PreOrder R} {A} (m : Js A)
    (w0 w : World) :
  keeps R m → R w0 w → R w0 (exec m w).
Proof. intros Hm Hw. etrans; [exact Hw|]. apply Hm. Qed.

Lemma filter_none {A} (P : A → Prop) `{!∀ x, Decision (P x)} (l : list A) :
  Forall (λ x, ¬ P x) l → filter P l = [].
Proof.
  induction 1 as [|x l Hx _ IH]; [done|]. by rewrite filter_cons_False.
Qed.

(** The focus trap [initKeyboardNavigation] installs on page [p]. *)
Definition trap_listener (nav : node) (p : Page) : Listener :=
  {| on_target := Elem nav; on_type := keydown;
     callback := trap_keydown (querySelectorAll_tabbable nav p) |}.

(** After loading a ready page with menu and toggle: the bindings are
    set, the tree is as in the markup, [init] itself is not registered, and
    the keydown listeners are the Escape listener and the focus trap, in
    this order. *)
Lemma load_registry (p : Page) (nav tog : node) :
  readyState p ≠ loading →
  getElementById "navLinks" p = Some nav →
  getElementById "mobileMenuToggle" p = Some tog →
  mobileMenuToggle (script (load p)) = Some tog ∧
  navLinks (script (load p)) = Some nav ∧
  same_tree (fresh p) (load p) ∧
  (∀ l, l ∈ listeners (script (load p)) → callback l ≠ init_callback) ∧
  filter (λ l, on_type l = keydown) (listeners (script (load p))) =
    [escape_listener; trap_listener nav p].
Proof.
  intros Hr Hnav Htog. rewrite load_unfold, init_ready by done.
  unfold init_features. rewrite 5!exec_seq by returns_auto.
  set (w5 := exec initButtonEffects _).
  assert (appends plain_listener (bound p (fresh p)) w5) as (Ht5 & Hn5 & Hx).
  { unfold w5.
    do 5 (apply keeps_exec_chain; [apply _|keeps_auto; appends_leaf|]).
    reflexivity. }
  assert (same_tree (fresh p) w5) as Htree.
  { unfold w5.
    do 5 (apply keeps_exec_chain; [apply _|keeps_auto; same_tree_leaf|]).
    by split. }
  destruct Hx as (extra & Hx & Hplain).
  change (listeners (script (bound p (fresh p)))) with (@nil Listener) in Hx.
  change (mobileMenuToggle (script (bound p (fresh p))))
    with (getElementById "mobileMenuToggle" p) in Ht5.
  change (navLinks (script (bound p (fresh p))))
    with (getElementById "navLinks" p) in Hn5.
  rewrite Htog in Ht5. rewrite Hnav in Hn5. cbn [app] in Hx.
  rewrite exec_seq by returns_auto.
  unfold exec, initKeyboardNavigation, addEventListener,
    setTimeout_checkInitialView. js_run.
  rewrite Hn5, Ht5. js_run.
  rewrite (querySelectorAll_tabbable_same_tree (fresh p) w5 nav Htree).
  change (page (fresh p)) with p. fold (trap_listener nav p).
  fold escape_listener. rewrite Hx.
  split_and!; [done|done| | |].
  - destruct Htree as [Ho Hm]. by split.
  - intros l [[Hl|Hl]%elem_of_app|Hl]%elem_of_app.
    + rewrite list.Forall_forall in Hplain. by apply Hplain.
    + by apply list_elem_of_singleton in Hl as ->.
    + by apply list_elem_of_singleton in Hl as ->.
  - rewrite !list.filter_app. rewrite (filter_none _ extra).
    + by rewrite !filter_singleton_True.
    + eapply list.Forall_impl; [exact Hplain|]. by intros l [? _].
Qed.

Lemma run_settled (p : Page) (nav tog : node) (ss : list Stimulus) :
  readyState p ≠ loading →
  getElementById "navLinks" p = Some nav →
  getElementById "mobileMenuToggle" p = Some tog →
  settled (load p) (run ss (load p)).
Proof.
  intros Hr Hnav Htog.
  destruct (load_registry p nav tog Hr Hnav Htog) as (_ & _ & _ & Hno & _).
  apply (run_inv _ _ (settled_loop_invariant (load p) Hno)).
  split; [by split|by apply load_ready].
Qed.

(** The listeners a keydown reaches when it starts inside the menu: the
    focus trap on the menu, then the Escape listener on the document. *)
Lemma bind_elem_once {B} (nav : node) (b : B) (l : list node) :
  NoDup l →
  (Elem <$> l) ≫= (λ tgt, if decide (Elem nav = tgt) then [b] else []) =
    if decide (nav ∈ l) then [b] else [].
Proof.
  induction 1 as [|m l Hm _ IH]; [done|].
  rewrite fmap_cons, bind_cons, IH.
  destruct (decide (Elem nav = Elem m)) as [[= <-]|Hne].
  - rewrite decide_False by done. rewrite decide_True by left. done.
  - destruct (decide (nav ∈ l)).
    + rewrite decide_True by by right. done.
    + rewrite decide_False; [done|]. intros [->|?]%elem_of_cons; done.
Qed.

Lemma bind_ext_in {A B} (f g : A → list B) (l : list A) :
  (∀ x, x ∈ l → f x = g x) → l ≫= f = l ≫= g.
Proof.
  induction l as [|x l IH]; intros Hfg; [done|].
  rewrite !bind_cons, IH; [|intros y Hy; apply Hfg; by right].
  by rewrite Hfg by left.
Qed.

Lemma keydown_listeners_exact (w : World) (nav tg : node) (trap : Listener)
    (e : Event) :
  filter (λ l, on_type l = keydown) (listeners (script w)) =
    [escape_listener; trap] →
  on_target trap = Elem nav →
  ev_type e = keydown → target e = Elem tg →
  NoDup (tg :: ancestors (elems (page w) tg)) →
  nav ∈ tg :: ancestors (elems (page w) tg) →
  listeners_for e w = [trap; escape_listener].
Proof.
  intros Hls Htrap Hty Htg Hnd Hin.
  unfold listeners_for, propagation_path. rewrite Htg, Hty. cbn [bubbles].
  assert (∀ tgt, listeners_on keydown (listeners (script w)) tgt =
            (if decide (Document = tgt) then [escape_listener] else []) ++
            (if decide (Elem nav = tgt) then [trap] else [])) as Hon.
  { intros tgt. unfold listeners_on.
    rewrite <- (list_filter_filter (λ l, on_target l = tgt)
                  (λ l, on_type l = keydown)).
    rewrite Hls. rewrite !filter_cons, filter_nil.
    cbn [on_target escape_listener]. rewrite Htrap. by repeat case_decide. }
  change (Elem tg :: (Elem <$> ancestors (elems (page w) tg)) ++ [Document; Window])
    with ((Elem <$> (tg :: ancestors (elems (page w) tg))) ++ [Document; Window]).
  rewrite bind_app.
  rewrite (bind_ext_in _ (λ tgt, if decide (Elem nav = tgt) then [trap] else [])
             (Elem <$> (tg :: ancestors (elems (page w) tg)))).
  - rewrite (bind_elem_once nav trap) by done. rewrite decide_True by done.
    rewrite !bind_cons, !Hon.
    rewrite (decide_True (P := Document = Document)) by done.
    rewrite (decide_False (P := Elem nav = Document)) by done.
    rewrite (decide_False (P := Document = Window)) by done.
    by rewrite (decide_False (P := Elem nav = Window)) by done.
  - intros tgt [m [-> _]]%list_elem_of_fmap. rewrite Hon.
    by rewrite (decide_False (P := Document = Elem m)) by done.
Qed.

(** ** The focus trap, through the event loop *)

Lemma on_escape_keydown_other_key (e : Event) (w : World) :
  key e ≠ "Escape" → on_escape_keydown e w = (Normal tt, w).
Proof.
  intros Hkey. unfold on_escape_keydown. js_run.
  by rewrite bool_decide_eq_false_2 by done.
Qed.

Lemma keydown_listeners_key_callbacks (e : Event) (nav tog : node) (w : World) :
  keydown_wired nav tog w → ev_type e = keydown →
  Forall (λ l, key_callback (callback l)) (listeners_for e w).
Proof.
  intros [(_ & _ & Hk) _] Hty.
  apply list.Forall_forall. intros l Hl. unfold listeners_for in Hl.
  apply list_elem_of_bind in Hl as (tg' & Hl & _).
  apply list_elem_of_filter in Hl as [[_ Hty'] Hl].
  apply Hk; [done|congruence].
Qed.

(** A Tab keydown on the focused end of the menu's focusable list, while
    the menu is open: the trap runs once and wraps the focus to [to]; the
    Escape listener then ignores the key. *)
Lemma tab_wraps (p : Page) (nav tog from to : node) (ss : list Stimulus)
    (e : Event) :
  readyState p ≠ loading →
  getElementById "navLinks" p = Some nav →
  getElementById "mobileMenuToggle" p = Some tog →
  ev_type e = keydown → key e = "Tab" → target e = Elem from →
  from ∈ querySelectorAll_tabbable nav p →
  NoDup (from :: ancestors (elems p from)) →
  "active" ∈ classList (elems (page (run ss (load p))) nav) →
  on_trap_keydown (querySelectorAll_tabbable nav p) e
      (set_defaultPrevented false (run ss (load p))) =
    (preventDefault ;; el ← deref (Some to); focus el)
      (set_defaultPrevented false (run ss (load p))) →
  let w := run ss (load p) in
  let w' := step (Dispatch e) w in
  defaultPrevented w' = true ∧
  focus_calls w' = focus_calls w ++ [to] ∧
  (focusable (elems (page w) to) = true → activeElement (page w') = Some to) ∧
  uncaught w' = uncaught w.
Proof.
  intros Hr Hnav Htog Hty Hkey Htg Hfrom Hnd Hact Htrap w w'.
  destruct (load_registry p nav tog Hr Hnav Htog)
    as (Ht0 & Hn0 & Htree0 & _ & Hkeys).
  destruct (run_settled p nav tog ss Hr Hnav Htog)
    as [(Ht & Hn & _ & Hls) [_ Htree]].
  fold w in Ht, Hn, Hls, Htree.
  assert (ancestors (elems (page w) from) = ancestors (elems p from)) as Hanc.
  { destruct (Htree from) as (_ & -> & _).
    destruct Htree0 as [_ Htree0]. by destruct (Htree0 from) as (_ & -> & _). }
  set (w0 := set_defaultPrevented false w).
  assert (listeners_for e w0 = [trap_listener nav p; escape_listener]) as Hfor.
  { apply (keydown_listeners_exact w0 nav from); try done.
    - change (script w0) with (script w). by rewrite Hls.
    - change (page w0) with (page w). by rewrite Hanc.
    - change (page w0) with (page w). rewrite Hanc. right.
      apply list_elem_of_filter in Hfrom as [[? _] _]. done. }
  assert (w' = foldl (invoke e) w0 (listeners_for e w)) as -> by done.
  change (listeners_for e w) with (listeners_for e w0). rewrite Hfor.
  cbn [foldl].
  assert (invoke e w0 (trap_listener nav p) =
            if focusable (elems (page w) to)
            then set_page (set_activeElement (Some to))
                   (log_focus to (set_defaultPrevented true w0))
            else log_focus to (set_defaultPrevented true w0)) as ->.
  { unfold invoke, run_task. cbn [trap_listener callback on_target call].
    fold w w0 in Htrap. by rewrite Htrap, wrap_focus_spec. }
  unfold invoke, run_task. cbn [escape_listener callback on_target call].
  rewrite on_escape_keydown_other_key by (by rewrite Hkey).
  by destruct (focusable (elems (page w) to)).
Qed.

(** C4.  On a page that was ready when the script ran and has the menu
    and the toggle, after any history; [first] and [lst] are the first and
    last of the menu's focusable elements as the script listed them at
    setup.  While the menu is open, a Tab keydown without Shift on the
    focused [lst] has [preventDefault] called and [focus] called once, on
    [first]; a Shift+Tab keydown on the focused [first] likewise moves the
    focus to [lst]; the focus moves if the element can take it.  While the
    menu is closed, a Tab or Shift+Tab keydown anywhere leaves the page as
    it is: no [preventDefault], no [focus] call.  (An element's ancestor
    chain names no element twice.) *)
Theorem focus_trap_wraps (p : Page) (nav tog first lst : node)
    (ss : list Stimulus) (e : Event) :
  readyState p ≠ loading →
  getElementById "navLinks" p = Some nav →
  getElementById "mobileMenuToggle" p = Some tog →
  head (querySelectorAll_tabbable nav p) = Some first →
  list.last (querySelectorAll_tabbable nav p) = Some lst →
  ev_type e = keydown → key e = "Tab" →
  let w := run ss (load p) in
  let w' := step (Dispatch e) w in
  ("active" ∈ classList (elems (page w) nav) → shiftKey e = false →
   activeElement (page w) = Some lst → target e = Elem lst →
   NoDup (lst :: ancestors (elems p lst)) →
     defaultPrevented w' = true ∧
     focus_calls w' = focus_calls w ++ [first] ∧
     (focusable (elems (page w) first) = true →
      activeElement (page w') = Some first) ∧
     uncaught w' = uncaught w) ∧
  ("active" ∈ classList (elems (page w) nav) → shiftKey e = true →
   activeElement (page w) = Some first → target e = Elem first →
   NoDup (first :: ancestors (elems p first)) →
     defaultPrevented w' = true ∧
     focus_calls w' = focus_calls w ++ [lst] ∧
     (focusable (elems (page w) lst) = true →
      activeElement (page w') = Some lst) ∧
     uncaught w' = uncaught w) ∧
  ("active" ∉ classList (elems (page w) nav) →
     defaultPrevented w' = false ∧ focus_calls w' = focus_calls w ∧
     page w' = page w ∧ uncaught w' = uncaught w).
Proof.
  intros Hr Hnav Htog Hfirst Hlast Hty Hkey w w'.
  pose proof (run_keydown_wired p nav tog ss Hr Hnav Htog) as Hw.
  fold w in Hw. pose proof Hw as [(Hn & Ht & _) _].
  split_and!.
  - intros Hact Hshift Hfocus Htg Hnd.
    apply (tab_wraps p nav tog lst first ss e); try done.
    + apply last_Some in Hlast as [l' ->]. set_solver.
    + fold w. rewrite (on_trap_keydown_open _ nav) by done.
      world_simpl. by rewrite Hshift, Hfocus, Hlast, Hfirst, strict_eq_refl.
  - intros Hact Hshift Hfocus Htg Hnd.
    apply (tab_wraps p nav tog first lst ss e); try done.
    + by apply head_Some_elem_of.
    + fold w. rewrite (on_trap_keydown_open _ nav) by done.
      world_simpl. by rewrite Hshift, Hfocus, Hlast, Hfirst, strict_eq_refl.
  - intros Hact.
    assert (w' = foldl (invoke e) (set_defaultPrevented false w)
                   (listeners_for e w)) as -> by done.
    rewrite (invoke_key_listeners_closed e nav _ (set_defaultPrevented false w));
      [done|done|done|].
    by apply (keydown_listeners_key_callbacks e nav tog).
Qed.

Lemma focus_trap_wraps_witness :
  focus_calls
    (step (Dispatch (Sample.keypress "Tab" false Sample.link2_id))
       (run [Dispatch (Sample.click_on Sample.toggle_id);
             FocusMoved (Some Sample.link2_id)] (load Sample.doc))) =
  focus_calls
    (run [Dispatch (Sample.click_on Sample.toggle_id);
          FocusMoved (Some Sample.link2_id)] (load Sample.doc))
    ++ [Sample.link1_id] ∧
  defaultPrevented
    (step (Dispatch (Sample.keypress "Tab" true Sample.link1_id))
       (run [FocusMoved (Some Sample.link1_id)] (load Sample.doc))) = false.
Proof.
  split.
  - destruct (focus_trap_wraps Sample.doc Sample.menu_id Sample.toggle_id
                Sample.link1_id Sample.link2_id
                [Dispatch (Sample.click_on Sample.toggle_id);
                 FocusMoved (Some Sample.link2_id)]
                (Sample.keypress "Tab" false Sample.link2_id))
      as [Htab _]; [done|reflexivity..|].
    destruct Htab as (_ & Hf & _);
      [compute_done|reflexivity|vm_compute; reflexivity|reflexivity
      |compute_done|exact Hf].
  - destruct (focus_trap_wraps Sample.doc Sample.menu_id Sample.toggle_id
                Sample.link1_id Sample.link2_id
                [FocusMoved (Some Sample.link1_id)]
                (Sample.keypress "Tab" true Sample.link1_id))
      as (_ & _ & Hclosed); [done|reflexivity..|].
    destruct Hclosed as (Hd & _); [compute_done|exact Hd].
Defined.

(** ** Where the anchor listener sits *)

Lemma registered_kept {A} (m : Js A) (l : Listener) (w : World) :
  keeps (appends (λ _, True)) m →
  l ∈ listeners (script w) → l ∈ listeners (script (exec m w)).
Proof.
  intros Hm Hl. destruct (Hm w) as (_ & _ & extra & Hx & _).
  unfold exec. rewrite Hx. apply elem_of_app. by left.
Qed.

Lemma forEach_registers (l : list node) (ty : EventType) (cb : Callback)
    (w : World) (a : node) :
  a ∈ l →
  {| on_target := Elem a; on_type := ty; callback := cb |} ∈
    listeners (script (exec (forEach l (λ x, addEventListener (Elem x) ty cb)) w)).
Proof.
  revert w. induction l as [|x l IH]; intros w Ha; [by apply elem_of_nil in Ha|].
  cbn [forEach]. rewrite exec_seq by returns_auto.
  apply elem_of_cons in Ha as [->|Ha]; [|by apply IH].
  apply registered_kept; [keeps_auto; appends_leaf|].
  unfold exec, addEventListener, modify. world_simpl.
  apply elem_of_app. right. by apply list_elem_of_singleton.
Qed.

(** On a ready page, every anchor whose [href] starts with a hash carries
    the click listener of [initSmoothScroll]. *)
Lemma load_registers_anchor_click (p : Page) (a : node) :
  readyState p ≠ loading →
  a ∈ querySelectorAll_hash_anchors p →
  {| on_target := Elem a; on_type := click; callback := anchor_click |} ∈
    listeners (script (load p)).
Proof.
  intros Hr Ha. rewrite load_unfold, init_ready by done.
  unfold init_features. rewrite 3!exec_seq by returns_auto.
  set (w3 := exec initScrollAnimations _).
  assert (same_tree (fresh p) w3) as Htree.
  { unfold w3.
    do 3 (apply keeps_exec_chain; [apply _|keeps_auto; same_tree_leaf|]).
    by split. }
  rewrite exec_seq by returns_auto. world_simpl.
  apply registered_kept; [keeps_auto; appends_leaf|].
  assert (exec initSmoothScroll w3 =
            exec (forEach (querySelectorAll_hash_anchors p)
                    (λ anchor, addEventListener (Elem anchor) click anchor_click))
                 w3) as ->.
  { unfold exec, initSmoothScroll. rewrite bind_unfold. unfold get at 1.
    cbv beta iota.
    by rewrite (querySelectorAll_hash_anchors_same_tree (fresh p) w3 Htree). }
  by apply forEach_registers.
Qed.

(** ** The click listeners of a loaded page *)

Definition toggle_listener (tog : node) : Listener :=
  {| on_target := Elem tog; on_type := click; callback := toggle_click |}.

Definition navlink_listener (link : node) : Listener :=
  {| on_target := Elem link; on_type := click; callback := navlink_click |}.

Definition document_click_listener : Listener :=
  {| on_target := Document; on_type := click; callback := document_click |}.

Lemma forEach_addEventListener (l : list node) (ty : EventType)
    (cb : Callback) (w : World) :
  listeners (script (exec (forEach l (λ x, addEventListener (Elem x) ty cb)) w)) =
    listeners (script w) ++
    ((λ x, {| on_target := Elem x; on_type := ty; callback := cb |}) <$> l).
Proof.
  revert w. induction l as [|x l IH]; intros w.
  - simpl. by rewrite app_nil_r.
  - cbn [forEach]. rewrite exec_seq by returns_auto. rewrite IH.
    unfold exec, addEventListener, modify. world_simpl.
    by rewrite <- app_assoc.
Qed.

(** What [initMobileMenu] registers when menu and toggle exist. *)
Lemma initMobileMenu_listeners (w : World) (nav tog : node) :
  navLinks (script w) = Some nav →
  mobileMenuToggle (script w) = Some tog →
  listeners (script (exec initMobileMenu w)) =
    listeners (script w) ++
    toggle_listener tog :: (navlink_listener <$> navLinksArray (script w)) ++
    [document_click_listener].
Proof.
  intros Hnav Htog. unfold exec, initMobileMenu. rewrite bind_unfold.
  unfold get at 1. cbv beta iota. rewrite Hnav, Htog.
  match goal with
  | |- context [(?m w).2] => change ((m w).2) with (exec m w)
  end.
  rewrite exec_seq by returns_auto. rewrite exec_seq by returns_auto.
  unfold exec at 1. unfold addEventListener at 1. unfold modify.
  world_simpl. rewrite forEach_addEventListener.
  unfold exec, addEventListener, modify. world_simpl.
  by rewrite <- !app_assoc.
Qed.

(** A listener that, if it listens for clicks at all, is the anchor's. *)
Definition click_is_anchor (l : Listener) : Prop :=
  on_type l = click → callback l = anchor_click.

Ltac appends_click_leaf :=
  let w := fresh "w" in
  intros w; split_and!; [reflexivity..|]; world_simpl;
  first
    [ exists []; split; [by rewrite app_nil_r|constructor]
    | eexists [_]; split; [reflexivity|]; constructor; [|constructor];
      unfold click_is_anchor; simpl; done ].

(** The registry of a ready page with menu and toggle starts with the
    menu's click listeners: the toggle's, one per nav link, the document's;
    whatever follows listens for clicks only as the anchor listener. *)
Lemma load_click_registry (p : Page) (nav tog : node) :
  readyState p ≠ loading →
  getElementById "navLinks" p = Some nav →
  getElementById "mobileMenuToggle" p = Some tog →
  ∃ extra,
    listeners (script (load p)) =
      toggle_listener tog ::
      (navlink_listener <$> querySelectorAll_class "nav-link" p) ++
      document_click_listener :: extra ∧
    Forall click_is_anchor extra.
Proof.
  intros Hr Hnav Htog. rewrite load_unfold, init_ready by done.
  unfold init_features. rewrite exec_seq by returns_auto.
  set (w1 := exec initMobileMenu _).
  assert (listeners (script w1) =
            toggle_listener tog ::
            (navlink_listener <$> querySelectorAll_class "nav-link" p) ++
            [document_click_listener]) as H1.
  { unfold w1. by rewrite (initMobileMenu_listeners _ nav tog). }
  assert (appends click_is_anchor w1
            (exec (initNavbarScroll;; initScrollAnimations;; initSmoothScroll;;
                   initButtonEffects;; initKeyboardNavigation;;
                   setTimeout_checkInitialView) w1)) as (_ & _ & extra & Hx & Hextra).
  { apply keeps_exec_chain; [apply _| |reflexivity].
    keeps_auto; appends_click_leaf. }
  exists extra. split; [|done]. world_simpl. rewrite Hx, H1.
  by rewrite <- app_comm_cons, <- app_assoc.
Qed.

(** ** Clicks, through the event loop *)


Lemma elem_of_listeners_for (e : Event) (w : World) (l : Listener) :
  l ∈ listeners_for e w ↔
  l ∈ listeners (script w) ∧ on_type l = ev_type e ∧
  on_target l ∈ propagation_path (page w) e.
Proof.
  unfold listeners_for, listeners_on. rewrite list_elem_of_bind. split.
  - intros (tg & [[-> ?] ?]%list_elem_of_filter & ?). done.
  - intros (? & ? & ?). exists (on_target l). split; [|done].
    by apply list_elem_of_filter.
Qed.

Lemma click_path (p : Page) (e : Event) (t : node) :
  ev_type e = click → target e = Elem t →
  propagation_path p e =
    (Elem <$> (t :: ancestors (elems p t))) ++ [Document; Window].
Proof. intros Hty Htg. unfold propagation_path. by rewrite Htg, Hty. Qed.

Lemma elem_of_element_path (m : node) (l : list node) :
  Elem m ∈ (Elem <$> l) ++ [Document; Window] ↔ m ∈ l.
Proof.
  rewrite elem_of_app, list_elem_of_fmap. split.
  - intros [(x & [= ->] & ?)|Hm]; [done|].
    apply elem_of_cons in Hm as [[=]|Hm].
    by apply list_elem_of_singleton in Hm.
  - intros Hm. left. by exists m.
Qed.

(** The two bindings of the menu, which no listener assigns. *)
Definition same_menu_bindings : relation World := λ w w',
  mobileMenuToggle (script w') = mobileMenuToggle (script w) ∧
  navLinks (script w') = navLinks (script w).

Global Instance same_menu_bindings_preorder : PreOrder same_menu_bindings.
Proof.
  split.
  - by intros w.
  - intros w1 w2 w3 [? ?] [? ?]. split; congruence.
Qed.

Ltac same_menu_bindings_leaf :=
  let w := fresh "w" in intros w; by split.

Lemma call_keeps_menu_bindings (cb : Callback) (this : EventTarget) (e : Event) :
  keeps same_menu_bindings (call cb this e).
Proof. destruct cb; simpl; keeps_auto; same_menu_bindings_leaf. Qed.

(** What a click listener reads besides the indicators: the two bindings
    and the ancestors of the element clicked. *)
Definition click_context (nav tog t : node) (anc : list node) (w : World) : Prop :=
  navLinks (script w) = Some nav ∧
  mobileMenuToggle (script w) = Some tog ∧
  ancestors (elems (page w) t) = anc.

Lemma invoke_click_context (nav tog t : node) (anc : list node) (e : Event)
    (l : Listener) (w : World) :
  click_context nav tog t anc w → click_context nav tog t anc (invoke e w l).
Proof.
  intros (Hn & Ht & Ha). unfold invoke.
  assert (same_menu_bindings w (run_task (call (callback l) (on_target l) e) w))
    as [Hb1 Hb2].
  { apply keeps_run_task; [apply _|apply call_keeps_menu_bindings|].
    intros err. same_menu_bindings_leaf. }
  assert (same_tree w (run_task (call (callback l) (on_target l) e) w))
    as [_ Htree].
  { apply keeps_run_task; [apply _|apply call_keeps_tree|].
    intros err. same_tree_leaf. }
  destruct (Htree t) as (_ & Hanc & _).
  split_and!; congruence.
Qed.

Lemma foldl_click_context (nav tog t : node) (anc : list node) (e : Event)
    (ls : list Listener) (w : World) :
  click_context nav tog t anc w →
  click_context nav tog t anc (foldl (invoke e) w ls).
Proof.
  revert w. induction ls as [|l ls IH]; intros w Hw; [done|].
  cbn [foldl]. by apply IH, invoke_click_context.
Qed.

(** The click landed outside the menu and outside the toggle. *)
Definition outside (nav tog t : node) (anc : list node) : Prop :=
  (nav ∉ t :: anc) ∧ (tog ∉ t :: anc).

Lemma on_document_click_spec (w : World) (nav tog t : node) (anc : list node)
    (e : Event) :
  click_context nav tog t anc w → target e = Elem t →
  on_document_click e w =
    (Normal tt,
     if decide (outside nav tog t anc ∧
                "active" ∈ classList (elems (page w) nav))
     then closed_world nav tog w else w).
Proof.
  intros (Hn & Ht & Ha) Htg. unfold on_document_click, ref. js_run.
  rewrite Hn. cbn [deref]. js_run. rewrite Htg. unfold contains, element.
  js_run. rewrite Ht. cbn [deref]. js_run. rewrite Ha.
  destruct (bool_decide (t = nav ∨ nav ∈ anc)) eqn:E1;
    [apply bool_decide_eq_true in E1|apply bool_decide_eq_false in E1];
    cbn [negb andb]; js_run.
  { rewrite decide_False; [done|]. unfold outside. set_solver. }
  destruct (bool_decide (t = tog ∨ tog ∈ anc)) eqn:E2;
    [apply bool_decide_eq_true in E2|apply bool_decide_eq_false in E2];
    cbn [negb andb]; js_run.
  { rewrite decide_False; [done|]. unfold outside. set_solver. }
  unfold classList_contains, element. js_run.
  destruct (decide ("active" ∈ classList (elems (page w) nav))) as [Hact|Hact].
  - rewrite bool_decide_eq_true_2 by done.
    rewrite (close_menu_spec w nav tog) by done.
    rewrite decide_True; [done|]. unfold outside. set_solver.
  - rewrite bool_decide_eq_false_2 by done.
    rewrite decide_False; [done|]. tauto.
Qed.

Lemma closed_world_menu_closed (w : World) (nav tog : node) :
  navLinks (script w) = Some nav → mobileMenuToggle (script w) = Some tog →
  menu_closed (closed_world nav tog w).
Proof.
  intros Hn Ht. unfold menu_closed.
  change (script (closed_world nav tog w)) with (script w).
  rewrite Hn, Ht. split_and!.
  - intros ? [= <-]. rewrite closed_world_elems. naive_solver.
  - intros ? [= <-]. rewrite closed_world_elems, closed_world_aria.
    rewrite decide_True by done. naive_solver.
  - done.
Qed.

Lemma opened_world_menu_open (w : World) (nav tog : node) :
  navLinks (script w) = Some nav → mobileMenuToggle (script w) = Some tog →
  menu_open (opened_world nav tog w).
Proof.
  intros Hn Ht. unfold menu_open.
  change (script (opened_world nav tog w)) with (script w).
  rewrite Hn, Ht. split_and!.
  - intros ? [= <-]. rewrite opened_world_elems. naive_solver.
  - intros ? [= <-]. rewrite opened_world_elems, opened_world_aria.
    naive_solver.
  - done.
Qed.

Lemma menu_closed_frame (t : option node) (w w' : World) :
  menu_frame t w w' → menu_closed w → menu_closed w'.
Proof.
  intros (Hf1 & Hf2 & Hf3 & Hf4 & Hf5 & _). unfold menu_closed.
  rewrite Hf1, Hf2, Hf5. setoid_rewrite Hf3. by setoid_rewrite Hf4.
Qed.

Lemma menu_open_frame (t : option node) (w w' : World) :
  menu_frame t w w' → menu_open w → menu_open w'.
Proof.
  intros (Hf1 & Hf2 & Hf3 & Hf4 & Hf5 & _). unfold menu_open.
  rewrite Hf1, Hf2, Hf5. setoid_rewrite Hf3. by setoid_rewrite Hf4.
Qed.

Lemma invoke_anchor_click_frame (tog : node) (e : Event) (w : World)
    (l : Listener) :
  callback l = anchor_click → menu_frame (Some tog) w (invoke e w l).
Proof.
  intros Hcb. unfold invoke. rewrite Hcb.
  apply keeps_run_task; [apply _| |intros err; menu_frame_leaf].
  exact (other_callbacks_keep_menu (Some tog) anchor_click (on_target l) e).
Qed.

Section click_dispatch.
Context (nav tog t : node) (anc : list node) (e : Event).
Hypothesis Htarget : target e = Elem t.

Lemma invoke_document_click (w : World) (l : Listener) :
  click_context nav tog t anc w → callback l = document_click →
  invoke e w l =
    if decide (outside nav tog t anc ∧
               "active" ∈ classList (elems (page w) nav))
    then closed_world nav tog w else w.
Proof.
  intros Hw Hcb. unfold invoke, run_task. rewrite Hcb. cbn [call].
  by rewrite (on_document_click_spec w nav tog t anc e).
Qed.

Lemma invoke_navlink_click (w : World) (l : Listener) :
  click_context nav tog t anc w → callback l = navlink_click →
  invoke e w l = closed_world nav tog w.
Proof.
  intros (Hn & Ht & _) Hcb. unfold invoke, run_task. rewrite Hcb.
  cbn [call]. unfold on_navlink_click. by rewrite (close_menu_spec w nav tog).
Qed.

(** Listeners that close the menu or leave it alone, run in a row: the
    menu ends closed if it was, or if one of them is a nav link's, or if
    the click is outside, the menu open and the document's listener among
    them. *)
Lemma invoke_closing (ls : list Listener) (w : World) :
  click_context nav tog t anc w →
  Forall (λ l, callback l = navlink_click ∨ callback l = document_click ∨
               callback l = anchor_click) ls →
  menu_closed w ∨
  Exists (λ l, callback l = navlink_click) ls ∨
  (outside nav tog t anc ∧ "active" ∈ classList (elems (page w) nav) ∧
   Exists (λ l, callback l = document_click) ls) →
  menu_closed (foldl (invoke e) w ls).
Proof.
  intros Hw Hls. revert w Hw.
  induction Hls as [|l ls Hl _ IH]; intros w Hw Hst.
  - destruct Hst as [?|[H|(_ & _ & H)]]; [done|by apply Exists_nil in H..].
  - cbn [foldl]. apply IH; [by apply invoke_click_context|].
    pose proof Hw as (Hn & Ht & _).
    destruct Hl as [Hcb|[Hcb|Hcb]].
    + left. rewrite invoke_navlink_click by done.
      by apply closed_world_menu_closed.
    + rewrite invoke_document_click by done. case_decide as Hd.
      * left. by apply closed_world_menu_closed.
      * destruct Hst as [?|[H|(Ho & Ha & H)]]; [by left| |by destruct Hd].
        right; left. apply Exists_cons in H as [H|H]; [congruence|done].
    + pose proof (invoke_anchor_click_frame tog e w l Hcb) as Hf.
      destruct Hst as [?|[H|(Ho & Ha & H)]].
      * left. by apply (menu_closed_frame (Some tog) w).
      * right; left. apply Exists_cons in H as [H|H]; [congruence|done].
      * right; right. split_and!; [done| |].
        -- destruct Hf as (_ & _ & Hf & _). by apply Hf.
        -- apply Exists_cons in H as [H|H]; [congruence|done].
Qed.

(** Listeners that leave the menu alone when the click is inside the menu
    or on the toggle. *)
Lemma invoke_bystanders (ls : list Listener) (w : World) :
  click_context nav tog t anc w → ¬ outside nav tog t anc →
  Forall (λ l, callback l = document_click ∨ callback l = anchor_click) ls →
  menu_frame (Some tog) w (foldl (invoke e) w ls).
Proof.
  intros Hw Hin Hls. revert w Hw.
  induction Hls as [|l ls Hl _ IH]; intros w Hw; [reflexivity|].
  cbn [foldl]. etrans; [|apply IH; by apply invoke_click_context].
  destruct Hl as [Hcb|Hcb].
  - rewrite invoke_document_click by done.
    rewrite decide_False by tauto. reflexivity.
  - by apply invoke_anchor_click_frame.
Qed.

(** The toggle's listener between two rows of bystanders flips the menu. *)
Lemma invoke_toggle (l1 l2 : list Listener) (lt : Listener) (w : World) :
  click_context nav tog t anc w → nav ≠ tog → ¬ outside nav tog t anc →
  callback lt = toggle_click →
  Forall (λ l, callback l = document_click ∨ callback l = anchor_click) l1 →
  Forall (λ l, callback l = document_click ∨ callback l = anchor_click) l2 →
  (menu_closed w → menu_open (foldl (invoke e) w (l1 ++ lt :: l2))) ∧
  (menu_open w → menu_closed (foldl (invoke e) w (l1 ++ lt :: l2))).
Proof.
  intros Hw Hne Hin Hcb Hl1 Hl2. rewrite foldl_app. cbn [foldl].
  set (w1 := foldl (invoke e) w l1).
  pose proof (invoke_bystanders l1 w Hw Hin Hl1) as Hf1. fold w1 in Hf1.
  pose proof (foldl_click_context nav tog t anc e l1 w Hw) as Hw1.
  fold w1 in Hw1. pose proof Hw1 as (Hn1 & Ht1 & _).
  pose proof (invoke_click_context nav tog t anc e lt w1 Hw1) as Hw2.
  pose proof (invoke_bystanders l2 _ Hw2 Hin Hl2) as Hf2.
  split; intros Hst.
  - apply (menu_open_frame _ _ _ Hf2).
    apply (menu_closed_frame _ _ _ Hf1) in Hst.
    destruct Hst as (Hc1 & Hc2 & _). destruct (Hc2 tog Ht1) as [Hat _].
    unfold invoke, run_task. rewrite Hcb. cbn [call].
    rewrite (on_toggle_click_closed w1 nav tog) by auto.
    by apply opened_world_menu_open.
  - apply (menu_closed_frame _ _ _ Hf2).
    apply (menu_open_frame _ _ _ Hf1) in Hst.
    destruct Hst as (Ho1 & Ho2 & _). destruct (Ho2 tog Ht1) as [Hat _].
    unfold invoke, run_task. rewrite Hcb. cbn [call].
    rewrite (on_toggle_click_open w1 nav tog) by auto.
    by apply closed_world_menu_closed.
Qed.
End click_dispatch.

(** A loaded page, after any history, as a click finds it: the bindings
    and the tree are those of the markup, and the listeners the click
    reaches are the registered click listeners on its path. *)
Lemma click_listeners_for (p : Page) (nav tog t : node) (ss : list Stimulus)
    (e : Event) :
  readyState p ≠ loading →
  getElementById "navLinks" p = Some nav →
  getElementById "mobileMenuToggle" p = Some tog →
  ev_type e = click → target e = Elem t →
  click_context nav tog t (ancestors (elems p t))
    (set_defaultPrevented false (run ss (load p))) ∧
  ∀ l, l ∈ listeners_for e (run ss (load p)) ↔
       l ∈ listeners (script (load p)) ∧ on_type l = click ∧
       on_target l ∈ (Elem <$> (t :: ancestors (elems p t))) ++ [Document; Window].
Proof.
  intros Hr Hnav Htog Hty Htg.
  destruct (load_registry p nav tog Hr Hnav Htog)
    as (Ht0 & Hn0 & [_ Htree0] & _).
  destruct (run_settled p nav tog ss Hr Hnav Htog)
    as [(Ht & Hn & _ & Hls) [_ Htree]].
  assert (ancestors (elems (page (run ss (load p))) t) = ancestors (elems p t))
    as Hanc.
  { destruct (Htree t) as (_ & -> & _). by destruct (Htree0 t) as (_ & -> & _). }
  split.
  - split_and!; world_simpl; congruence.
  - intros l. rewrite elem_of_listeners_for, Hls, Hty.
    rewrite (click_path _ e t) by done. by rewrite Hanc.
Qed.

Lemma click_listener_kinds (p : Page) (nav tog : node) (l : Listener) :
  readyState p ≠ loading →
  getElementById "navLinks" p = Some nav →
  getElementById "mobileMenuToggle" p = Some tog →
  l ∈ listeners (script (load p)) → on_type l = click →
  l = toggle_listener tog ∨
  (∃ link, link ∈ querySelectorAll_class "nav-link" p ∧ l = navlink_listener link) ∨
  l = document_click_listener ∨
  callback l = anchor_click.
Proof.
  intros Hr Hnav Htog Hl Hty.
  destruct (load_click_registry p nav tog Hr Hnav Htog) as (extra & Hx & Hextra).
  rewrite Hx in Hl.
  apply elem_of_cons in Hl as [->|Hl]; [by left|].
  apply elem_of_app in Hl as [Hl|Hl].
  { apply list_elem_of_fmap in Hl as (link & -> & Hlink). right; left. eauto. }
  apply elem_of_cons in Hl as [->|Hl]; [by right; right; left|].
  right; right; right. rewrite list.Forall_forall in Hextra. by apply Hextra.
Qed.

Lemma document_click_listener_reached (p : Page) (nav tog t : node)
    (ss : list Stimulus) (e : Event) :
  readyState p ≠ loading →
  getElementById "navLinks" p = Some nav →
  getElementById "mobileMenuToggle" p = Some tog →
  ev_type e = click → target e = Elem t →
  document_click_listener ∈ listeners_for e (run ss (load p)).
Proof.
  intros Hr Hnav Htog Hty Htg.
  destruct (click_listeners_for p nav tog t ss e Hr Hnav Htog Hty Htg)
    as [_ Hfor].
  destruct (load_click_registry p nav tog Hr Hnav Htog) as (extra & Hx & _).
  apply Hfor. split_and!; [|done|].
  - rewrite Hx. apply elem_of_cons. right. apply elem_of_app. right. left.
  - apply elem_of_app. right. left.
Qed.

(** A click that does not pass through the toggle reaches no listener but
    nav links', the document's and anchors'. *)
Lemma click_off_toggle (p : Page) (nav tog t : node) (ss : list Stimulus)
    (e : Event) :
  readyState p ≠ loading →
  getElementById "navLinks" p = Some nav →
  getElementById "mobileMenuToggle" p = Some tog →
  ev_type e = click → target e = Elem t →
  tog ∉ t :: ancestors (elems p t) →
  Forall (λ l, callback l = navlink_click ∨ callback l = document_click ∨
               callback l = anchor_click)
         (listeners_for e (run ss (load p))).
Proof.
  intros Hr Hnav Htog Hty Htg Hoff.
  destruct (click_listeners_for p nav tog t ss e Hr Hnav Htog Hty Htg)
    as [_ Hfor].
  apply list.Forall_forall. intros l (Hl & Hty' & Hpath)%Hfor.
  destruct (click_listener_kinds p nav tog l Hr Hnav Htog Hl Hty')
    as [->|[(link & _ & ->)|[->|Hcb]]]; auto.
  by apply elem_of_element_path in Hpath.
Qed.

(** Nor a nav link's, if it passes through none. *)
Lemma click_off_links (p : Page) (nav tog t : node) (ss : list Stimulus)
    (e : Event) (l : Listener) :
  readyState p ≠ loading →
  getElementById "navLinks" p = Some nav →
  getElementById "mobileMenuToggle" p = Some tog →
  ev_type e = click → target e = Elem t →
  Forall (λ m, m ∉ querySelectorAll_class "nav-link" p)
         (t :: ancestors (elems p t)) →
  l ∈ listeners_for e (run ss (load p)) →
  l = toggle_listener tog ∨ callback l = document_click ∨
  callback l = anchor_click.
Proof.
  intros Hr Hnav Htog Hty Htg Hoff Hin.
  destruct (click_listeners_for p nav tog t ss e Hr Hnav Htog Hty Htg)
    as [_ Hfor].
  apply Hfor in Hin as (Hl & Hty' & Hpath).
  destruct (click_listener_kinds p nav tog l Hr Hnav Htog Hl Hty')
    as [->|[(link & Hlink & ->)|[->|Hcb]]]; auto.
  apply elem_of_element_path in Hpath.
  rewrite list.Forall_forall in Hoff. by destruct (Hoff link Hpath).
Qed.

(** X1.  On a ready page with menu and toggle, after any history, a click
    that lands outside the menu and outside the toggle while the menu
    carries [active] leaves the menu closed: both [active] classes off,
    [aria-expanded] at ["false"], the body's overflow reset. *)
Theorem outside_click_closes_menu (p : Page) (nav tog t : node)
    (ss : list Stimulus) (e : Event) :
  readyState p ≠ loading →
  getElementById "navLinks" p = Some nav →
  getElementById "mobileMenuToggle" p = Some tog →
  ev_type e = click → target e = Elem t →
  outside nav tog t (ancestors (elems p t)) →
  "active" ∈ classList (elems (page (run ss (load p))) nav) →
  menu_closed (step (Dispatch e) (run ss (load p))).
Proof.
  intros Hr Hnav Htog Hty Htg Hout Hact. cbn [step]. unfold dispatchEvent.
  destruct (click_listeners_for p nav tog t ss e Hr Hnav Htog Hty Htg)
    as [Hctx _].
  apply (invoke_closing nav tog t (ancestors (elems p t)) e Htg); [done| |].
  - apply (click_off_toggle p nav tog t); try done. apply Hout.
  - right; right. split_and!; [done|done|].
    apply list.Exists_exists. exists document_click_listener. split; [|done].
    by apply (document_click_listener_reached p nav tog t).
Qed.

(** X2.  On a ready page with menu and toggle, after any history and
    whatever the menu's state, a click on a nav link, or inside one,
    leaves the menu closed (the toggle not being among the link's
    ancestors). *)
Theorem navlink_click_closes_menu (p : Page) (nav tog link t : node)
    (ss : list Stimulus) (e : Event) :
  readyState p ≠ loading →
  getElementById "navLinks" p = Some nav →
  getElementById "mobileMenuToggle" p = Some tog →
  ev_type e = click → target e = Elem t →
  link ∈ querySelectorAll_class "nav-link" p →
  link ∈ t :: ancestors (elems p t) →
  tog ∉ t :: ancestors (elems p t) →
  menu_closed (step (Dispatch e) (run ss (load p))).
Proof.
  intros Hr Hnav Htog Hty Htg Hlink Hon Hoff. cbn [step]. unfold dispatchEvent.
  destruct (click_listeners_for p nav tog t ss e Hr Hnav Htog Hty Htg)
    as [Hctx Hfor].
  apply (invoke_closing nav tog t (ancestors (elems p t)) e Htg); [done| |].
  - by apply (click_off_toggle p nav tog t).
  - right; left. apply list.Exists_exists. exists (navlink_listener link).
    split; [|done]. apply Hfor. split_and!; [|done|].
    + destruct (load_click_registry p nav tog Hr Hnav Htog) as (extra & -> & _).
      apply elem_of_cons. right. apply elem_of_app. left.
      apply list_elem_of_fmap. by exists link.
    + by apply elem_of_element_path.
Qed.

(** X3.  On a ready page with menu and toggle, after any history, a click
    inside the menu that passes through no nav link and not through the
    toggle changes none of the menu's indicators: no element's [active]
    class, no [aria-expanded], not the body's overflow. *)
Theorem click_inside_menu_keeps_state (p : Page) (nav tog t : node)
    (ss : list Stimulus) (e : Event) :
  readyState p ≠ loading →
  getElementById "navLinks" p = Some nav →
  getElementById "mobileMenuToggle" p = Some tog →
  ev_type e = click → target e = Elem t →
  nav ∈ t :: ancestors (elems p t) →
  tog ∉ t :: ancestors (elems p t) →
  Forall (λ m, m ∉ querySelectorAll_class "nav-link" p)
         (t :: ancestors (elems p t)) →
  let w := run ss (load p) in
  let w' := step (Dispatch e) w in
  (∀ m, "active" ∈ classList (elems (page w') m) ↔
        "active" ∈ classList (elems (page w) m)) ∧
  (∀ m, attributes (elems (page w') m) !! "aria-expanded" =
        attributes (elems (page w) m) !! "aria-expanded") ∧
  body_overflow (page w') = body_overflow (page w).
Proof.
  intros Hr Hnav Htog Hty Htg Hin Hoff Hlinks w w'.
  destruct (click_listeners_for p nav tog t ss e Hr Hnav Htog Hty Htg)
    as [Hctx Hfor].
  assert (menu_frame (Some tog) (set_defaultPrevented false w) w')
    as (_ & _ & H1 & H2 & H3 & _); [|done].
  apply (invoke_bystanders nav tog t (ancestors (elems p t)) e Htg); [done| |].
  - intros [Hout _]. done.
  - apply list.Forall_forall. intros l Hl.
    destruct (click_off_links p nav tog t ss e l Hr Hnav Htog Hty Htg Hlinks Hl)
      as [->|Hcb]; [|done].
    apply Hfor in Hl as (_ & _ & Hpath).
    by apply elem_of_element_path in Hpath.
Qed.

Lemma filter_singleton_split {A} (P : A → Prop) `{!∀ x, Decision (P x)}
    (l : list A) (x : A) :
  filter P l = [x] →
  ∃ l1 l2, l = l1 ++ x :: l2 ∧
           Forall (λ y, ¬ P y) l1 ∧ Forall (λ y, ¬ P y) l2.
Proof.
  induction l as [|y l IH]; [done|]. rewrite filter_cons. case_decide as Hy.
  - intros [= -> Hl]. exists [], l. split_and!; [done|constructor|].
    apply list.Forall_forall. intros z Hz Hpz.
    assert (z ∈ filter P l) as Hin by (by apply list_elem_of_filter).
    rewrite Hl in Hin. by apply elem_of_nil in Hin.
  - intros (l1 & l2 & -> & H1 & H2)%IH. exists (y :: l1), l2.
    split_and!; [done|by constructor|done].
Qed.

Lemma filter_bind {A B} (P : B → Prop) `{!∀ x, Decision (P x)}
    (f : A → list B) (l : list A) :
  filter P (l ≫= f) = l ≫= (λ x, filter P (f x)).
Proof.
  induction l as [|x l IH]; [done|].
  by rewrite !bind_cons, list.filter_app, IH.
Qed.

(** A click that passes through the toggle runs the toggle's listener
    once. *)
Lemma toggle_listener_once (p : Page) (nav tog t : node) (ss : list Stimulus)
    (e : Event) :
  readyState p ≠ loading →
  getElementById "navLinks" p = Some nav →
  getElementById "mobileMenuToggle" p = Some tog →
  ev_type e = click → target e = Elem t →
  tog ∈ t :: ancestors (elems p t) →
  NoDup (t :: ancestors (elems p t)) →
  filter (λ l, callback l = toggle_click) (listeners_for e (run ss (load p))) =
    [toggle_listener tog].
Proof.
  intros Hr Hnav Htog Hty Htg Hin Hnd.
  destruct (load_registry p nav tog Hr Hnav Htog)
    as (_ & _ & [_ Htree0] & _).
  destruct (run_settled p nav tog ss Hr Hnav Htog)
    as [(_ & _ & _ & Hls) [_ Htree]].
  destruct (load_click_registry p nav tog Hr Hnav Htog) as (extra & Hx & Hextra).
  unfold listeners_for. rewrite filter_bind, Hls, Hty, Hx.
  rewrite (click_path _ e t) by done.
  destruct (Htree t) as (_ & -> & _). destruct (Htree0 t) as (_ & -> & _).
  change (elems (page (fresh p)) t) with (elems p t).
  assert (∀ tgt,
            filter (λ l, callback l = toggle_click)
              (listeners_on click
                 (toggle_listener tog ::
                  (navlink_listener <$> querySelectorAll_class "nav-link" p) ++
                  document_click_listener :: extra) tgt) =
            if decide (Elem tog = tgt) then [toggle_listener tog] else [])
    as Hon.
  { intros tgt. unfold listeners_on. rewrite list_filter_filter, filter_cons.
    rewrite (filter_none _ (_ ++ _)).
    - cbn [toggle_listener callback on_target on_type].
      destruct (decide (Elem tog = tgt)).
      + by rewrite decide_True.
      + rewrite decide_False; [done|]. tauto.
    - apply Forall_app. split; [|constructor].
      + apply list.Forall_forall.
        intros l (link & -> & _)%list_elem_of_fmap [[=] _].
      + intros [[=] _].
      + eapply list.Forall_impl; [exact Hextra|].
        intros l Hl (Hcb & _ & Hty'). specialize (Hl Hty'). congruence. }
  rewrite bind_app.
  rewrite (bind_ext_in _ (λ tgt, if decide (Elem tog = tgt)
                                 then [toggle_listener tog] else [])
             (Elem <$> _)) by (intros; apply Hon).
  rewrite (bind_elem_once tog _ _ Hnd), decide_True by done.
  rewrite !bind_cons, !Hon.
  rewrite (decide_False (P := Elem tog = Document)) by done.
  by rewrite (decide_False (P := Elem tog = Window)) by done.
Qed.

(** X4.  On a ready page with menu and toggle, after any history, a click
    on the toggle, or inside it, flips the menu: from closed, all four
    indicators say open afterwards; from open, all four say closed.  (The
    toggle is not inside a nav link, and an element's ancestor chain names
    no element twice.) *)
Theorem toggle_click_flips_menu (p : Page) (nav tog t : node)
    (ss : list Stimulus) (e : Event) :
  readyState p ≠ loading →
  getElementById "navLinks" p = Some nav →
  getElementById "mobileMenuToggle" p = Some tog →
  ev_type e = click → target e = Elem t →
  tog ∈ t :: ancestors (elems p t) →
  NoDup (t :: ancestors (elems p t)) →
  Forall (λ m, m ∉ querySelectorAll_class "nav-link" p)
         (t :: ancestors (elems p t)) →
  let w := run ss (load p) in
  let w' := step (Dispatch e) w in
  (menu_closed w → menu_open w') ∧ (menu_open w → menu_closed w').
Proof.
  intros Hr Hnav Htog Hty Htg Hin Hnd Hlinks w w'.
  destruct (click_listeners_for p nav tog t ss e Hr Hnav Htog Hty Htg)
    as [Hctx Hfor].
  pose proof (toggle_listener_once p nav tog t ss e Hr Hnav Htog Hty Htg Hin Hnd)
    as (l1 & l2 & Hl & Hl1 & Hl2)%filter_singleton_split.
  assert (∀ ls, ls ⊆ listeners_for e (run ss (load p)) →
            Forall (λ y, callback y ≠ toggle_click) ls →
            Forall (λ l, callback l = document_click ∨ callback l = anchor_click) ls)
    as Hby.
  { intros ls Hsub Hls. apply list.Forall_forall. intros l Hlin.
    rewrite list.Forall_forall in Hls.
    destruct (click_off_links p nav tog t ss e l Hr Hnav Htog Hty Htg Hlinks)
      as [->|Hcb]; [by apply Hsub| |done].
    by destruct (Hls _ Hlin). }
  assert (nav ≠ tog) as Hne
    by (by apply (getElementById_distinct p "navLinks" "mobileMenuToggle")).
  assert (w' = foldl (invoke e) (set_defaultPrevented false w) (l1 ++ toggle_listener tog :: l2))
    as -> by (unfold w', w; cbn [step]; unfold dispatchEvent; by rewrite Hl).
  destruct (invoke_toggle nav tog t (ancestors (elems p t)) e Htg l1 l2
              (toggle_listener tog) (set_defaultPrevented false w))
    as [Hopen Hclose]; try done.
  - intros [_ Hout]. done.
  - apply Hby; [|done]. rewrite Hl. set_solver.
  - apply Hby; [|done]. rewrite Hl. set_solver.
Qed.

Lemma outside_click_closes_menu_witness :
  menu_closed
    (step (Dispatch (Sample.click_on Sample.pricing_id))
          (run [Dispatch (Sample.click_on Sample.toggle_id)] (load Sample.doc))).
Proof.
  apply (outside_click_closes_menu Sample.doc Sample.menu_id Sample.toggle_id
           Sample.pricing_id);
    [done|reflexivity|reflexivity|reflexivity|reflexivity
    |split; compute_done|compute_done].
Defined.

Lemma navlink_click_closes_menu_witness :
  menu_closed
    (step (Dispatch (Sample.click_on Sample.link2_id))
          (run [Dispatch (Sample.click_on Sample.toggle_id)] (load Sample.doc))).
Proof.
  apply (navlink_click_closes_menu Sample.doc Sample.menu_id Sample.toggle_id
           Sample.link2_id Sample.link2_id);
    [done|reflexivity|reflexivity|reflexivity|reflexivity
    |compute_done|compute_done|compute_done].
Defined.

Lemma click_inside_menu_keeps_state_witness :
  body_overflow (page
    (step (Dispatch (Sample.click_on Sample.menu_id))
          (run [Dispatch (Sample.click_on Sample.toggle_id)] (load Sample.doc)))) =
  body_overflow (page
    (run [Dispatch (Sample.click_on Sample.toggle_id)] (load Sample.doc))).
Proof.
  destruct (click_inside_menu_keeps_state Sample.doc Sample.menu_id
              Sample.toggle_id Sample.menu_id
              [Dispatch (Sample.click_on Sample.toggle_id)]
              (Sample.click_on Sample.menu_id))
    as (_ & _ & H);
    [done|reflexivity|reflexivity|reflexivity|reflexivity
    |compute_done|compute_done|compute_done|exact H].
Defined.

Lemma toggle_click_flips_menu_witness :
  menu_closed (run [] (load Sample.doc)) ∧
  menu_open (step (Dispatch (Sample.click_on Sample.toggle_id))
                  (run [] (load Sample.doc))).
Proof.
  assert (menu_closed (run [] (load Sample.doc))) as Hc.
  { split_and!.
    - intros nav [= <-]. compute_done.
    - intros tog [= <-]. split; [compute_done|vm_compute; reflexivity].
    - reflexivity. }
  split; [exact Hc|].
  destruct (toggle_click_flips_menu Sample.doc Sample.menu_id Sample.toggle_id
              Sample.toggle_id [] (Sample.click_on Sample.toggle_id))
    as [Hopen _];
    [done|reflexivity|reflexivity|reflexivity|reflexivity
    |compute_done|compute_done|compute_done|].
  exact (Hopen Hc).
Defined.

(** ** Registry invariants *)

(** Every registered listener satisfies [P], and the listeners [must] are
    registered. *)
Definition registry_inv (P : Listener → Prop) (must : list Listener)
    (w : World) : Prop :=
  Forall P (listeners (script w)) ∧ must ⊆ listeners (script w).

Lemma registry_inv_appends (P : Listener → Prop) (must : list Listener)
    (w w' : World) :
  appends P w w' → registry_inv P must w → registry_inv P must w'.
Proof.
  intros (_ & _ & extra & Hx & Hextra) [HP Hmust].
  unfold registry_inv. rewrite Hx. split.
  - by apply Forall_app.
  - intros l Hl. apply elem_of_app. left. by apply Hmust.
Qed.

Ltac appends_leaf_by tac :=
  let w := fresh "w" in
  intros w; split_and!; [reflexivity..|]; world_simpl;
  first
    [ exists []; split; [by rewrite app_nil_r|constructor]
    | eexists [_]; split; [reflexivity|]; constructor; [|constructor]; tac ].

(** An invariant of the registry holds for ever if everything the browser
    can run only appends listeners that satisfy it. *)
Lemma registry_loop_invariant (P : Listener → Prop) (must : list Listener) :
  (∀ cb this e, keeps (appends P) (call cb this e)) →
  loop_invariant (registry_inv P must) (λ _, True).
Proof.
  intros Hcall.
  assert (∀ (m : Js unit) w, keeps (appends P) m →
            registry_inv P must w → registry_inv P must (run_task m w)) as Htask.
  { intros m w Hm. apply registry_inv_appends.
    apply keeps_run_task; [apply _|done|]. intros err. appends_leaf_by idtac. }
  assert (∀ (f : World → World) w, (∀ w, appends P w (f w)) →
            registry_inv P must w → registry_inv P must (f w)) as Hupd.
  { intros f w Hf. apply registry_inv_appends, Hf. }
  split.
  - done.
  - intros w l e Hw _. by apply Htask.
  - intros w b. apply Hupd. appends_leaf_by idtac.
  - intros w y. apply Hupd. appends_leaf_by idtac.
  - intros w late _. apply Hupd. appends_leaf_by idtac.
  - intros w _. apply Hupd. appends_leaf_by idtac.
  - intros w l h. apply Hupd. appends_leaf_by idtac.
  - intros w m. apply Hupd. appends_leaf_by idtac.
  - intros w. apply Hupd. appends_leaf_by idtac.
  - intros w o es. apply Htask. keeps_auto; appends_leaf_by idtac.
  - intros w. apply Htask. keeps_auto; appends_leaf_by idtac.
  - intros w. apply Htask. keeps_auto; appends_leaf_by idtac.
Qed.

(** ** Button hover *)

Definition mouseenter_listener (b : node) : Listener :=
  {| on_target := Elem b; on_type := mouseenter; callback := button_mouseenter |}.

Definition mouseleave_listener (b : node) : Listener :=
  {| on_target := Elem b; on_type := mouseleave; callback := button_mouseleave |}.

(** Only the hover listeners listen for [mouseenter] and [mouseleave]. *)
Definition hover_only (l : Listener) : Prop :=
  (on_type l = mouseenter → callback l = button_mouseenter) ∧
  (on_type l = mouseleave → callback l = button_mouseleave).

Ltac hover_leaf := appends_leaf_by ltac:(by split).

Lemma call_appends_hover_only (cb : Callback) (this : EventTarget) (e : Event) :
  keeps (appends hover_only) (call cb this e).
Proof. destruct cb; simpl; keeps_auto; hover_leaf. Qed.

(** The classes the script queries but never writes. *)
Definition same_buttons : relation World := λ w w',
  document_order (page w') = document_order (page w) ∧
  ∀ m, "btn-primary" ∈ classList (elems (page w') m) ↔
       "btn-primary" ∈ classList (elems (page w) m).

Global Instance same_buttons_preorder : PreOrder same_buttons.
Proof.
  split.
  - by intros w.
  - intros w1 w2 w3 [Ha Ha'] [Hb Hb']. split; [congruence|].
    intros m. by rewrite Hb'.
Qed.

Ltac same_buttons_leaf :=
  let w := fresh "w" in let m := fresh "m" in
  intros w; split; [reflexivity|]; intros m; world_simpl;
  first [ done | rewrite alter_lookup; case_decide; simpl; set_solver ].

Lemma querySelectorAll_buttons_same (w w' : World) :
  same_buttons w w' →
  querySelectorAll_class "btn-primary" (page w') =
    querySelectorAll_class "btn-primary" (page w).
Proof.
  intros [Ho Hm]. unfold querySelectorAll_class. rewrite Ho.
  by apply list_filter_iff.
Qed.

Lemma forEach_registers_hover (l : list node) (w : World) (b : node) :
  b ∈ l →
  [mouseenter_listener b; mouseleave_listener b] ⊆
    listeners (script (exec (forEach l (λ button,
       addEventListener (Elem button) mouseenter button_mouseenter;;
       addEventListener (Elem button) mouseleave button_mouseleave)) w)).
Proof.
  revert w. induction l as [|x l IH]; intros w Hb; [by apply elem_of_nil in Hb|].
  cbn [forEach]. rewrite exec_seq by returns_auto.
  apply elem_of_cons in Hb as [->|Hb]; [|by apply IH].
  intros l0 Hl0. apply registered_kept; [keeps_auto; appends_leaf|].
  unfold exec, addEventListener. js_run. set_solver.
Qed.

(** Loading a ready page puts both hover listeners on every element of
    class [btn-primary], and nothing else listens for the two events. *)
Lemma load_hover_wired (p : Page) (b : node) :
  readyState p ≠ loading →
  b ∈ querySelectorAll_class "btn-primary" p →
  registry_inv hover_only [mouseenter_listener b; mouseleave_listener b] (load p).
Proof.
  intros Hr Hb. split.
  - assert (appends hover_only (bound p (fresh p)) (load p))
      as (_ & _ & extra & Hx & Hextra); [|by rewrite Hx].
    rewrite load_unfold.
    assert (keeps (appends hover_only)
              (init ;; modify (set_script (set_reinitAnimations true)))) as Hk
      by (keeps_auto; hover_leaf).
    specialize (Hk (bound p (fresh p))). revert Hk.
    rewrite bind_unfold. destruct (init_returns (bound p (fresh p))) as [[] Hi].
    unfold exec. destruct (init (bound p (fresh p))) as [[[]|err] w']; [done|].
    discriminate Hi.
  - rewrite load_unfold, init_ready by done.
    unfold init_features. rewrite 4!exec_seq by returns_auto.
    set (w4 := exec initSmoothScroll _).
    assert (same_buttons (fresh p) w4) as Hsame.
    { unfold w4.
      do 4 (apply keeps_exec_chain; [apply _|keeps_auto; same_buttons_leaf|]).
      by split. }
    rewrite exec_seq by returns_auto. world_simpl.
    intros l0 Hl0. apply registered_kept; [keeps_auto; appends_leaf|].
    revert l0 Hl0.
    assert (exec initButtonEffects w4 =
              exec (forEach (querySelectorAll_class "btn-primary" p)
                      (λ button,
                         addEventListener (Elem button) mouseenter button_mouseenter;;
                         addEventListener (Elem button) mouseleave button_mouseleave))
                   w4) as ->.
    { unfold exec, initButtonEffects. rewrite bind_unfold. unfold get at 1.
      cbv beta iota. by rewrite (querySelectorAll_buttons_same (fresh p) w4 Hsame). }
    by apply forEach_registers_hover.
Qed.

(** Hover listeners of [b], run one after the other, write the inline
    transform of [b] and nothing else. *)
Lemma invoke_hover (e : Event) (b : node) (cb : Callback) (v : string)
    (ls : list Listener) (w : World) :
  (∀ w, call cb (Elem b) e w =
          (Normal tt, set_page (set_elems (alter (set_style_transform v) b)) w)) →
  Forall (λ l, callback l = cb ∧ on_target l = Elem b) ls →
  foldl (invoke e) w ls =
    set_page (set_elems (λ _, elems (page (foldl (invoke e) w ls)))) w ∧
  ∀ m, elems (page (foldl (invoke e) w ls)) m =
       if decide (b = m)
       then Nat.iter (length ls) (set_style_transform v) (elems (page w) m)
       else elems (page w) m.
Proof.
  intros Hcb Hls. revert w. induction Hls as [|l ls [Hl1 Hl2] _ IH]; intros w.
  - split; [by destruct w as [[] ? ? ? ? ?]|]. intros m. simpl. by case_decide.
  - cbn [foldl length].
    assert (invoke e w l =
              set_page (set_elems (alter (set_style_transform v) b)) w) as ->.
    { unfold invoke, run_task. by rewrite Hl1, Hl2, Hcb. }
    destruct (IH (set_page (set_elems (alter (set_style_transform v) b)) w))
      as [IH1 IH2].
    split; [exact IH1|]. intros m. rewrite IH2, Nat.iter_succ_r.
    world_simpl. rewrite alter_lookup. by case_decide.
Qed.

(** X5.  On a ready page, after any history, for every element [b] of
    class [btn-primary]: a [mouseenter] on [b] leaves its inline
    transform at ["translateY(-2px) scale(1.02)"], a [mouseleave] at
    ["translateY(0) scale(1)"] (not at what the markup had); the rest of
    [b], every other element, the script's state and the rest of the
    world are as before, and nothing is thrown. *)
Theorem button_hover_sets_transform (p : Page) (b : node) (ss : list Stimulus)
    (e : Event) :
  readyState p ≠ loading →
  b ∈ querySelectorAll_class "btn-primary" p →
  target e = Elem b →
  let w := run ss (load p) in
  let w' := step (Dispatch e) w in
  let lifted v m :=
    if decide (b = m) then set_style_transform v (elems (page w) m)
    else elems (page w) m in
  (ev_type e = mouseenter →
     w' = set_page (set_elems (λ _, elems (page w')))
            (set_defaultPrevented false w) ∧
     ∀ m, elems (page w') m = lifted "translateY(-2px) scale(1.02)" m) ∧
  (ev_type e = mouseleave →
     w' = set_page (set_elems (λ _, elems (page w')))
            (set_defaultPrevented false w) ∧
     ∀ m, elems (page w') m = lifted "translateY(0) scale(1)" m).
Proof.
  intros Hr Hb Htg w w' lifted.
  pose proof (run_inv _ _
    (registry_loop_invariant hover_only
       [mouseenter_listener b; mouseleave_listener b] call_appends_hover_only)
    ss (load p) (load_hover_wired p b Hr Hb)) as [Honly Hmust].
  fold w in Honly, Hmust. rewrite list.Forall_forall in Honly.
  assert (∀ ty cb l0 v,
            ty = mouseenter ∨ ty = mouseleave →
            (∀ l, hover_only l → on_type l = ty → callback l = cb) →
            l0 ∈ listeners (script w) → on_type l0 = ty → on_target l0 = Elem b →
            (∀ w, call cb (Elem b) e w =
               (Normal tt,
                set_page (set_elems (alter (set_style_transform v) b)) w)) →
            ev_type e = ty →
            w' = set_page (set_elems (λ _, elems (page w')))
                   (set_defaultPrevented false w) ∧
            ∀ m, elems (page w') m = lifted v m) as Hgen.
  { intros ty cb l0 v Hty Hcb Hl0 Hl0ty Hl0tg Hcall Hety.
    assert (listeners_for e w =
              listeners_on ty (listeners (script w)) (Elem b)) as Hfor.
    { unfold listeners_for, propagation_path. rewrite Htg, Hety.
      destruct Hty as [-> | ->]; cbn [bubbles]; by rewrite bind_cons, app_nil_r. }
    assert (Forall (λ l, callback l = cb ∧ on_target l = Elem b)
              (listeners_for e w)) as Hls.
    { rewrite Hfor. apply list.Forall_forall.
      intros l [[Hl1 Hl2] Hl3]%list_elem_of_filter. split; [|done].
      apply Hcb; [by apply Honly|done]. }
    assert (l0 ∈ listeners_for e w) as Hin
      by (rewrite Hfor; by apply list_elem_of_filter).
    destruct (invoke_hover e b cb v (listeners_for e w)
                (set_defaultPrevented false w) Hcall Hls) as [H1 H2].
    split; [exact H1|]. intros m. unfold w'. cbn [step]. unfold dispatchEvent.
    rewrite H2. unfold lifted. world_simpl. case_decide; [|done].
    destruct (listeners_for e w) as [|l ls']; [by apply elem_of_nil in Hin|].
    cbn [length]. by rewrite iter_idemp. }
  split; intros Hety.
  - apply (Hgen mouseenter button_mouseenter (mouseenter_listener b));
      try done; [by left|by intros l [? _]|apply Hmust; set_solver].
  - apply (Hgen mouseleave button_mouseleave (mouseleave_listener b));
      try done; [by right|by intros l [_ ?]|apply Hmust; set_solver].
Qed.

Lemma button_hover_sets_transform_witness :
  style_transform (elems (page
    (step (Dispatch (plain_event mouseleave (Elem Sample.cta_id)))
          (run [Dispatch (plain_event mouseenter (Elem Sample.cta_id))]
               (load Sample.doc)))) Sample.cta_id) =
  "translateY(0) scale(1)".
Proof.
  destruct (button_hover_sets_transform Sample.doc Sample.cta_id
              [Dispatch (plain_event mouseenter (Elem Sample.cta_id))]
              (plain_event mouseleave (Elem Sample.cta_id)))
    as [_ Hleave]; [done|compute_done|reflexivity|].
  destruct Hleave as [_ Hm]; [reflexivity|].
  rewrite Hm. reflexivity.
Defined.

(** ** The initial viewport check *)

(** Line 252: the test [checkInitialView] applies to an element's rect. *)
Definition isInViewport (p : Page) (n : node) : bool :=
  PrimFloat.ltb (rect_top (boundingClientRect p n)) (innerHeight p) &&
  PrimFloat.ltb 0%float (rect_bottom (boundingClientRect p n)).

Definition add_visible (e : Element) : Element :=
  set_classList (λ cs, cs ∪ {["visible"]}) e.

Lemma add_visible_idemp (e : Element) : add_visible (add_visible e) = add_visible e.
Proof. unfold add_visible, set_classList. simpl. f_equal. set_solver. Qed.

Lemma world_eta_elems (w : World) :
  w = set_page (set_elems (λ _, elems (page w))) w.
Proof. by destruct w as [[] ? ? ? ? ?]. Qed.

(** The loop reads each rect after the classes it has added so far.  The
    rects are those of the start when the layout engine does not look at
    the class [c] the loop adds: two snapshots that differ only in which
    elements carry [c] get the same rects. *)
Definition without_class (c : string) (s : Snapshot) : Snapshot :=
  {| snap_elements :=
       (λ ne, (ne.1, set_classList (λ cs, cs ∖ {[c]}) ne.2)) <$> snap_elements s;
     snap_body_overflow := snap_body_overflow s;
     snap_activeElement := snap_activeElement s;
     snap_pageYOffset := snap_pageYOffset s;
     snap_innerHeight := snap_innerHeight s |}.

Definition ignores_class (c : string) (l : Snapshot → node → DOMRect) : Prop :=
  ∀ s s' n, without_class c s = without_class c s' → l s n = l s' n.

Lemma isInViewport_add_visible (x n : node) (w : World) :
  ignores_class "visible" (layout (page w)) →
  isInViewport (page (set_page (set_elems (alter add_visible x)) w)) n =
    isInViewport (page w) n.
Proof.
  intros Hl. unfold isInViewport, boundingClientRect. world_simpl.
  rewrite (Hl (snapshot (set_elems (alter add_visible x) (page w)))
              (snapshot (page w)) n); [done|].
  unfold without_class, snapshot. cbn. f_equal.
  rewrite <- !list_fmap_compose. apply list_fmap_ext. intros i m _. cbn.
  f_equal. rewrite alter_lookup. case_decide; [|done].
  unfold add_visible, set_classList. cbn. f_equal. set_solver.
Qed.

(** The loop of lines 250-256 over any list of elements. *)
Lemma forEach_check (l : list node) (w : World) :
  ignores_class "visible" (layout (page w)) →
  let body := λ el : node,
    rect ← getBoundingClientRect el;
    w' ← get;
    let isInViewport :=
      PrimFloat.ltb (rect_top rect) (innerHeight (page w')) &&
      PrimFloat.ltb 0%float (rect_bottom rect) in
    if isInViewport then classList_add el "visible" else mret tt in
  let w' := exec (forEach l body) w in
  (forEach l body w).1 = Normal tt ∧
  w' = set_page (set_elems (λ _, elems (page w'))) w ∧
  ∀ n, elems (page w') n =
       if decide (n ∈ l ∧ isInViewport (page w) n = true)
       then add_visible (elems (page w) n) else elems (page w) n.
Proof.
  intros Hlay body. revert w Hlay. induction l as [|x l IH]; intros w Hlay w'.
  - split_and!; [done|apply world_eta_elems|]. intros n.
    rewrite decide_False; [done|]. intros [[]%elem_of_nil _].
  - assert (body x w =
              (Normal tt,
               if isInViewport (page w) x
               then set_page (set_elems (alter add_visible x)) w else w)) as Hx.
    { unfold body, getBoundingClientRect, isInViewport. js_run.
      by destruct (_ && _). }
    subst w'. unfold exec. cbn [forEach]. rewrite bind_unfold, Hx.
    cbv beta iota.
    destruct (isInViewport (page w) x) eqn:Hin.
    + destruct (IH (set_page (set_elems (alter add_visible x)) w) Hlay)
        as (H1 & H2 & H3).
      unfold exec in *. split_and!; [done|exact H2|].
      intros n. rewrite H3, (isInViewport_add_visible x n w Hlay).
      world_simpl. rewrite alter_lookup.
      destruct (decide (x = n)) as [->|Hne].
      * rewrite (decide_True (P := n ∈ n :: l ∧ _)) by (split; [left|done]).
        case_decide; [apply add_visible_idemp|done].
      * destruct (decide (n ∈ l ∧ isInViewport (page w) n = true)) as [[? ?]|Hn].
        -- rewrite decide_True; [done|]. split; [by right|done].
        -- rewrite decide_False; [done|].
           intros [[?|?]%elem_of_cons ?]; [congruence|tauto].
    + destruct (IH w Hlay) as (H1 & H2 & H3).
      unfold exec in *. split_and!; [done|exact H2|].
      intros n. rewrite H3.
      destruct (decide (n ∈ l ∧ isInViewport (page w) n = true)) as [[? ?]|Hn].
      * rewrite decide_True; [done|]. split; [by right|done].
      * rewrite decide_False; [done|].
        intros [[->|?]%elem_of_cons ?]; [congruence|tauto].
Qed.

(** X6.  When the timer set by [init] fires, the viewport check adds
    [visible] to exactly the elements of the document that carry
    [fade-in] or [fade-in-up] and whose rect has its top above the
    viewport's bottom edge and its bottom below the viewport's top edge
    (both strictly); every other element, and everything else in the
    world but the timer count, is as before, and nothing is thrown.  The
    check reads each rect after the classes it has added so far; the
    rects meant are those at the start, which needs a layout that does not
    depend on which elements carry [visible]. *)
Theorem initial_view_check_reveals (w : World) :
  timers (script w) ≠ 0 →
  ignores_class "visible" (layout (page w)) →
  let w' := step TimerFired w in
  w' = set_page (set_elems (λ _, elems (page w')))
         (set_script (set_timers pred) w) ∧
  ∀ n, elems (page w') n =
       if decide (n ∈ document_order (page w) ∧ animatable (page w) n ∧
                  isInViewport (page w) n = true)
       then add_visible (elems (page w) n) else elems (page w) n.
Proof.
  intros Ht Hlay w'. subst w'. cbn [step].
  destruct (timers (script w)) as [|k] eqn:Hk; [done|].
  set (w1 := set_script (set_timers pred) w).
  destruct (forEach_check (querySelectorAll_animatable (page w1)) w1 Hlay)
    as (H1 & H2 & H3).
  assert (run_task checkInitialView w1 =
            exec (forEach (querySelectorAll_animatable (page w1)) (λ el : node,
              rect ← getBoundingClientRect el;
              w' ← get;
              let isInViewport :=
                PrimFloat.ltb (rect_top rect) (innerHeight (page w')) &&
                PrimFloat.ltb 0%float (rect_bottom rect) in
              if isInViewport then classList_add el "visible" else mret tt)) w1)
    as ->.
  { unfold run_task, exec, checkInitialView. rewrite bind_unfold.
    unfold get at 1. cbv beta iota.
    destruct (forEach _ _ w1) as [[[]|err] w2]; [done|discriminate H1]. }
  split; [exact H2|]. intros n. rewrite H3.
  change (page w1) with (page w). unfold querySelectorAll_animatable.
  apply decide_ext. rewrite list_elem_of_filter. tauto.
Qed.

Lemma initial_view_check_reveals_witness :
  visible Sample.features_id (step TimerFired (load Sample.doc)) ∧
  ¬ visible Sample.pricing_id (step TimerFired (load Sample.doc)).
Proof.
  destruct (initial_view_check_reveals (load Sample.doc)) as [_ Hn];
    [compute_done|by intros s s' n _|].
  unfold visible. rewrite !Hn. split.
  - rewrite decide_True by (split_and!; [compute_done|compute_done|reflexivity]).
    unfold add_visible. simpl. set_solver.
  - rewrite decide_False.
    + compute_done.
    + intros (_ & _ & Hv). vm_compute in Hv. discriminate Hv.
Defined.

(** A layout in which the second section moves up into the viewport once
    the first carries [visible]: the check, which reads each rect when it
    comes to the element, reveals both, the second on a rect that it did
    not have at the start. *)
Definition shifting_rects (s : Snapshot) (n : node) : DOMRect :=
  match n with
  | 5 => {| rect_top := 100%float; rect_bottom := 700%float |}
  | 6 =>
      if bool_decide (Exists (λ ne, ne.1 = 5 ∧ "visible" ∈ classList ne.2)
                             (snap_elements s))
      then {| rect_top := 700%float; rect_bottom := 1300%float |}
      else {| rect_top := 900%float; rect_bottom := 1500%float |}
  | _ => {| rect_top := 0%float; rect_bottom := 64%float |}
  end.

Definition shifting_doc : Page := set_layout shifting_rects 800%float Sample.doc.

Example viewport_check_reads_present_rects :
  isInViewport (page (load shifting_doc)) Sample.pricing_id = false ∧
  visible Sample.pricing_id (step TimerFired (load shifting_doc)).
Proof. split; [vm_compute; reflexivity|compute_done]. Qed.

(** ** The timer is set once *)

(** A ready page's registry never holds [init]. *)
Lemma load_no_init (p : Page) :
  readyState p ≠ loading →
  Forall (λ l, callback l ≠ init_callback) (listeners (script (load p))).
Proof.
  intros Hr. rewrite load_unfold, init_ready by done. world_simpl.
  assert (appends (λ l, callback l ≠ init_callback) (bound p (fresh p))
            (exec init_features (bound p (fresh p))))
    as (_ & _ & extra & Hx & Hextra); [|by rewrite Hx].
  apply keeps_exec_chain; [apply _| |reflexivity].
  keeps_auto; appends_leaf_by ltac:(done).
Qed.

(** No listener but [init] sets a timer or touches the registry. *)
Definition timers_spent : relation World := λ w w',
  listeners (script w') = listeners (script w) ∧
  timers (script w') ≤ timers (script w).

Global Instance timers_spent_preorder : PreOrder timers_spent.
Proof.
  split.
  - by intros w.
  - intros w1 w2 w3 [? ?] [? ?]. split; [congruence|lia].
Qed.

Ltac timers_spent_leaf :=
  let w := fresh "w" in
  intros w; split; world_simpl; [reflexivity|lia].

Lemma call_keeps_timers_spent (cb : Callback) (this : EventTarget) (e : Event) :
  cb ≠ init_callback → keeps timers_spent (call cb this e).
Proof. destruct cb; try done; intros _; simpl; keeps_auto; timers_spent_leaf. Qed.

Lemma timers_spent_loop_invariant (w0 : World) :
  Forall (λ l, callback l ≠ init_callback) (listeners (script w0)) →
  loop_invariant (timers_spent w0) (λ l, callback l ≠ init_callback).
Proof.
  intros Hno.
  assert (∀ (m : Js unit) w, keeps timers_spent m →
            timers_spent w0 w → timers_spent w0 (run_task m w)) as Htask.
  { intros m w Hm Hw. etrans; [exact Hw|].
    apply keeps_run_task; [apply _|done|]. intros err. timers_spent_leaf. }
  assert (∀ (f : World → World) w, (∀ w, timers_spent w (f w)) →
            timers_spent w0 w → timers_spent w0 (f w)) as Hupd.
  { intros f w Hf Hw. etrans; [exact Hw|apply Hf]. }
  split.
  - intros w l [Hl _] Hin. rewrite list.Forall_forall in Hno. apply Hno.
    by rewrite <- Hl.
  - intros w l e Hw Hl. unfold invoke.
    apply Htask; [by apply call_keeps_timers_spent|done].
  - intros w b. apply Hupd. timers_spent_leaf.
  - intros w y. apply Hupd. timers_spent_leaf.
  - intros w late _. apply Hupd. timers_spent_leaf.
  - intros w _. apply Hupd. timers_spent_leaf.
  - intros w l h. apply Hupd. timers_spent_leaf.
  - intros w m. apply Hupd. timers_spent_leaf.
  - intros w. apply Hupd. timers_spent_leaf.
  - intros w o es. apply Htask. keeps_auto; timers_spent_leaf.
  - intros w. apply Htask. keeps_auto; timers_spent_leaf.
  - intros w. apply Htask. keeps_auto; timers_spent_leaf.
Qed.

Definition same_timers : relation World := λ w w',
  timers (script w') = timers (script w).

Global Instance same_timers_preorder : PreOrder same_timers.
Proof.
  split; [by intros w|]. intros w1 w2 w3. unfold same_timers. congruence.
Qed.

Lemma init_features_head_keeps_timers (w : World) :
  same_timers w
    (exec initKeyboardNavigation (exec initButtonEffects (exec initSmoothScroll
      (exec initScrollAnimations (exec initNavbarScroll
        (exec initMobileMenu w)))))).
Proof.
  do 6 (apply keeps_exec_chain;
        [apply _|keeps_auto; intros w'; reflexivity|]).
  reflexivity.
Qed.

Lemma load_sets_one_timer (p : Page) :
  readyState p ≠ loading → timers (script (load p)) = 1.
Proof.
  intros Hr. rewrite load_unfold, init_ready by done. unfold init_features.
  rewrite 6!exec_seq by returns_auto.
  change (S (timers (script
            (exec initKeyboardNavigation (exec initButtonEffects
              (exec initSmoothScroll (exec initScrollAnimations
                (exec initNavbarScroll
                  (exec initMobileMenu (bound p (fresh p)))))))))) = 1).
  by rewrite (init_features_head_keeps_timers (bound p (fresh p))).
Qed.

(** X7.  On a ready page the script sets the timer for the viewport check
    exactly once, while loading; once that timer has fired, no later turn
    of the event loop runs the check again. *)
Theorem initial_view_check_runs_once (p : Page) (ss1 ss2 : list Stimulus) :
  readyState p ≠ loading →
  timers (script (load p)) = 1 ∧
  step TimerFired (run ss2 (step TimerFired (run ss1 (load p)))) =
    run ss2 (step TimerFired (run ss1 (load p))).
Proof.
  intros Hr.
  pose proof (load_sets_one_timer p Hr) as Hone.
  split; [exact Hone|].
  pose proof (load_no_init p Hr) as Hno.
  set (w1 := run ss1 (load p)).
  assert (timers_spent (load p) w1) as [Hl1 Ht1].
  { apply (run_inv _ _ (timers_spent_loop_invariant (load p) Hno)). reflexivity. }
  set (w2 := step TimerFired w1).
  assert (listeners (script w2) = listeners (script (load p)) ∧
          timers (script w2) = 0) as [Hl2 Ht2].
  { assert (timers_spent (load p) w2) as [? ?].
    { apply (step_inv _ _ (timers_spent_loop_invariant (load p) Hno)).
      by split. }
    split; [done|]. unfold w2. cbn [step].
    destruct (timers (script w1)) as [|[|k]] eqn:Hk; [done| |lia].
    assert (timers_spent (set_script (set_timers pred) w1)
              (run_task checkInitialView (set_script (set_timers pred) w1)))
      as [_ Hle].
    { apply keeps_run_task; [apply _| |intros err; timers_spent_leaf].
      keeps_auto; timers_spent_leaf. }
    revert Hle. world_simpl. rewrite Hk. simpl. lia. }
  assert (timers_spent w2 (run ss2 w2)) as [_ Ht3].
  { assert (Forall (λ l, callback l ≠ init_callback) (listeners (script w2)))
      as Hno2 by (by rewrite Hl2).
    apply (run_inv _ _ (timers_spent_loop_invariant w2 Hno2)). reflexivity. }
  cbn [step]. destruct (timers (script (run ss2 w2))); [done|lia].
Qed.

Lemma initial_view_check_runs_once_witness :
  step TimerFired
    (run [Scrolled 60%float] (step TimerFired (run [] (load Sample.doc)))) =
  run [Scrolled 60%float] (step TimerFired (run [] (load Sample.doc))).
Proof.
  apply (initial_view_check_runs_once Sample.doc [] [Scrolled 60%float]).
  done.
Defined.

(** ** Observer setup *)

Lemma world_eta_observers (w : World) :
  w = set_script (set_observers (λ _, observers (script w))) w.
Proof. by destruct w as [? [] ? ? ? ?]. Qed.

(** Lines 120-122 over any list of elements: the observer in the last
    slot gains them as targets. *)
Lemma forEach_observe (l : list node) (os : list (gset node)) (ts : gset node)
    (w : World) :
  observers (script w) = os ++ [ts] →
  exec (forEach l (λ el, observe (length os) el)) w =
    set_script (set_observers (λ _, os ++ [ts ∪ list_to_set l])) w.
Proof.
  revert ts w. induction l as [|x l IH]; intros ts w Hw.
  - unfold exec. simpl. rewrite (right_id_L ∅ (∪)), <- Hw.
    apply world_eta_observers.
  - cbn [forEach]. rewrite exec_seq by returns_auto.
    rewrite (IH (ts ∪ {[x]})).
    + unfold exec, observe, modify. cbn [list_to_set].
      unfold set_script, set_observers. simpl. do 4 f_equal. set_solver.
    + unfold exec, observe, modify. world_simpl. rewrite Hw.
      rewrite alter_app_r_alt by done. by rewrite Nat.sub_diag.
Qed.

(** Lines 101-122: what [initScrollAnimations] does in a browser with
    [IntersectionObserver]. *)
Lemma initScrollAnimations_spec (w : World) :
  hasIntersectionObserver (page w) = true →
  exec initScrollAnimations w =
    set_script (set_observers (λ _,
      observers (script w) ++
      [list_to_set (querySelectorAll_animatable (page w))])) w.
Proof.
  intros Hio.
  set (w1 := set_script (set_observers (λ os, os ++ [∅])) w).
  unfold exec, initScrollAnimations. rewrite bind_unfold.
  unfold get at 1. cbv beta iota. rewrite Hio. cbn [negb].
  unfold new_IntersectionObserver. js_run. fold w1.
  match goal with
  | |- context [(?m w1).2] => change ((m w1).2) with (exec m w1)
  end.
  rewrite (forEach_observe _ (observers (script w)) ∅ w1 eq_refl).
  change (page w1) with (page w). by rewrite (left_id_L ∅ (∪)).
Qed.

(** X8.  In a browser with [IntersectionObserver], a call of
    [window.reinitAnimations], which the script sets to
    [initScrollAnimations], creates one new observer whose targets are
    exactly the elements of the document that carry [fade-in] or
    [fade-in-up], whether or not they are visible or observed already;
    the observers that exist keep their targets, and nothing else
    changes: no class is added. *)
Theorem initScrollAnimations_observes (w : World) :
  hasIntersectionObserver (page w) = true →
  reinitAnimations (script w) = true →
  let w' := step Reinit w in
  observers (script w') =
    observers (script w) ++ [list_to_set (querySelectorAll_animatable (page w))] ∧
  w' = set_script (set_observers (λ _, observers (script w'))) w ∧
  ∀ n, observed_by (length (observers (script w))) n w' ↔
       n ∈ document_order (page w) ∧ animatable (page w) n.
Proof.
  intros Hio Hre w'. subst w'. cbn [step]. rewrite Hre.
  rewrite run_task_returns by returns_auto.
  rewrite (initScrollAnimations_spec w Hio).
  world_simpl. split_and!; [done|done|].
  intros n. unfold observed_by. world_simpl.
  rewrite lookup_app_r by done. rewrite Nat.sub_diag. simpl. split.
  - intros (ts & [= <-] & Hn). apply elem_of_list_to_set in Hn.
    apply list_elem_of_filter in Hn. tauto.
  - intros [? ?]. eexists; split; [done|]. apply elem_of_list_to_set.
    by apply list_elem_of_filter.
Qed.

Lemma initScrollAnimations_observes_witness :
  observers (script (step Reinit (load Sample.doc))) =
    observers (script (load Sample.doc)) ++
    [list_to_set (querySelectorAll_animatable (page (load Sample.doc)))].
Proof.
  apply (initScrollAnimations_observes (load Sample.doc)); reflexivity.
Defined.

(** ** What an intersection report leaves alone *)

Definition untouched (n : node) : relation World := λ w w',
  elems (page w') n = elems (page w) n ∧
  ∀ o, observed_by o n w' ↔ observed_by o n w.

Global Instance untouched_preorder n : PreOrder (untouched n).
Proof.
  split.
  - by intros w.
  - intros w1 w2 w3 [Ha Ha'] [Hb Hb']. split; [congruence|].
    intros o. by rewrite Hb'.
Qed.

Definition same_targets (o : nat) : relation World := λ w w',
  observers (script w') !! o = observers (script w) !! o.

Global Instance same_targets_preorder o : PreOrder (same_targets o).
Proof.
  split; [by intros w|]. intros w1 w2 w3. unfold same_targets. congruence.
Qed.

(** The callback leaves alone every element that is not the target of an
    intersecting entry, and every observer but the reporting one. *)
Lemma on_intersection_untouched (o : nat) (es : list IntersectionObserverEntry)
    (n : node) :
  (∀ entry, entry ∈ es → isIntersecting entry = true →
            entry_target entry ≠ n) →
  keeps (untouched n) (on_intersection o es).
Proof.
  intros Hes. unfold on_intersection. apply keeps_forEach; [apply _|].
  intros entry Hentry. specialize (Hes entry Hentry).
  destruct (isIntersecting entry); [|apply keeps_ret; apply _].
  specialize (Hes eq_refl). apply keeps_bind; [apply _| |intros _].
  - unfold classList_add, update_element. apply keeps_modify.
    intros w0. split; [|done]. world_simpl.
    by rewrite alter_lookup, decide_False.
  - intros w0. split; [done|]. intros o'.
    change ((unobserve o (entry_target entry) w0).2)
      with (exec (unobserve o (entry_target entry)) w0).
    rewrite observed_by_unobserve. naive_solver.
Qed.

Lemma on_intersection_same_targets (o o' : nat)
    (es : list IntersectionObserverEntry) :
  o' ≠ o → keeps (same_targets o') (on_intersection o es).
Proof.
  intros Hne. unfold on_intersection. apply keeps_forEach; [apply _|].
  intros entry _. destruct (isIntersecting entry); [|apply keeps_ret; apply _].
  apply keeps_bind; [apply _| |intros _].
  - intros w0. reflexivity.
  - intros w0. unfold same_targets, unobserve, modify. world_simpl.
    by apply list_lookup_alter_ne.
Qed.

(** X9.  The observer's callback acts on the targets of intersecting
    entries only, and on the list of the reporting observer only: a
    report without an intersecting entry leaves the world as it is; an
    element that is not the target of an intersecting entry keeps its
    class list, its attributes and its place on every observer's list;
    and every other observer keeps all its targets, the revealed ones
    included. *)
Theorem intersection_report_is_local :
  (∀ (w : World) (o : nat) (es : list IntersectionObserverEntry),
     Forall (λ entry, isIntersecting entry = false) es →
     step (Intersection o es) w = w) ∧
  (∀ (w : World) (o : nat) (es : list IntersectionObserverEntry) (n : node),
     (∀ entry, entry ∈ es → isIntersecting entry = true →
               entry_target entry ≠ n) →
     elems (page (step (Intersection o es) w)) n = elems (page w) n ∧
     ∀ o', observed_by o' n (step (Intersection o es) w) ↔ observed_by o' n w) ∧
  (∀ (w : World) (o o' : nat) (es : list IntersectionObserverEntry),
     o' ≠ o →
     observers (script (step (Intersection o es) w)) !! o' =
       observers (script w) !! o').
Proof.
  split_and!.
  - intros w o es Hes.
    assert (on_intersection o es w = (Normal tt, w)) as Hw.
    { unfold on_intersection. induction Hes as [|entry es Hentry _ IH]; [done|].
      cbn [forEach]. rewrite bind_unfold, Hentry. exact IH. }
    cbn [step]. case_decide; [|done]. unfold run_task. by rewrite Hw.
  - intros w o es n Hes. cbn [step]. case_decide; [|done].
    apply (keeps_run_task (untouched n)); [|by intros err w'].
    by apply on_intersection_untouched.
  - intros w o o' es Hne. cbn [step]. case_decide; [|done].
    apply (keeps_run_task (same_targets o')); [|by intros err w'].
    by apply on_intersection_same_targets.
Qed.

Lemma intersection_report_is_local_witness :
  elems (page (step (Intersection 0
                       [ {| entry_target := Sample.features_id;
                            isIntersecting := true |};
                         {| entry_target := Sample.pricing_id;
                            isIntersecting := false |} ])
                    (load Sample.doc))) Sample.pricing_id =
  elems (page (load Sample.doc)) Sample.pricing_id.
Proof.
  destruct intersection_report_is_local as (_ & Hlocal & _).
  apply (Hlocal (load Sample.doc) 0 _ Sample.pricing_id).
  intros entry [->|[->|[]%elem_of_nil]%elem_of_cons]%elem_of_cons; done.
Defined.

(** ** Reveal once

    An observer that exists keeps its place in the list of observers, and
    its targets never grow: [observe] is called on a new observer only. *)
Definition targets_shrink : relation World := λ w w',
  length (observers (script w)) ≤ length (observers (script w')) ∧
  ∀ o n, o < length (observers (script w)) →
         observed_by o n w' → observed_by o n w.

Global Instance targets_shrink_preorder : PreOrder targets_shrink.
Proof.
  split.
  - by intros w.
  - intros w1 w2 w3 [Ha Ha'] [Hb Hb']. split; [lia|].
    intros o n Ho H3. apply Ha'; [done|]. apply Hb'; [lia|done].
Qed.

Ltac targets_leaf :=
  let w := fresh "w" in let H := fresh "H" in
  intros w; split; world_simpl;
  [ first [ done | by rewrite length_alter ]
  | let o := fresh "o" in let n := fresh "n" in
    intros o n _ H;
    first
      [ exact H
      | match type of H with
        | observed_by _ _ (?f w).2 =>
            change ((f w).2) with (exec f w) in H
        end;
        by apply observed_by_unobserve in H as [H _] ] ].

Lemma on_intersection_shrinks (o : nat) (es : list IntersectionObserverEntry) :
  keeps targets_shrink (on_intersection o es).
Proof.
  unfold on_intersection. apply keeps_forEach; [apply _|].
  intros entry _. destruct (isIntersecting entry); [|apply keeps_ret; apply _].
  apply keeps_bind; [apply _| |intros _].
  - keeps_auto; targets_leaf.
  - intros w. split.
    + unfold unobserve, modify. world_simpl. by rewrite length_alter.
    + intros o' n _ H.
      change ((unobserve o (entry_target entry) w).2)
        with (exec (unobserve o (entry_target entry)) w) in H.
      by apply observed_by_unobserve in H as [H _].
Qed.

Lemma initScrollAnimations_shrinks : keeps targets_shrink initScrollAnimations.
Proof.
  intros w. change ((initScrollAnimations w).2) with (exec initScrollAnimations w).
  destruct (hasIntersectionObserver (page w)) eqn:Hio.
  - rewrite (initScrollAnimations_spec w Hio).
    split; unfold observed_by; world_simpl.
    + rewrite length_app. lia.
    + intros o n Ho (ts & Hts & Hn). exists ts. split; [|done].
      by rewrite lookup_app_l in Hts.
  - assert (keeps targets_shrink
              (forEach (querySelectorAll_animatable (page w))
                       (λ el, classList_add el "visible"))) as Hk
      by (keeps_auto; targets_leaf).
    specialize (Hk w). revert Hk. unfold exec, initScrollAnimations.
    rewrite bind_unfold. unfold get at 1. cbv beta iota. by rewrite Hio.
Qed.

Lemma init_shrinks : keeps targets_shrink init.
Proof.
  unfold init, init_features. keeps_split;
    first [apply initScrollAnimations_shrinks | keeps_auto; targets_leaf].
Qed.

Lemma call_shrinks (cb : Callback) (this : EventTarget) (e : Event) :
  keeps targets_shrink (call cb this e).
Proof.
  destruct cb; simpl; first [apply init_shrinks | keeps_auto; targets_leaf].
Qed.

Lemma targets_shrink_loop_invariant (w0 : World) :
  loop_invariant (targets_shrink w0) (λ _, True).
Proof.
  assert (∀ (m : Js unit) w, keeps targets_shrink m →
            targets_shrink w0 w → targets_shrink w0 (run_task m w)) as Htask.
  { intros m w Hm Hw. etrans; [exact Hw|].
    apply keeps_run_task; [apply _|done|]. intros err. targets_leaf. }
  assert (∀ (f : World → World) w, (∀ w, targets_shrink w (f w)) →
            targets_shrink w0 w → targets_shrink w0 (f w)) as Hupd.
  { intros f w Hf Hw. etrans; [exact Hw|apply Hf]. }
  split.
  - done.
  - intros w l e Hw _. apply Htask; [apply call_shrinks|done].
  - intros w b. apply Hupd. targets_leaf.
  - intros w y. apply Hupd. targets_leaf.
  - intros w late _. apply Hupd. targets_leaf.
  - intros w _. apply Hupd. targets_leaf.
  - intros w l h. apply Hupd. targets_leaf.
  - intros w m. apply Hupd. targets_leaf.
  - intros w. apply Hupd. targets_leaf.
  - intros w o es. apply Htask, on_intersection_shrinks.
  - intros w. apply Htask. keeps_auto; targets_leaf.
  - intros w. apply Htask, initScrollAnimations_shrinks.
Qed.

(** An element that is off the list of an observer that exists is never
    on it again. *)
Lemma run_keeps_unobserved (o : nat) (n : node) (ss : list Stimulus)
    (w : World) :
  o < length (observers (script w)) →
  ¬ observed_by o n w → ¬ observed_by o n (run ss w).
Proof.
  intros Ho Hn Hrun.
  destruct (run_inv _ _ (targets_shrink_loop_invariant w) ss w) as [_ Hs];
    [reflexivity|].
  by apply Hn, Hs.
Qed.

Lemma on_intersection_returns (o : nat) (es : list IntersectionObserverEntry) :
  returns (on_intersection o es).
Proof. returns_auto. Qed.

Global Instance IntersectionObserverEntry_eq_dec :
  EqDecision IntersectionObserverEntry.
Proof. solve_decision. Defined.

(** What one report of observer [o] does to the element [n]: with an
    intersecting entry for [n], [n] is visible and off the list of [o];
    without one, [n] is as it was, on every list it was on. *)
Lemma intersection_step (o : nat) (es : list IntersectionObserverEntry)
    (n : node) (w : World) :
  let w' := step (Intersection o es) w in
  length (observers (script w)) ≤ length (observers (script w')) ∧
  (deliverable o es w →
   {| entry_target := n; isIntersecting := true |} ∈ es →
   visible n w' ∧ ¬ observed_by o n w' ∧ o < length (observers (script w'))) ∧
  ({| entry_target := n; isIntersecting := true |} ∉ es →
   elems (page w') n = elems (page w) n ∧
   ∀ o', observed_by o' n w' ↔ observed_by o' n w).
Proof.
  intros w'. subst w'. cbn [step]. split_and!.
  - case_decide; [|done].
    by destruct (keeps_run_task targets_shrink (on_intersection o es) w
                   (on_intersection_shrinks o es)) as [Hlen _];
      [intros err; targets_leaf|].
  - intros Hd Hin. rewrite decide_True by done.
    rewrite run_task_returns by apply on_intersection_returns.
    destruct (on_intersection_reveals o n es w (or_introl Hin)) as [Hv Ho].
    split_and!; [done|done|].
    destruct Hd as (ts & Hts & _). apply lookup_lt_Some in Hts.
    destruct (on_intersection_shrinks o es w) as [Hlen _]. unfold exec. lia.
  - intros Hnot. case_decide; [|done].
    apply (keeps_run_task (untouched n)); [|by intros err w'].
    apply on_intersection_untouched. intros [t b] Hentry Hb Ht.
    simpl in Hb, Ht. by subst.
Qed.

(** The reveal-once rule in its strong form: an element the script has
    made visible is off every observer's list, and stays visible whatever
    comes next. *)
Definition reveal_always_unobserves : Prop :=
  ∀ (p : Page) (ss : list Stimulus) (n : node),
    ¬ visible n (fresh p) →
    visible n (run ss (load p)) →
    ¬ observed n (run ss (load p)) ∧
    ∀ ss', visible n (run ss' (run ss (load p))).

(** C8, as stated, fails: the delayed viewport check reveals an element
    that is in the viewport but below the observer's threshold, and the
    element stays on the observer's list. *)
Lemma reveal_without_unobserve : ¬ reveal_always_unobserves.
Proof.
  intros H.
  destruct (H Sample.doc
              [Intersection 0 [ {| entry_target := Sample.features_id;
                                   isIntersecting := false |} ];
               TimerFired]
              Sample.features_id) as [Hunobserved _].
  - compute_done.
  - compute_done.
  - apply Hunobserved.
    exists 0, {[Sample.features_id; Sample.pricing_id]}.
    split; [|set_solver]. vm_compute. reflexivity.
Qed.

(** C8, amended.  The [visible] class, once on an element, stays there
    through every later stimulus, so an element is revealed at most once
    and never hidden again.  The observer's callback reveals the targets
    of the intersecting entries it receives and nothing else, and what it
    reveals it unobserves for good: the element is off the list of the
    reporting observer when the callback is done and is never on it
    again, whatever comes later.  Nor does the callback take an element
    off a list without revealing it.  (What does not hold is that a
    visible element is observed by no one: the delayed viewport check
    reveals without unobserving, and an observer created later by
    [window.reinitAnimations] observes every animatable element, visible
    or not.) *)
Theorem reveal_is_permanent :
  (∀ (w : World) (ss : list Stimulus) (n : node),
     visible n w → visible n (run ss w)) ∧
  (∀ (w : World) (o : nat) (es : list IntersectionObserverEntry) (n : node),
     deliverable o es w →
     {| entry_target := n; isIntersecting := true |} ∈ es →
     visible n (step (Intersection o es) w) ∧
     ∀ ss, ¬ observed_by o n (run ss (step (Intersection o es) w))) ∧
  (∀ (w : World) (o : nat) (es : list IntersectionObserverEntry) (n : node),
     visible n (step (Intersection o es) w) → ¬ visible n w →
     {| entry_target := n; isIntersecting := true |} ∈ es ∧
     ∀ ss, ¬ observed_by o n (run ss (step (Intersection o es) w))) ∧
  (∀ (w : World) (o o' : nat) (es : list IntersectionObserverEntry) (n : node),
     observed_by o' n w → ¬ observed_by o' n (step (Intersection o es) w) →
     o' = o ∧ visible n (step (Intersection o es) w)).
Proof.
  assert (∀ (w : World) (o : nat) (es : list IntersectionObserverEntry) (n : node),
     deliverable o es w →
     {| entry_target := n; isIntersecting := true |} ∈ es →
     visible n (step (Intersection o es) w) ∧
     ∀ ss, ¬ observed_by o n (run ss (step (Intersection o es) w))) as Hreveal.
  { intros w o es n Hd Hin.
    destruct (intersection_step o es n w) as (_ & Hyes & _).
    destruct (Hyes Hd Hin) as (Hv & Ho & Hlt). split; [done|].
    intros ss. by apply run_keeps_unobserved. }
  split_and!.
  - intros w ss n Hn. by apply run_keeps_visible.
  - exact Hreveal.
  - intros w o es n Hv Hnv.
    destruct (decide (deliverable o es w)) as [Hd|Hd].
    2:{ cbn [step] in Hv. by rewrite decide_False in Hv by done. }
    destruct (decide ({| entry_target := n; isIntersecting := true |} ∈ es))
      as [Hin|Hnot].
    + split; [done|]. by apply Hreveal.
    + destruct (intersection_step o es n w) as (_ & _ & Hno).
      destruct (Hno Hnot) as [Hel _]. unfold visible in Hv, Hnv.
      by rewrite Hel in Hv.
  - intros w o o' es n Hobs Hgone.
    destruct (decide (deliverable o es w)) as [Hd|Hd].
    2:{ cbn [step] in Hgone. by rewrite decide_False in Hgone by done. }
    destruct (decide ({| entry_target := n; isIntersecting := true |} ∈ es))
      as [Hin|Hnot].
    + destruct (Hreveal w o es n Hd Hin) as [Hv _]. split; [|done].
      destruct (decide (o' = o)) as [->|Hne]; [done|].
      destruct Hgone. destruct Hobs as (ts & Hts & Hn). exists ts.
      split; [|done]. rewrite <- Hts. cbn [step]. rewrite decide_True by done.
      apply (keeps_run_task (same_targets o')); [|by intros err w'].
      by apply on_intersection_same_targets.
    + destruct (intersection_step o es n w) as (_ & _ & Hno).
      destruct (Hno Hnot) as [_ Hsame]. destruct Hgone. by apply Hsame.
Qed.

Lemma reveal_is_permanent_witness :
  visible Sample.features_id
    (run [Scrolled 900%float; Dispatch (Sample.click_on Sample.toggle_id)]
         (step (Intersection 0 [ {| entry_target := Sample.features_id;
                                    isIntersecting := true |} ])
               (load Sample.doc))) ∧
  ¬ observed_by 0 Sample.features_id
      (run [Reinit; TimerFired]
           (step (Intersection 0 [ {| entry_target := Sample.features_id;
                                      isIntersecting := true |} ])
                 (load Sample.doc))).
Proof.
  destruct reveal_is_permanent as (Hkeep & Hcb & _).
  assert (deliverable 0 [ {| entry_target := Sample.features_id;
                             isIntersecting := true |} ] (load Sample.doc)) as Hd.
  { exists {[Sample.features_id; Sample.pricing_id]}.
    split; [vm_compute; reflexivity|].
    constructor; [set_solver|constructor]. }
  destruct (Hcb (load Sample.doc) 0 _ Sample.features_id Hd) as [Hv Ho].
  { left. }
  split; [by apply Hkeep|apply Ho].
Defined.

(** ** Deferred initialisation *)

Definition init_listener : Listener :=
  {| on_target := Document; on_type := DOMContentLoaded;
     callback := init_callback |}.

(** [m] does the same whether or not the update [T] was applied to the
    world first. *)
Definition commutes (T : World → World) {A} (m : Js A) : Prop :=
  ∀ w, m (T w) = ((m w).1, T (m w).2).

Section commutes.
Context (T : World → World).

Lemma commutes_ret {A} (a : A) : commutes T (mret a).
Proof. by intros w. Qed.

Lemma commutes_throw {A} (e : JsError) : commutes T (@throw A e).
Proof. by intros w. Qed.

Lemma commutes_modify (f : World → World) :
  (∀ w, f (T w) = T (f w)) → commutes T (modify f).
Proof. intros Hf w. unfold modify. simpl. by rewrite Hf. Qed.

Lemma commutes_bind {A B} (m : Js A) (f : A → Js B) :
  commutes T m → (∀ a, commutes T (f a)) → commutes T (m ≫= f).
Proof.
  intros Hm Hf w. rewrite !bind_unfold, Hm.
  destruct (m w) as [[a|e] w']; simpl; [apply Hf|done].
Qed.

Lemma commutes_get_bind {A} (f : World → Js A) :
  (∀ w0 w, f (T w0) w = f w0 w) → (∀ w0, commutes T (f w0)) →
  commutes T (get ≫= f).
Proof.
  intros Hf1 Hf2 w. rewrite !bind_unfold. unfold get. cbv beta iota.
  rewrite Hf1. apply Hf2.
Qed.

Lemma commutes_forEach {A} (l : list A) (f : A → Js unit) :
  (∀ x, commutes T (f x)) → commutes T (forEach l f).
Proof.
  intros Hf. induction l as [|x l IH]; simpl.
  - apply commutes_ret.
  - by apply commutes_bind.
Qed.
End commutes.

Ltac commutes_split :=
  repeat match goal with
    | |- commutes _ (mret _) => apply commutes_ret
    | |- commutes _ (throw _) => apply commutes_throw
    | |- commutes _ (get ≫= _) =>
        apply commutes_get_bind; [intros ? ?; reflexivity|intros ?]
    | |- commutes _ (_ ≫= _) => apply commutes_bind; [|intros ?]
    | |- commutes _ (forEach _ _) => apply commutes_forEach; intros ?
    | |- commutes _ (modify _) => apply commutes_modify; intros ?; reflexivity
    | |- commutes _ (match ?x with _ => _ end) => destruct x
    end.

(** The world of a deferred [init]: the DOMContentLoaded listener heads
    the registry and [window.reinitAnimations] is assigned. *)
Definition deferred (w : World) : World :=
  set_script (set_reinitAnimations true)
    (set_script (set_listeners (cons init_listener)) w).

Lemma init_features_deferred : commutes deferred init_features.
Proof. autounfold with js. commutes_split. Qed.

Lemma load_while_loading (p : Page) :
  readyState p = loading →
  load p =
    set_script (set_reinitAnimations true)
      (set_script (set_listeners (λ ls, ls ++ [init_listener]))
         (bound p (fresh p))).
Proof.
  intros Hl. rewrite load_unfold. f_equal. unfold exec, init.
  rewrite bind_unfold. unfold get at 1. cbv beta iota.
  rewrite decide_True by exact Hl.
  unfold addEventListener_declared. rewrite bind_unfold. unfold get at 1.
  cbv beta iota.
  by rewrite bool_decide_eq_false_2 by apply not_elem_of_nil.
Qed.

(** The document with the elements [late] attached after those it has. *)
Definition attach (late : list node) (p : Page) : Page :=
  set_document_order (λ l, l ++ late) p.

(** The four lookups of lines 18-21. *)
Definition lookups (p : Page)
    : option node * option node * option node * list node :=
  (getElementById "mobileMenuToggle" p, getElementById "navLinks" p,
   getElementById "navbar" p, querySelectorAll_class "nav-link" p).

Lemma bound_lookups (p p' : Page) (w : World) :
  lookups p' = lookups p → bound p' w = bound p w.
Proof. unfold lookups, bound. intros [= -> -> -> ->]. done. Qed.

(** When [DOMContentLoaded] comes, [init] runs again, on the document as
    it is then and with the bindings the script took when it ran. *)
Lemma content_loaded_spec (p : Page) (late : list node) :
  readyState p = loading →
  step ContentLoaded (step (Parsed late) (load p)) =
    deferred (exec init_features
                (bound p (fresh (set_readyState interactive (attach late p))))).
Proof.
  intros Hl. rewrite (load_while_loading p Hl).
  match goal with
  | |- step ContentLoaded (step (Parsed late) ?w) = _ =>
      assert (step (Parsed late) w = set_page (attach late) w) as ->
        by (cbn [step]; by rewrite decide_True by exact Hl)
  end.
  cbn [step]. rewrite decide_True by exact Hl.
  unfold dispatchEvent, listeners_for. cbn. rewrite decide_True by done.
  rewrite decide_False by (by intros [? _]). cbn [app foldl].
  unfold invoke. cbn [callback on_target init_listener call].
  rewrite run_task_returns by apply init_returns.
  rewrite init_ready by done.
  pose proof (init_features_deferred
                (bound p (fresh (set_readyState interactive (attach late p)))))
    as Hc.
  unfold exec.
  match goal with
  | |- (init_features ?w).2 = _ =>
      change w with
        (deferred (bound p (fresh (set_readyState interactive (attach late p)))))
  end.
  by rewrite Hc.
Qed.

(** If the lookups give on the complete document what they gave when the
    script ran, the world is that of a page that was ready from the
    start. *)
Lemma content_loaded_ready (p : Page) (late : list node) :
  readyState p = loading →
  lookups (attach late p) = lookups p →
  step ContentLoaded (step (Parsed late) (load p)) =
    set_script (set_listeners (cons init_listener))
      (load (set_readyState interactive (attach late p))).
Proof.
  intros Hl Hlk. rewrite (content_loaded_spec p late Hl).
  rewrite (load_unfold (set_readyState interactive (attach late p))).
  rewrite init_ready by done.
  by rewrite (bound_lookups p (set_readyState interactive (attach late p))).
Qed.

(** While the document is loading, [init] only makes sure that it is
    registered. *)
Lemma init_while_loading (w : World) :
  readyState (page w) = loading →
  init_listener ∈ listeners (script w) →
  init w = (Normal tt, w).
Proof.
  intros Hl Hin. unfold init. rewrite bind_unfold. unfold get at 1.
  cbv beta iota. rewrite decide_True by exact Hl.
  unfold addEventListener_declared. rewrite bind_unfold. unfold get at 1.
  cbv beta iota. by rewrite bool_decide_eq_true_2.
Qed.

(** X10.  When the script runs while the document is still loading, it
    registers [init] for [DOMContentLoaded] and does nothing else: no
    other listener, no observer, no timer, the page untouched; until the
    browser fires that event, no event reaches any code of the script
    but [init], which finds itself registered and does nothing.  When
    the browser fires it, after the parser has attached the
    elements [late] that follow the script, the features are set up on
    the complete document, but with the bindings of lines 18-21 as they
    were taken when the script ran: what was parsed later is found by
    the queries of the init functions and not by those bindings.  If the
    four lookups give the same on the complete document as they gave
    then, the features are set up exactly as on a page that was ready
    from the start; the two worlds differ only by the
    [DOMContentLoaded] listener, which stays in the registry. *)
Theorem init_deferred_until_content_loaded (p : Page) :
  readyState p = loading →
  (listeners (script (load p)) = [init_listener] ∧
   observers (script (load p)) = [] ∧
   timers (script (load p)) = 0 ∧
   page (load p) = p) ∧
  (∀ e, step (Dispatch e) (load p) = set_defaultPrevented false (load p)) ∧
  (∀ late,
     step ContentLoaded (step (Parsed late) (load p)) =
       deferred (exec init_features
                   (bound p (fresh (set_readyState interactive
                                      (attach late p)))))) ∧
  (∀ late, lookups (attach late p) = lookups p →
     step ContentLoaded (step (Parsed late) (load p)) =
       set_script (set_listeners (cons init_listener))
         (load (set_readyState interactive (attach late p)))).
Proof.
  intros Hl. pose proof (load_while_loading p Hl) as Hload.
  split; [by rewrite Hload|]. split_and!.
  - intros e. cbn [step]. unfold dispatchEvent.
    assert (Forall (λ l, l = init_listener) (listeners_for e (load p))) as Hls.
    { apply list.Forall_forall. intros l (Hreg & _)%elem_of_listeners_for.
      rewrite Hload in Hreg. by apply list_elem_of_singleton in Hreg. }
    assert (readyState (page (set_defaultPrevented false (load p))) = loading ∧
            init_listener ∈
              listeners (script (set_defaultPrevented false (load p))))
      as [Hl0 Hin0].
    { rewrite Hload. split; [exact Hl|]. by apply list_elem_of_singleton. }
    revert Hl0 Hin0. generalize (set_defaultPrevented false (load p)).
    induction Hls as [|l ls -> _ IH]; intros w0 Hl0 Hin0; [done|].
    cbn [foldl]. unfold invoke. cbn [callback on_target init_listener call].
    unfold run_task. rewrite (init_while_loading w0 Hl0 Hin0). by apply IH.
  - intros late. by apply content_loaded_spec.
  - intros late Hlk. by apply content_loaded_ready.
Qed.

(** The sample page with the script placed after the navbar: the navbar,
    the toggle, the menu and its links are parsed when it runs, the
    sections and the button are not. *)
Definition script_after_navbar : Page :=
  set_readyState loading (set_document_order (take 5) Sample.doc).

(** The sample page with the script in the head: nothing of the body is
    parsed when it runs. *)
Definition script_in_head : Page :=
  set_readyState loading (set_document_order (λ _, []) Sample.doc).

Lemma init_deferred_until_content_loaded_witness :
  listeners (script (load script_after_navbar)) = [init_listener] ∧
  step ContentLoaded (step (Parsed [5; 6; 7]) (load script_after_navbar)) =
    set_script (set_listeners (cons init_listener))
      (load (set_readyState interactive (attach [5; 6; 7] script_after_navbar))).
Proof.
  destruct (init_deferred_until_content_loaded script_after_navbar eq_refl)
    as ((H1 & _) & _ & _ & H2).
  split; [exact H1|]. apply H2. vm_compute. reflexivity.
Defined.

(** With the script in the head the bindings stay [null]: once the
    document is complete the anchors, the buttons and the Escape key are
    wired, the menu and the navbar are not, and a click on the toggle
    does nothing. *)
Example script_in_head_binds_nothing :
  let w := step ContentLoaded
             (step (Parsed (seq 0 8)) (load script_in_head)) in
  (mobileMenuToggle (script w), navLinks (script w), navbar (script w),
   navLinksArray (script w)) = (None, None, None, []) ∧
  callback <$> listeners (script w) =
    [init_callback; anchor_click; anchor_click; anchor_click;
     button_mouseenter; button_mouseleave; escape_keydown] ∧
  Sample.menu_view (run [Dispatch (Sample.click_on Sample.toggle_id)] w) =
    (false, false, Some "false", "").
Proof. vm_compute. done. Qed.

(** ** Keys the script leaves to the browser *)

Lemma foldl_invoke_idle (e : Event) (ls : list Listener) (w : World) :
  Forall (λ l, invoke e w l = w) ls → foldl (invoke e) w ls = w.
Proof.
  induction 1 as [|l ls Hl _ IH]; [done|]. cbn [foldl]. by rewrite Hl.
Qed.

(** X11.  On a ready page with menu and toggle, after any history, a
    keydown leaves everything to the browser (no class, attribute or
    focus change, no [preventDefault], nothing thrown) when the key is
    neither Escape nor Tab, and also when it is Tab but the focused
    element is not the end of the menu's focusable list that the
    direction of travel leaves: the last element for Tab, the first for
    Shift+Tab.  This includes an empty list and a page without focus. *)
Theorem other_keys_are_native (p : Page) (nav tog : node)
    (ss : list Stimulus) (e : Event) :
  readyState p ≠ loading →
  getElementById "navLinks" p = Some nav →
  getElementById "mobileMenuToggle" p = Some tog →
  ev_type e = keydown → key e ≠ "Escape" →
  (key e = "Tab" →
   strict_eq (activeElement (page (run ss (load p))))
             (if shiftKey e then head (querySelectorAll_tabbable nav p)
              else list.last (querySelectorAll_tabbable nav p)) = false) →
  step (Dispatch e) (run ss (load p)) =
    set_defaultPrevented false (run ss (load p)).
Proof.
  intros Hr Hnav Htog Hty Hkey Htab. cbn [step]. unfold dispatchEvent.
  destruct (load_registry p nav tog Hr Hnav Htog) as (_ & _ & _ & _ & Hkeys).
  destruct (run_settled p nav tog ss Hr Hnav Htog)
    as [(_ & Hn & _ & Hls) _].
  set (w := run ss (load p)) in *. set (w0 := set_defaultPrevented false w).
  destruct (load_registry p nav tog Hr Hnav Htog) as (_ & Hn0 & _).
  rewrite Hn0 in Hn.
  apply foldl_invoke_idle, list.Forall_forall.
  intros l (Hl & Hlty & _)%elem_of_listeners_for.
  assert (l ∈ [escape_listener; trap_listener nav p]) as Hin.
  { rewrite <- Hkeys, <- Hls. apply list_elem_of_filter. split; [congruence|done]. }
  unfold invoke, run_task.
  apply elem_of_cons in Hin as [->|Hin];
    [|apply list_elem_of_singleton in Hin as ->];
    cbn [escape_listener trap_listener callback on_target call].
  - by rewrite on_escape_keydown_other_key.
  - destruct (decide (key e = "Tab")) as [Hk|Hk];
      [|by rewrite (on_trap_keydown_other_key w0 nav)].
    destruct (decide ("active" ∈ classList (elems (page w0) nav))) as [Ha|Ha];
      [|by rewrite (on_trap_keydown_closed w0 nav)].
    rewrite (on_trap_keydown_open w0 nav) by done.
    specialize (Htab Hk). change (page w0) with (page w).
    destruct (shiftKey e); by rewrite Htab.
Qed.

Lemma other_keys_are_native_witness :
  step (Dispatch (Sample.keypress "Tab" false Sample.link1_id))
       (run [Dispatch (Sample.click_on Sample.toggle_id);
             FocusMoved (Some Sample.link1_id)] (load Sample.doc)) =
  set_defaultPrevented false
    (run [Dispatch (Sample.click_on Sample.toggle_id);
          FocusMoved (Some Sample.link1_id)] (load Sample.doc)).
Proof.
  apply (other_keys_are_native Sample.doc Sample.menu_id Sample.toggle_id);
    [done|reflexivity|reflexivity|reflexivity|done|].
  intros _. vm_compute. reflexivity.
Defined.

(** ** Clicks the script leaves to the browser *)

(** The scroll requests and the default-action flag. *)
Definition same_requests : relation World := λ w w',
  defaultPrevented w' = defaultPrevented w ∧
  scrollTo_calls w' = scrollTo_calls w ∧
  focus_calls w' = focus_calls w.

Global Instance same_requests_preorder : PreOrder same_requests.
Proof.
  split.
  - by intros w.
  - intros w1 w2 w3 (?&?&?) (?&?&?). split_and!; congruence.
Qed.

Definition menu_click (cb : Callback) : Prop :=
  cb = toggle_click ∨ cb = navlink_click ∨ cb = document_click.

Lemma menu_click_keeps_requests (cb : Callback) (this : EventTarget) (e : Event) :
  menu_click cb → keeps same_requests (call cb this e).
Proof.
  intros [->|[->| ->]]; simpl; keeps_auto; intros w; by split_and!.
Qed.

(** Only the menu's listeners and the anchor listener listen for clicks. *)
Definition click_kinds (l : Listener) : Prop :=
  on_type l = click → menu_click (callback l) ∨ callback l = anchor_click.

Lemma call_appends_click_kinds (cb : Callback) (this : EventTarget) (e : Event) :
  keeps (appends click_kinds) (call cb this e).
Proof.
  destruct cb; simpl; keeps_auto;
    appends_leaf_by ltac:(unfold click_kinds, menu_click; simpl;
                          first [done|intros _; tauto]).
Qed.

Lemma load_click_kinds (p : Page) :
  Forall click_kinds (listeners (script (load p))).
Proof.
  rewrite load_unfold. world_simpl.
  destruct (call_appends_click_kinds init_callback Document
              (plain_event click Document) (bound p (fresh p)))
    as (_ & _ & extra & Hx & Hextra).
  unfold exec. cbn [call] in Hx. by rewrite Hx.
Qed.

(** Every anchor listener of a ready page sits on one of the markup's
    hash anchors. *)
Lemma load_anchor_registry (p : Page) :
  readyState p ≠ loading →
  Forall (λ l, callback l = anchor_click →
               ∃ a, a ∈ querySelectorAll_hash_anchors p ∧ on_target l = Elem a)
         (listeners (script (load p))).
Proof.
  intros Hr. rewrite load_unfold, init_ready by done.
  unfold init_features. rewrite 3!exec_seq by returns_auto.
  set (w3 := exec initScrollAnimations _).
  assert (same_tree (fresh p) w3) as Htree.
  { unfold w3.
    do 3 (apply keeps_exec_chain; [apply _|keeps_auto; same_tree_leaf|]).
    by split. }
  assert (appends (λ l, callback l ≠ anchor_click) (bound p (fresh p)) w3)
    as (_ & _ & x3 & Hx3 & Hp3).
  { unfold w3.
    do 3 (apply keeps_exec_chain;
          [apply _|keeps_auto; appends_leaf_by ltac:(done)|]).
    reflexivity. }
  rewrite exec_seq by returns_auto. world_simpl.
  set (w4 := exec initSmoothScroll w3).
  assert (listeners (script w4) =
            listeners (script w3) ++
            ((λ x, {| on_target := Elem x; on_type := click;
                      callback := anchor_click |}) <$>
             querySelectorAll_hash_anchors p)) as Hx4.
  { unfold w4. rewrite <- forEach_addEventListener. f_equal. f_equal.
    unfold exec, initSmoothScroll. rewrite bind_unfold. unfold get at 1.
    cbv beta iota.
    by rewrite (querySelectorAll_hash_anchors_same_tree (fresh p) w3 Htree). }
  assert (appends (λ l, callback l ≠ anchor_click) w4
            (exec (initButtonEffects;; initKeyboardNavigation;;
                   setTimeout_checkInitialView) w4))
    as (_ & _ & x5 & Hx5 & Hp5).
  { apply keeps_exec_chain; [apply _| |reflexivity].
    keeps_auto; appends_leaf_by ltac:(done). }
  rewrite Hx5, Hx4, Hx3. simpl. rewrite !Forall_app. split_and!.
  - eapply list.Forall_impl; [exact Hp3|]. by intros l ? ?.
  - apply list.Forall_forall. intros l (a & -> & Ha)%list_elem_of_fmap _. eauto.
  - eapply list.Forall_impl; [exact Hp5|]. by intros l ? ?.
Qed.

Lemma run_settled_ready (p : Page) (ss : list Stimulus) :
  readyState p ≠ loading → settled (load p) (run ss (load p)).
Proof.
  intros Hr. pose proof (load_no_init p Hr) as Hno.
  rewrite list.Forall_forall in Hno.
  apply (run_inv _ _ (settled_loop_invariant (load p) Hno)).
  split; [by split|by apply load_ready].
Qed.

Lemma load_same_tree (p : Page) : same_tree (fresh p) (load p).
Proof.
  unfold load. apply keeps_run_task; [apply _| |intros err; same_tree_leaf].
  unfold main. keeps_auto; same_tree_leaf.
Qed.

Lemma foldl_invoke_keeps (R : relation World) `{!PreOrder R} (e : Event)
    (ls : list Listener) (w : World) :
  Forall (λ l, keeps R (call (callback l) (on_target l) e)) ls →
  (∀ err w', R w' (report err w')) →
  R w (foldl (invoke e) w ls).
Proof.
  intros Hls Hr. revert w. induction Hls as [|l ls Hl _ IH]; intros w.
  - reflexivity.
  - cbn [foldl]. etrans; [|apply IH]. unfold invoke.
    by apply keeps_run_task.
Qed.

(** X12.  On a ready page, after any history, a click whose path from
    the target up to the document passes through no anchor with a hash
    [href] is left to the browser as far as scrolling goes: the script
    calls neither [preventDefault] nor [window.scrollTo] nor [focus]. *)
Theorem click_off_anchors_is_native (p : Page) (t : node)
    (ss : list Stimulus) (e : Event) :
  readyState p ≠ loading →
  ev_type e = click → target e = Elem t →
  Forall (λ m, m ∉ querySelectorAll_hash_anchors p)
         (t :: ancestors (elems p t)) →
  let w := run ss (load p) in
  let w' := step (Dispatch e) w in
  defaultPrevented w' = false ∧
  scrollTo_calls w' = scrollTo_calls w ∧
  focus_calls w' = focus_calls w.
Proof.
  intros Hr Hty Htg Hoff w w'.
  destruct (run_settled_ready p ss Hr) as [(_ & _ & _ & Hls) [_ Htree]].
  destruct (load_same_tree p) as [_ Htree0].
  fold w in Hls, Htree.
  assert (same_requests (set_defaultPrevented false w) w') as (H1 & H2 & H3);
    [|done].
  unfold w'. cbn [step]. unfold dispatchEvent.
  apply foldl_invoke_keeps; [apply _| |by intros err w0].
  apply list.Forall_forall.
  intros l (Hl & Hlty & Hpath)%elem_of_listeners_for.
  rewrite Hls in Hl. rewrite Hty in Hlty.
  pose proof (load_click_kinds p) as Hkinds.
  pose proof (load_anchor_registry p Hr) as Hanchors.
  rewrite list.Forall_forall in Hkinds, Hanchors.
  destruct (Hkinds l Hl Hlty) as [Hm|Ha];
    [by apply menu_click_keeps_requests|].
  destruct (Hanchors l Hl Ha) as (a & Ha1 & Ha2).
  rewrite (click_path _ e t) in Hpath by done.
  rewrite Ha2 in Hpath. apply elem_of_element_path in Hpath.
  destruct (Htree t) as (_ & Hanc & _). rewrite Hanc in Hpath.
  destruct (Htree0 t) as (_ & Hanc0 & _). rewrite Hanc0 in Hpath.
  rewrite list.Forall_forall in Hoff. by destruct (Hoff a Hpath).
Qed.

Lemma click_off_anchors_is_native_witness :
  scrollTo_calls (step (Dispatch (Sample.click_on Sample.pricing_id))
                       (run [Scrolled 300%float] (load Sample.doc))) =
  scrollTo_calls (run [Scrolled 300%float] (load Sample.doc)).
Proof.
  apply (click_off_anchors_is_native Sample.doc Sample.pricing_id
           [Scrolled 300%float] (Sample.click_on Sample.pricing_id));
    [done|reflexivity|reflexivity|compute_done].
Defined.

(** ** A page without the menu or without the toggle *)

(** The listeners [initMobileMenu] and the second half of
    [initKeyboardNavigation] install. *)
Definition menu_listener (cb : Callback) : Prop :=
  menu_click cb ∨ ∃ focusableElements, cb = trap_keydown focusableElements.

(** One of the two elements is missing, the menu (if it is there) does
    not carry [active], and none of the menu's listeners is registered. *)
Definition menu_absent (w : World) : Prop :=
  (mobileMenuToggle (script w) = None ∨ navLinks (script w) = None) ∧
  (∀ nav, navLinks (script w) = Some nav →
          "active" ∉ classList (elems (page w) nav)) ∧
  Forall (λ l, ¬ menu_listener (callback l)) (listeners (script w)).

Definition absent_step : relation World := λ w w',
  menu_absent w → menu_absent w' ∧ menu_frame None w w'.

Global Instance absent_step_preorder : PreOrder absent_step.
Proof.
  split.
  - intros w Hw. split; [done|reflexivity].
  - intros w1 w2 w3 H12 H23 Hw1. destruct (H12 Hw1) as [Hw2 Hf12].
    destruct (H23 Hw2) as [Hw3 Hf23]. split; [done|]. by etrans.
Qed.

Lemma absent_step_intro (w w' : World) :
  menu_frame None w w' →
  appends (λ l, ¬ menu_listener (callback l)) w w' →
  absent_step w w'.
Proof.
  intros Hf (Hb1 & Hb2 & extra & Hx & Hextra) (Hmiss & Hact & Hreg).
  split; [|done]. destruct Hf as (_ & _ & Hf3 & _). split_and!.
  - by rewrite Hb1, Hb2.
  - intros nav Hn. rewrite Hf3. apply Hact. by rewrite <- Hb2.
  - rewrite Hx. by apply Forall_app.
Qed.

Lemma keeps_absent_step {A} (m : Js A) :
  keeps (menu_frame None) m →
  keeps (appends (λ l, ¬ menu_listener (callback l))) m →
  keeps absent_step m.
Proof. intros H1 H2 w. by apply absent_step_intro. Qed.

Ltac not_menu_leaf :=
  appends_leaf_by ltac:(by intros [[?|[?|?]]|[? ?]]).

Ltac absent_auto :=
  apply keeps_absent_step; [keeps_auto; menu_frame_leaf|keeps_auto; not_menu_leaf].

Lemma initMobileMenu_absent : keeps absent_step initMobileMenu.
Proof.
  unfold initMobileMenu. apply keeps_get_bind. intros w Hw.
  pose proof Hw as ([Ht|Hn] & _).
  - rewrite Ht. by split.
  - rewrite Hn. destruct (mobileMenuToggle (script w)); by split.
Qed.

Lemma initKeyboardNavigation_absent : keeps absent_step initKeyboardNavigation.
Proof.
  unfold initKeyboardNavigation. apply keeps_bind; [apply _| |intros _].
  - absent_auto.
  - apply keeps_get_bind. intros w Hw. pose proof Hw as ([Ht|Hn] & _).
    + rewrite Ht. destruct (navLinks (script w)); by split.
    + rewrite Hn. by split.
Qed.

Lemma init_absent : keeps absent_step init.
Proof.
  unfold init. apply keeps_bind; [apply _|apply keeps_get; apply _|].
  intros w0. case_decide; [absent_auto|].
  unfold init_features.
  apply keeps_bind; [apply _|apply initMobileMenu_absent|intros _].
  apply keeps_bind; [apply _|absent_auto|intros _].
  apply keeps_bind; [apply _|absent_auto|intros _].
  apply keeps_bind; [apply _|absent_auto|intros _].
  apply keeps_bind; [apply _|absent_auto|intros _].
  apply keeps_bind; [apply _|apply initKeyboardNavigation_absent|intros _].
  absent_auto.
Qed.

Lemma on_intersection_absent o es : keeps absent_step (on_intersection o es).
Proof. absent_auto. Qed.

Lemma checkInitialView_absent : keeps absent_step checkInitialView.
Proof. absent_auto. Qed.

Lemma initScrollAnimations_absent : keeps absent_step initScrollAnimations.
Proof. absent_auto. Qed.

Lemma absent_loop_invariant (w0 : World) :
  loop_invariant (λ w, menu_absent w ∧ menu_frame None w0 w)
                 (λ l, ¬ menu_listener (callback l)).
Proof.
  assert (∀ w w', absent_step w w' →
            menu_absent w ∧ menu_frame None w0 w →
            menu_absent w' ∧ menu_frame None w0 w') as Hstep.
  { intros w w' Hs [Hw Hf]. destruct (Hs Hw) as [Hw' Hf']. split; [done|].
    by etrans. }
  assert (∀ (m : Js unit) w, keeps absent_step m →
            menu_absent w ∧ menu_frame None w0 w →
            menu_absent (run_task m w) ∧ menu_frame None w0 (run_task m w))
    as Htask.
  { intros m w Hm. apply Hstep. apply keeps_run_task; [apply _|done|].
    intros err w'. apply absent_step_intro; revert w';
      [menu_frame_leaf|not_menu_leaf]. }
  assert (∀ (f : World → World) w,
            (∀ w, menu_frame None w (f w)) →
            (∀ w, appends (λ l, ¬ menu_listener (callback l)) w (f w)) →
            menu_absent w ∧ menu_frame None w0 w →
            menu_absent (f w) ∧ menu_frame None w0 (f w)) as Hupd.
  { intros f w Hf Ha. apply Hstep. by apply absent_step_intro. }
  split.
  - intros w l [(_ & _ & Hreg) _] Hl. rewrite list.Forall_forall in Hreg.
    by apply Hreg.
  - intros w l e Hw Hl. unfold invoke.
    pose proof (other_callbacks_keep_menu None (callback l) (on_target l) e) as Ho.
    destruct (callback l) eqn:Hcb; cbn [call];
      try (destruct Hl; left; unfold menu_click; tauto);
      try (apply Htask; [|done]; apply keeps_absent_step;
           [exact Ho|keeps_auto; not_menu_leaf]).
    + destruct Hw as [Hw Hf]. unfold run_task.
      rewrite on_escape_keydown_closed; [done|]. apply Hw.
    + apply Htask; [apply init_absent|done].
  - intros w b. apply Hupd; [menu_frame_leaf|not_menu_leaf].
  - intros w y. apply Hupd; [menu_frame_leaf|not_menu_leaf].
  - intros w late _. apply Hupd; [menu_frame_leaf|not_menu_leaf].
  - intros w _. apply Hupd; [menu_frame_leaf|not_menu_leaf].
  - intros w l h. apply Hupd; [menu_frame_leaf|not_menu_leaf].
  - intros w m. apply Hupd; [menu_frame_leaf|not_menu_leaf].
  - intros w. apply Hupd; [menu_frame_leaf|not_menu_leaf].
  - intros w o es. apply Htask, on_intersection_absent.
  - intros w. apply Htask, checkInitialView_absent.
  - intros w. apply Htask, initScrollAnimations_absent.
Qed.

(** X13.  On a page (ready or still loading) that lacks the toggle or
    the menu, and whose menu, if there, is not marked [active] in the
    markup: none of the menu's listeners is ever registered (toggle
    click, nav-link click, outside click, focus trap), and no stimulus
    ever changes an element's [active] class, an [aria-expanded]
    attribute or the body's overflow. *)
Theorem menu_features_absent (p : Page) (ss : list Stimulus) :
  getElementById "mobileMenuToggle" p = None ∨
    getElementById "navLinks" p = None →
  (∀ nav, getElementById "navLinks" p = Some nav →
          "active" ∉ classList (elems p nav)) →
  let w := run ss (load p) in
  Forall (λ l, ¬ menu_listener (callback l)) (listeners (script w)) ∧
  (∀ m, "active" ∈ classList (elems (page w) m) ↔
        "active" ∈ classList (elems p m)) ∧
  (∀ m, attributes (elems (page w) m) !! "aria-expanded" =
        attributes (elems p m) !! "aria-expanded") ∧
  body_overflow (page w) = body_overflow p.
Proof.
  intros Hmiss Hact w.
  assert (menu_absent (bound p (fresh p))) as H0.
  { split_and!; [exact Hmiss|exact Hact|constructor]. }
  assert (menu_absent (load p) ∧ menu_frame None (bound p (fresh p)) (load p))
    as Hload.
  { rewrite load_unfold.
    destruct (init_absent (bound p (fresh p)) H0) as [H1 Hf1].
    assert (absent_step (exec init (bound p (fresh p)))
              (set_script (set_reinitAnimations true)
                 (exec init (bound p (fresh p))))) as Hs.
    { apply absent_step_intro; generalize (exec init (bound p (fresh p)));
        [menu_frame_leaf|not_menu_leaf]. }
    destruct (Hs H1) as [H2 Hf2]. split; [done|]. by etrans. }
  destruct (run_inv _ _ (absent_loop_invariant (bound p (fresh p))) ss (load p)
              Hload) as [(_ & _ & Hreg) (_ & _ & H3 & H4 & H5 & _)].
  done.
Qed.

(** A page without the toggle whose menu is not marked open. *)
Definition toggleless_closed_doc : Page :=
  Sample.document_of
    [ Sample.el "nav" [("id", "navbar")] ["navbar"] [];
      Sample.el "ul" [("id", "navLinks")] ["nav-links"] [0];
      Sample.el "a" [("href", "#features")] ["nav-link"] [1; 0] ]
    true.

Lemma menu_features_absent_witness :
  body_overflow (page
    (run [Dispatch (Sample.click_on 2);
          Dispatch (Sample.keypress "Escape" false 2)]
         (load toggleless_closed_doc))) =
  body_overflow toggleless_closed_doc.
Proof.
  apply (menu_features_absent toggleless_closed_doc).
  - left. reflexivity.
  - intros nav [= <-]. compute_done.
Defined.

(** ** A click on a hash anchor, through the event loop *)

Definition anchor_listener (a : node) : Listener :=
  {| on_target := Elem a; on_type := click; callback := anchor_click |}.

(** The registry of a ready page: the anchor listeners are those of the
    markup's hash anchors, one each, in document order. *)
Lemma load_anchor_listeners (p : Page) :
  readyState p ≠ loading →
  filter (λ l, callback l = anchor_click) (listeners (script (load p))) =
    anchor_listener <$> querySelectorAll_hash_anchors p.
Proof.
  intros Hr. rewrite load_unfold, init_ready by done.
  unfold init_features. rewrite 3!exec_seq by returns_auto.
  set (w3 := exec initScrollAnimations _).
  assert (same_tree (fresh p) w3) as Htree.
  { unfold w3.
    do 3 (apply keeps_exec_chain; [apply _|keeps_auto; same_tree_leaf|]).
    by split. }
  assert (appends (λ l, callback l ≠ anchor_click) (bound p (fresh p)) w3)
    as (_ & _ & x3 & Hx3 & Hp3).
  { unfold w3.
    do 3 (apply keeps_exec_chain;
          [apply _|keeps_auto; appends_leaf_by ltac:(done)|]).
    reflexivity. }
  rewrite exec_seq by returns_auto. world_simpl.
  set (w4 := exec initSmoothScroll w3).
  assert (listeners (script w4) =
            listeners (script w3) ++
            (anchor_listener <$> querySelectorAll_hash_anchors p)) as Hx4.
  { unfold w4, anchor_listener. rewrite <- forEach_addEventListener.
    f_equal. f_equal.
    unfold exec, initSmoothScroll. rewrite bind_unfold. unfold get at 1.
    cbv beta iota.
    by rewrite (querySelectorAll_hash_anchors_same_tree (fresh p) w3 Htree). }
  assert (appends (λ l, callback l ≠ anchor_click) w4
            (exec (initButtonEffects;; initKeyboardNavigation;;
                   setTimeout_checkInitialView) w4))
    as (_ & _ & x5 & Hx5 & Hp5).
  { apply keeps_exec_chain; [apply _| |reflexivity].
    keeps_auto; appends_leaf_by ltac:(done). }
  rewrite Hx5, Hx4, Hx3.
  change (listeners (script (bound p (fresh p)))) with (@nil Listener).
  rewrite !list.filter_app.
  rewrite (filter_none _ x3) by exact Hp3.
  rewrite (filter_none _ x5) by exact Hp5.
  rewrite app_nil_r, app_nil_l.
  generalize (querySelectorAll_hash_anchors p). clear. intros l.
  induction l as [|a l IH]; [done|].
  rewrite fmap_cons, filter_cons_True by done. by rewrite IH.
Qed.

(** The setting: on a page that was ready when the script ran, a click
    whose path from the target up passes through the hash anchor [a] and
    through no other.  (The document lists each element once, and an
    ancestor chain names no element twice.) *)
Definition through_anchor (p : Page) (a t : node) (e : Event) : Prop :=
  readyState p ≠ loading ∧
  NoDup (document_order p) ∧
  ev_type e = click ∧ target e = Elem t ∧
  NoDup (t :: ancestors (elems p t)) ∧
  a ∈ t :: ancestors (elems p t) ∧
  a ∈ querySelectorAll_hash_anchors p ∧
  Forall (λ m, m ∈ querySelectorAll_hash_anchors p → m = a)
         (t :: ancestors (elems p t)).

(** The world in which the first anchor listener that the event reaches
    starts: the flag is reset, and the listeners the event reaches before
    it (the menu's, on the anchor itself or below it) have run. *)
Fixpoint until_anchor (e : Event) (ls : list Listener) (w : World) : World :=
  match ls with
  | [] => w
  | l :: ls' =>
      if decide (callback l = anchor_click) then w
      else until_anchor e ls' (invoke e w l)
  end.

Definition before_anchor (e : Event) (w : World) : World :=
  until_anchor e (listeners_for e w) (set_defaultPrevented false w).

Lemma until_anchor_split (e : Event) (l1 l2 : list Listener) (la : Listener)
    (w : World) :
  Forall (λ l, callback l ≠ anchor_click) l1 → callback la = anchor_click →
  until_anchor e (l1 ++ la :: l2) w = foldl (invoke e) w l1.
Proof.
  intros Hl1 Hla. revert w. induction Hl1 as [|l l1 Hl _ IH]; intros w; simpl.
  - by rewrite decide_True.
  - rewrite decide_False by done. apply IH.
Qed.

(** What the menu's click listeners leave alone: the requests made so
    far, the scroll offset and the anchor's [href]. *)
Definition anchor_frame (a : node) : relation World := λ w w',
  same_requests w w' ∧
  pageYOffset (page w') = pageYOffset (page w) ∧
  attributes (elems (page w') a) !! "href" =
    attributes (elems (page w) a) !! "href".

Global Instance anchor_frame_preorder a : PreOrder (anchor_frame a).
Proof.
  split.
  - intros w. by split_and!.
  - intros w1 w2 w3 (Ha1 & Ha2 & Ha3) (Hb1 & Hb2 & Hb3).
    split_and!; [by etrans|congruence..].
Qed.

Ltac anchor_frame_leaf :=
  let w := fresh "w" in
  intros w; unfold anchor_frame, same_requests; world_simpl;
  split_and!;
  first
    [ reflexivity
    | rewrite alter_lookup; case_decide;
      [simpl; first [reflexivity|by rewrite lookup_insert_ne]|reflexivity] ].

Lemma menu_click_keeps_anchor_frame (a : node) (cb : Callback)
    (this : EventTarget) (e : Event) :
  menu_click cb → keeps (anchor_frame a) (call cb this e).
Proof.
  intros [->|[->| ->]]; simpl; keeps_auto; anchor_frame_leaf.
Qed.

Lemma foldl_menu_clicks_frame (a : node) (e : Event) (ls : list Listener)
    (w : World) :
  Forall (λ l, menu_click (callback l)) ls →
  anchor_frame a w (foldl (invoke e) w ls).
Proof.
  intros Hls. apply foldl_invoke_keeps; [apply _| |].
  - eapply list.Forall_impl; [exact Hls|].
    intros l Hl. by apply menu_click_keeps_anchor_frame.
  - intros err. anchor_frame_leaf.
Qed.

Lemma filter_anchor_target (a : node) (l : list node) :
  NoDup l →
  filter (λ x, on_target x = Elem a ∧ on_type x = click) (anchor_listener <$> l) =
    if decide (a ∈ l) then [anchor_listener a] else [].
Proof.
  induction 1 as [|m l Hm _ IH]; [done|].
  rewrite fmap_cons, filter_cons, IH. cbn [anchor_listener on_target on_type].
  destruct (decide (m = a)) as [->|Hne].
  - rewrite decide_True by done. rewrite decide_False by done.
    by rewrite decide_True by left.
  - rewrite decide_False by (intros [[=] _]; done). destruct (decide (a ∈ l)).
    + by rewrite decide_True by by right.
    + rewrite decide_False; [done|]. intros [?|?]%elem_of_cons; congruence.
Qed.

(** A click that passes through exactly one hash anchor runs one anchor
    listener, the one of that anchor. *)
Lemma anchor_listener_once (p : Page) (a t : node) (ss : list Stimulus)
    (e : Event) :
  readyState p ≠ loading →
  NoDup (document_order p) →
  ev_type e = click → target e = Elem t →
  NoDup (t :: ancestors (elems p t)) →
  a ∈ t :: ancestors (elems p t) →
  a ∈ querySelectorAll_hash_anchors p →
  (∀ m, m ∈ t :: ancestors (elems p t) →
        m ∈ querySelectorAll_hash_anchors p → m = a) →
  filter (λ l, callback l = anchor_click) (listeners_for e (run ss (load p))) =
    [anchor_listener a].
Proof.
  intros Hr Hdoc Hty Htg Hnd Hin Ha Honly.
  destruct (run_settled_ready p ss Hr) as [(_ & _ & _ & Hls) [_ Htree]].
  destruct (load_same_tree p) as [_ Htree0].
  unfold listeners_for. rewrite filter_bind, Hls, Hty.
  rewrite (click_path _ e t) by done.
  destruct (Htree t) as (_ & -> & _). destruct (Htree0 t) as (_ & -> & _).
  change (elems (page (fresh p)) t) with (elems p t).
  assert (NoDup (querySelectorAll_hash_anchors p)) as Hnda
    by (by apply list.NoDup_filter).
  assert (∀ tgt,
            filter (λ l, callback l = anchor_click)
              (listeners_on click (listeners (script (load p))) tgt) =
            match tgt with
            | Elem m => if decide (m ∈ querySelectorAll_hash_anchors p)
                        then [anchor_listener m] else []
            | _ => []
            end) as Hon.
  { intros tgt. unfold listeners_on.
    rewrite list_filter_filter.
    rewrite (list_filter_iff _
               (λ l, (on_target l = tgt ∧ on_type l = click) ∧
                     callback l = anchor_click)) by (intros l; tauto).
    rewrite <- list_filter_filter, (load_anchor_listeners p Hr).
    destruct tgt as [m| |].
    - by apply filter_anchor_target.
    - apply filter_none, list.Forall_forall.
      intros l (m & -> & _)%list_elem_of_fmap [[=] _].
    - apply filter_none, list.Forall_forall.
      intros l (m & -> & _)%list_elem_of_fmap [[=] _]. }
  rewrite bind_app.
  rewrite (bind_ext_in _ (λ tgt, if decide (Elem a = tgt)
                                 then [anchor_listener a] else [])
             (Elem <$> _)).
  - rewrite (bind_elem_once a _ _ Hnd), decide_True by done.
    by rewrite !bind_cons, !Hon.
  - intros tgt (m & -> & Hm)%list_elem_of_fmap. rewrite Hon.
    destruct (decide (Elem a = Elem m)) as [[= <-]|Hne].
    + by rewrite decide_True.
    + rewrite decide_False; [done|]. intros Hma.
      apply Hne. f_equal. symmetry. by apply Honly.
Qed.

(** The listeners such a click reaches: the anchor's, between two rows
    of the menu's click listeners; the first row has run when the
    anchor's starts. *)
Lemma anchor_dispatch (p : Page) (a t : node) (ss : list Stimulus)
    (e : Event) :
  through_anchor p a t e →
  ∃ l1 l2,
    listeners_for e (run ss (load p)) = l1 ++ anchor_listener a :: l2 ∧
    Forall (λ l, menu_click (callback l)) l1 ∧
    Forall (λ l, menu_click (callback l)) l2 ∧
    before_anchor e (run ss (load p)) =
      foldl (invoke e) (set_defaultPrevented false (run ss (load p))) l1 ∧
    anchor_frame a (set_defaultPrevented false (run ss (load p)))
      (before_anchor e (run ss (load p))) ∧
    attributes (elems (page (run ss (load p))) a) !! "href" =
      attributes (elems p a) !! "href".
Proof.
  intros (Hr & Hdoc & Hty & Htg & Hnd & Hin & Ha & Honly).
  rewrite list.Forall_forall in Honly.
  pose proof (anchor_listener_once p a t ss e Hr Hdoc Hty Htg Hnd Hin Ha Honly)
    as (l1 & l2 & Hl & Hl1 & Hl2)%filter_singleton_split.
  destruct (run_settled_ready p ss Hr) as [(_ & _ & _ & Hls) [_ Htree]].
  destruct (load_same_tree p) as [_ Htree0].
  set (w := run ss (load p)) in *.
  assert (∀ ls, ls ⊆ listeners_for e w →
            Forall (λ l, callback l ≠ anchor_click) ls →
            Forall (λ l, menu_click (callback l)) ls) as Hmenu.
  { intros ls Hsub Hls'. apply list.Forall_forall. intros l Hlin.
    rewrite list.Forall_forall in Hls'.
    apply Hsub in Hlin as Hfor.
    apply elem_of_listeners_for in Hfor as (Hreg & Hlty & _).
    rewrite Hls in Hreg. rewrite Hty in Hlty.
    pose proof (load_click_kinds p) as Hkinds.
    rewrite list.Forall_forall in Hkinds.
    destruct (Hkinds l Hreg Hlty) as [?|?]; [done|]. by destruct (Hls' l Hlin). }
  assert (Forall (λ l, menu_click (callback l)) l1) as Hm1.
  { apply Hmenu; [|done]. rewrite Hl. set_solver. }
  assert (before_anchor e w = foldl (invoke e) (set_defaultPrevented false w) l1)
    as Hw1.
  { unfold before_anchor. rewrite Hl. by apply until_anchor_split. }
  exists l1, l2. split_and!; [done|done| |done| |].
  - apply Hmenu; [|done]. rewrite Hl. set_solver.
  - rewrite Hw1. by apply foldl_menu_clicks_frame.
  - destruct (Htree a) as (_ & _ & _ & -> & _).
    by destruct (Htree0 a) as (_ & _ & _ & -> & _).
Qed.

(** When the [href] selects [tgt] in the world the anchor's listener
    starts in. *)
Lemma anchor_dispatch_found (p : Page) (a t tgt : node) (href : string)
    (ss : list Stimulus) (e : Event) :
  through_anchor p a t e →
  attributes (elems p a) !! "href" = Some href →
  (querySelector href (before_anchor e (run ss (load p)))).1 =
    Normal (Some tgt) →
  defaultPrevented (step (Dispatch e) (run ss (load p))) = true ∧
  scrollTo_calls (step (Dispatch e) (run ss (load p))) =
    scrollTo_calls (run ss (load p)) ++
      [ {| scroll_top :=
             PrimFloat.sub
               (PrimFloat.add
                  (rect_top (boundingClientRect
                     (page (before_anchor e (run ss (load p)))) tgt))
                  (pageYOffset (page (run ss (load p)))))
               80%float;
           behavior := "smooth" |} ].
Proof.
  intros Hthrough Hhref Hq.
  destruct (anchor_dispatch p a t ss e Hthrough)
    as (l1 & l2 & Hl & Hl1 & Hl2 & Hw1 & ((_ & Hs1 & _) & Hy & Hh) & Hh0).
  set (w := run ss (load p)) in *. set (w1 := before_anchor e w) in *.
  assert (step (Dispatch e) w =
            foldl (invoke e) (invoke e w1 (anchor_listener a)) l2) as ->.
  { cbn [step]. unfold dispatchEvent. rewrite Hl, foldl_app. cbn [foldl].
    by rewrite <- Hw1. }
  assert (invoke e w1 (anchor_listener a) =
            log_scrollTo
              {| scroll_top :=
                   PrimFloat.sub
                     (PrimFloat.add (rect_top (boundingClientRect (page w1) tgt))
                                    (pageYOffset (page w)))
                     headerOffset;
                 behavior := "smooth" |}
              (set_defaultPrevented true w1)) as ->.
  { unfold invoke, run_task. cbn [anchor_listener callback on_target call].
    rewrite (on_anchor_click_found w1 a tgt href); [by rewrite Hy| |done].
    rewrite Hh. world_simpl. by rewrite Hh0. }
  match goal with
  | |- context [foldl (invoke e) ?w2 l2] =>
      destruct (foldl_menu_clicks_frame a e l2 w2 Hl2) as ((Hd2 & Hs2 & _) & _)
  end.
  rewrite Hd2, Hs2. world_simpl. by rewrite Hs1.
Qed.

(** When the [href] is a bare hash or empty, or selects nothing there. *)
Lemma anchor_dispatch_idle (p : Page) (a t : node) (ss : list Stimulus)
    (e : Event) :
  through_anchor p a t e →
  (attributes (elems p a) !! "href" = Some "#" ∨
   attributes (elems p a) !! "href" = Some "" ∨
   ∀ tgt, (querySelector (string_of_attr (attributes (elems p a) !! "href"))
             (before_anchor e (run ss (load p)))).1 ≠ Normal (Some tgt)) →
  same_requests (set_defaultPrevented false (run ss (load p)))
                (step (Dispatch e) (run ss (load p))).
Proof.
  intros Hthrough Hhref.
  destruct (anchor_dispatch p a t ss e Hthrough)
    as (l1 & l2 & Hl & Hl1 & Hl2 & Hw1 & (Hreq & Hy & Hh) & Hh0).
  set (w := run ss (load p)) in *. set (w1 := before_anchor e w) in *.
  assert (step (Dispatch e) w =
            foldl (invoke e) (invoke e w1 (anchor_listener a)) l2) as ->.
  { cbn [step]. unfold dispatchEvent. rewrite Hl, foldl_app. cbn [foldl].
    by rewrite <- Hw1. }
  assert (attributes (elems (page w1) a) !! "href" =
            attributes (elems p a) !! "href") as Hh1.
  { rewrite Hh. world_simpl. exact Hh0. }
  etrans; [exact Hreq|].
  assert (same_requests w1 (invoke e w1 (anchor_listener a))) as Ha.
  { unfold invoke, run_task. cbn [anchor_listener callback on_target call].
    destruct (on_anchor_click_idle w1 a) as [-> | ->];
      [by rewrite Hh1|done|by split_and!]. }
  etrans; [exact Ha|].
  by destruct (foldl_menu_clicks_frame a e l2 (invoke e w1 (anchor_listener a)) Hl2).
Qed.

(** *** With the menu closed

    While the menu is closed, the closing mutation writes what is there
    already, so the listeners of the nav links and of the document leave
    the document as the anchor's listener would have found it before the
    click. *)
Definition same_document : relation World := λ w w',
  (∀ m, elems (page w') m = elems (page w) m) ∧
  document_order (page w') = document_order (page w) ∧
  layout (page w') = layout (page w) ∧
  selector (page w') = selector (page w) ∧
  body_overflow (page w') = body_overflow (page w) ∧
  activeElement (page w') = activeElement (page w) ∧
  pageYOffset (page w') = pageYOffset (page w) ∧
  innerHeight (page w') = innerHeight (page w) ∧
  mobileMenuToggle (script w') = mobileMenuToggle (script w) ∧
  navLinks (script w') = navLinks (script w).

Global Instance same_document_preorder : PreOrder same_document.
Proof.
  split.
  - intros w. by split_and!.
  - intros w1 w2 w3 (Ha & ? & ? & ? & ? & ? & ? & ? & ? & ?)
      (Hb & ? & ? & ? & ? & ? & ? & ? & ? & ?).
    split_and!; first [congruence | intros m; by rewrite Hb].
Qed.

Lemma same_document_snapshot (w w' : World) :
  same_document w w' → snapshot (page w') = snapshot (page w).
Proof.
  intros (He & Ho & _ & _ & Hb & Hf & Hy & Hh & _). unfold snapshot.
  rewrite Ho, Hb, Hf, Hy, Hh. f_equal.
  apply list_fmap_ext. intros i m _. by rewrite He.
Qed.

Lemma same_document_answers (w w' : World) (sel : string) (n : node) :
  same_document w w' →
  (querySelector sel w').1 = (querySelector sel w).1 ∧
  boundingClientRect (page w') n = boundingClientRect (page w) n.
Proof.
  intros Hd. pose proof (same_document_snapshot w w' Hd) as Hs.
  destruct Hd as (_ & _ & Hl & Hq & _).
  unfold querySelector, selected, boundingClientRect. js_run.
  rewrite Hs, Hl, Hq. split; [|done]. case_decide; [done|].
  by destruct (selector (page w) (snapshot (page w)) sel).
Qed.

Lemma same_document_menu_closed (w w' : World) :
  same_document w w' → menu_closed w → menu_closed w'.
Proof.
  intros (He & _ & _ & _ & Hb & _ & _ & _ & Ht & Hn) (Hc1 & Hc2 & Hc3).
  unfold menu_closed. rewrite Ht, Hn, Hb. setoid_rewrite He. done.
Qed.

Lemma set_classList_id (f : gset string → gset string) (el : Element) :
  f (classList el) = classList el → set_classList f el = el.
Proof. destruct el. unfold set_classList. simpl. by intros ->. Qed.

Lemma set_attributes_id (f : gmap string string → gmap string string)
    (el : Element) :
  f (attributes el) = attributes el → set_attributes f el = el.
Proof. destruct el. unfold set_attributes. simpl. by intros ->. Qed.

Lemma remove_active_closed (w : World) (n m : node) :
  "active" ∉ classList (elems (page w) n) →
  alter (set_classList (λ cs, cs ∖ {["active"]})) n (elems (page w)) m =
    elems (page w) m.
Proof.
  intros Hn. rewrite alter_lookup. case_decide; [subst|done].
  apply set_classList_id. set_solver.
Qed.

Lemma close_menu_closed (w : World) :
  menu_closed w → same_document w (exec close_menu w).
Proof.
  intros (Hc1 & Hc2 & Hc3). unfold exec.
  destruct (navLinks (script w)) as [nav|] eqn:Hnav;
    [destruct (mobileMenuToggle (script w)) as [tog|] eqn:Htog|].
  - rewrite (close_menu_spec w nav tog) by done. cbn [snd].
    destruct (Hc2 tog eq_refl) as [Hat Haria].
    unfold closed_world, same_document. world_simpl.
    split_and!; try done. intros m. rewrite alter_lookup.
    case_decide as Hm.
    + subst m. rewrite set_attributes_id.
      * rewrite alter_lookup, decide_True by done.
        rewrite set_classList_id; [by apply remove_active_closed, Hc1|].
        rewrite remove_active_closed by (by apply Hc1). set_solver.
      * cbn. rewrite alter_lookup, decide_True by done. cbn.
        rewrite remove_active_closed by (by apply Hc1).
        by apply insert_id.
    + rewrite alter_lookup, decide_False by done.
      by apply remove_active_closed, Hc1.
  - unfold close_menu, ref. js_run. rewrite Hnav. cbn [deref].
    unfold classList_remove, update_element. js_run. rewrite Htog.
    cbn [deref]. js_run. unfold same_document. world_simpl.
    split_and!; try done. intros m. by apply remove_active_closed, Hc1.
  - unfold close_menu, ref. js_run. rewrite Hnav. cbn [deref]. js_run.
    reflexivity.
Qed.

Lemma same_document_report (err : JsError) (w : World) :
  same_document w (report err w).
Proof. by split_and!. Qed.

(** A listener of a nav link or of the document, run while the menu is
    closed. *)
Lemma invoke_closed_idle (e : Event) (l : Listener) (w : World) :
  menu_closed w → menu_click (callback l) → callback l ≠ toggle_click →
  same_document w (invoke e w l).
Proof.
  intros Hc [Hcb|[Hcb|Hcb]] Hnt; [done| |]; unfold invoke, run_task;
    rewrite Hcb; cbn [call].
  - pose proof (close_menu_closed w Hc) as Hd. unfold on_navlink_click, exec in *.
    destruct (close_menu w) as [[[]|err] w']; [done|].
    etrans; [exact Hd|apply same_document_report].
  - destruct (on_document_click_cases e w) as [[c ->]| ->].
    + destruct c; [reflexivity|apply same_document_report].
    + pose proof (close_menu_closed w Hc) as Hd. unfold exec in Hd.
      destruct (close_menu w) as [[[]|err] w']; [done|].
      etrans; [exact Hd|apply same_document_report].
Qed.

Lemma foldl_closed_idle (e : Event) (ls : list Listener) (w : World) :
  menu_closed w →
  Forall (λ l, menu_click (callback l) ∧ callback l ≠ toggle_click) ls →
  same_document w (foldl (invoke e) w ls).
Proof.
  intros Hc Hls. revert w Hc. induction Hls as [|l ls [Hm Hnt] _ IH];
    intros w Hc; [reflexivity|].
  cbn [foldl]. pose proof (invoke_closed_idle e l w Hc Hm Hnt) as Hd.
  etrans; [exact Hd|]. apply IH. by apply (same_document_menu_closed w).
Qed.

(** On a ready page the toggle's click listener sits on the toggle. *)
Lemma load_toggle_listeners (p : Page) :
  readyState p ≠ loading →
  Forall (λ l, callback l = toggle_click →
               ∃ tog, getElementById "mobileMenuToggle" p = Some tog ∧
                      on_target l = Elem tog)
         (listeners (script (load p))).
Proof.
  intros Hr. rewrite load_unfold, init_ready by done.
  unfold init_features. rewrite exec_seq by returns_auto.
  set (w1 := exec initMobileMenu _).
  assert (Forall (λ l, callback l = toggle_click →
                       ∃ tog, getElementById "mobileMenuToggle" p = Some tog ∧
                              on_target l = Elem tog)
                 (listeners (script w1))) as H1.
  { destruct (getElementById "mobileMenuToggle" p) as [tog|] eqn:Ht;
      [destruct (getElementById "navLinks" p) as [nav|] eqn:Hn|].
    - unfold w1. rewrite (initMobileMenu_listeners (bound p (fresh p)) nav tog Hn Ht).
      cbn [app]. constructor; [intros _; by exists tog|].
      apply Forall_app. split; [|by constructor].
      apply list.Forall_forall. by intros l (m & -> & _)%list_elem_of_fmap.
    - assert (listeners (script w1) = []) as ->; [|constructor].
      unfold w1, exec, initMobileMenu. rewrite bind_unfold. unfold get at 1.
      cbv beta iota.
      change (navLinks (script (bound p (fresh p))))
        with (getElementById "navLinks" p). rewrite Hn.
      by destruct (mobileMenuToggle _).
    - assert (listeners (script w1) = []) as ->; [|constructor].
      unfold w1, exec, initMobileMenu. rewrite bind_unfold. unfold get at 1.
      cbv beta iota.
      change (mobileMenuToggle (script (bound p (fresh p))))
        with (getElementById "mobileMenuToggle" p). by rewrite Ht. }
  assert (appends (λ l, callback l ≠ toggle_click) w1
            (exec (initNavbarScroll;; initScrollAnimations;; initSmoothScroll;;
                   initButtonEffects;; initKeyboardNavigation;;
                   setTimeout_checkInitialView) w1))
    as (_ & _ & extra & Hx & Hextra).
  { apply keeps_exec_chain; [apply _| |reflexivity].
    keeps_auto; appends_leaf_by ltac:(done). }
  world_simpl. rewrite Hx. apply Forall_app. split; [done|].
  eapply list.Forall_impl; [exact Hextra|]. by intros l ? ?.
Qed.

(** With the menu closed and the toggle off the click's path, the
    anchor's listener starts in the document as it was before the click. *)
Lemma before_anchor_closed (p : Page) (a t : node) (ss : list Stimulus)
    (e : Event) :
  through_anchor p a t e →
  Forall (λ m, getElementById "mobileMenuToggle" p ≠ Some m)
         (t :: ancestors (elems p t)) →
  menu_closed (run ss (load p)) →
  same_document (run ss (load p)) (before_anchor e (run ss (load p))).
Proof.
  intros Hthrough Hoff Hclosed.
  destruct (anchor_dispatch p a t ss e Hthrough)
    as (l1 & l2 & Hl & Hl1 & _ & Hw1 & _).
  destruct Hthrough as (Hr & _ & Hty & Htg & _).
  destruct (run_settled_ready p ss Hr) as [(_ & _ & _ & Hls) [_ Htree]].
  destruct (load_same_tree p) as [_ Htree0].
  set (w := run ss (load p)) in *. rewrite Hw1.
  assert (same_document w (set_defaultPrevented false w)) as H0
    by (by split_and!).
  etrans; [exact H0|]. apply foldl_closed_idle.
  { by apply (same_document_menu_closed w). }
  apply list.Forall_forall. intros l Hlin.
  rewrite list.Forall_forall in Hl1. split; [by apply Hl1|]. intros Hcb.
  assert (l ∈ listeners_for e w) as Hfor by (rewrite Hl; set_solver).
  apply elem_of_listeners_for in Hfor as (Hreg & _ & Hpath).
  rewrite Hls in Hreg.
  pose proof (load_toggle_listeners p Hr) as Htl.
  rewrite list.Forall_forall in Htl.
  destruct (Htl l Hreg Hcb) as (tog & Htog & Hon).
  rewrite (click_path _ e t) in Hpath by done.
  rewrite Hon in Hpath. apply elem_of_element_path in Hpath.
  destruct (Htree t) as (_ & Hanc & _). rewrite Hanc in Hpath.
  destruct (Htree0 t) as (_ & Hanc0 & _). rewrite Hanc0 in Hpath.
  rewrite list.Forall_forall in Hoff. by destruct (Hoff tog Hpath).
Qed.

(** *** An [href] that is an id selector

    Nothing the script or the browser does after loading changes the
    selector engine, the document order or an [id]; so an id selector
    names, whenever the anchor's listener runs, the element it names in
    the markup. *)
Definition same_engine : relation World := λ w w',
  selector (page w') = selector (page w).

Global Instance same_engine_preorder : PreOrder same_engine.
Proof.
  split; [by intros w|]. intros w1 w2 w3. unfold same_engine. congruence.
Qed.

Ltac same_engine_leaf := let w := fresh "w" in intros w; reflexivity.

Lemma call_keeps_engine (cb : Callback) (this : EventTarget) (e : Event) :
  keeps same_engine (call cb this e).
Proof. destruct cb; simpl; keeps_auto; same_engine_leaf. Qed.

Lemma engine_loop_invariant (w0 : World) :
  loop_invariant (same_engine w0) (λ _, True).
Proof.
  assert (∀ (m : Js unit) w, keeps same_engine m →
            same_engine w0 w → same_engine w0 (run_task m w)) as Htask.
  { intros m w Hm Hw. etrans; [exact Hw|].
    apply keeps_run_task; [apply _|done|]. intros err. same_engine_leaf. }
  split; try done.
  - intros w l e Hw _. apply Htask; [apply call_keeps_engine|done].
  - intros w o es Hw. by apply Htask; [keeps_auto; same_engine_leaf|].
  - intros w Hw. by apply Htask; [keeps_auto; same_engine_leaf|].
  - intros w Hw. by apply Htask; [keeps_auto; same_engine_leaf|].
Qed.

Lemma snapshot_id_spec (id : string) (p : Page) :
  snapshot_id id (snapshot p) = getElementById id p.
Proof.
  unfold snapshot_id, getElementById, snapshot. cbn [snap_elements].
  induction (document_order p) as [|n l IH]; [done|].
  rewrite fmap_cons, !filter_cons. cbn [snd].
  case_decide; [done|exact IH].
Qed.

Lemma identifier_nonempty (id : string) : is_identifier id = true → id ≠ "".
Proof. by intros Hid ->. Qed.

(** What [querySelector] answers to an id selector. *)
Lemma querySelector_id (w : World) (id : string) :
  resolves_ids (page w) → is_identifier id = true →
  querySelector (String "#" id) w = (Normal (getElementById id (page w)), w).
Proof.
  intros Hres Hid. unfold querySelector, selected. js_run.
  rewrite decide_False.
  2:{ intros [[=]|[= ->]]. discriminate Hid. }
  rewrite (Hres _ id Hid). unfold id_answer. rewrite snapshot_id_spec.
  by destruct (getElementById id (page w)).
Qed.

(** The engine and the ids the anchor's listener finds are those of the
    markup. *)
Lemma before_anchor_markup (p : Page) (a t : node) (ss : list Stimulus)
    (e : Event) (id : string) :
  through_anchor p a t e →
  selector (page (before_anchor e (run ss (load p)))) = selector p ∧
  getElementById id (page (before_anchor e (run ss (load p)))) =
    getElementById id p.
Proof.
  intros Hthrough.
  destruct (anchor_dispatch p a t ss e Hthrough)
    as (l1 & l2 & _ & _ & _ & Hw1 & _).
  destruct Hthrough as (Hr & _).
  set (w := run ss (load p)) in *. rewrite Hw1. split.
  - assert (same_engine (fresh p) w) as H0.
    { apply (run_inv _ _ (engine_loop_invariant (fresh p))).
      unfold load. apply keeps_run_task; [apply _| |intros err; same_engine_leaf].
      unfold main. keeps_auto; same_engine_leaf. }
    assert (same_engine (set_defaultPrevented false w)
              (foldl (invoke e) (set_defaultPrevented false w) l1)) as H1.
    { apply (foldl_invoke_keeps same_engine); [|intros err; same_engine_leaf].
      apply list.Forall_forall. intros l _. apply call_keeps_engine. }
    unfold same_engine in *. by rewrite H1.
  - assert (same_tree (fresh p) w) as H0.
    { etrans; [apply load_same_tree|].
      destruct (run_settled_ready p ss Hr) as [_ Htree]. exact Htree. }
    assert (same_tree (set_defaultPrevented false w)
              (foldl (invoke e) (set_defaultPrevented false w) l1)) as H1.
    { apply (foldl_invoke_keeps same_tree); [|intros err; same_tree_leaf].
      apply list.Forall_forall. intros l _. apply call_keeps_tree. }
    rewrite (getElementById_same_tree _ _ id H1).
    exact (getElementById_same_tree _ _ id H0).
Qed.

(** C5.  An anchor link whose [href] names an element of the document.
    The listener itself: when the [href] selects an element, it returns
    normally, has called [preventDefault], and has made exactly one
    [scrollTo] request, smooth, with [top] the target's viewport-relative
    top plus the current scroll offset minus 80; the page is untouched.
    Every activation: on a page that was ready when the script ran, after
    any history, a click on such an anchor or inside it runs that
    listener once, so that when the event has reached the window
    [preventDefault] has been called and exactly that one request has
    been made.  The [href] is resolved, and the target's rect read, in
    the document as the listener finds it: when the anchor is a nav link
    the menu has been closed by then.  An [href] that is a hash followed
    by an identifier, with a selector engine that resolves id selectors,
    names the element that has this id in the markup, whatever the menu's
    state.  With the menu closed and the toggle not on the click's path,
    the listener finds the document as it was before the click. *)
Theorem anchor_click_scrolls_to_target :
  (∀ (w : World) (a tgt : node) (href : string) (e : Event),
     attributes (elems (page w) a) !! "href" = Some href →
     (querySelector href w).1 = Normal (Some tgt) →
     (call anchor_click (Elem a) e w).1 = Normal tt ∧
     defaultPrevented (exec (call anchor_click (Elem a) e) w) = true ∧
     scrollTo_calls (exec (call anchor_click (Elem a) e) w) =
       scrollTo_calls w ++
         [ {| scroll_top :=
                PrimFloat.sub
                  (PrimFloat.add (rect_top (boundingClientRect (page w) tgt))
                                 (pageYOffset (page w)))
                  80%float;
              behavior := "smooth" |} ] ∧
     page (exec (call anchor_click (Elem a) e) w) = page w) ∧
  (∀ (p : Page) (a t tgt : node) (href : string) (ss : list Stimulus)
     (e : Event),
     through_anchor p a t e →
     attributes (elems p a) !! "href" = Some href →
     let w := run ss (load p) in
     let w1 := before_anchor e w in
     let w' := step (Dispatch e) w in
     (querySelector href w1).1 = Normal (Some tgt) →
     defaultPrevented w' = true ∧
     scrollTo_calls w' =
       scrollTo_calls w ++
         [ {| scroll_top :=
                PrimFloat.sub
                  (PrimFloat.add (rect_top (boundingClientRect (page w1) tgt))
                                 (pageYOffset (page w)))
                  80%float;
              behavior := "smooth" |} ]) ∧
  (∀ (p : Page) (a t tgt : node) (id : string) (ss : list Stimulus)
     (e : Event),
     through_anchor p a t e →
     attributes (elems p a) !! "href" = Some (String "#" id) →
     is_identifier id = true →
     resolves_ids p →
     getElementById id p = Some tgt →
     let w := run ss (load p) in
     let w1 := before_anchor e w in
     let w' := step (Dispatch e) w in
     defaultPrevented w' = true ∧
     scrollTo_calls w' =
       scrollTo_calls w ++
         [ {| scroll_top :=
                PrimFloat.sub
                  (PrimFloat.add (rect_top (boundingClientRect (page w1) tgt))
                                 (pageYOffset (page w)))
                  80%float;
              behavior := "smooth" |} ]) ∧
  (∀ (p : Page) (a t tgt : node) (href : string) (ss : list Stimulus)
     (e : Event),
     through_anchor p a t e →
     attributes (elems p a) !! "href" = Some href →
     Forall (λ m, getElementById "mobileMenuToggle" p ≠ Some m)
            (t :: ancestors (elems p t)) →
     let w := run ss (load p) in
     let w' := step (Dispatch e) w in
     menu_closed w →
     (querySelector href w).1 = Normal (Some tgt) →
     defaultPrevented w' = true ∧
     scrollTo_calls w' =
       scrollTo_calls w ++
         [ {| scroll_top :=
                PrimFloat.sub
                  (PrimFloat.add (rect_top (boundingClientRect (page w) tgt))
                                 (pageYOffset (page w)))
                  80%float;
              behavior := "smooth" |} ]).
Proof.
  split_and!.
  - intros w a tgt href e Hhref Hq. unfold exec. cbn [call].
    by rewrite (on_anchor_click_found w a tgt href).
  - intros p a t tgt href ss e Hthrough Hhref w w1 w' Hq.
    by apply (anchor_dispatch_found p a t tgt href ss e).
  - intros p a t tgt id ss e Hthrough Hhref Hid Hres Hid0 w w1 w'.
    apply (anchor_dispatch_found p a t tgt (String "#" id) ss e); [done|done|].
    destruct (before_anchor_markup p a t ss e id Hthrough) as [Heng Hsame].
    assert (resolves_ids (page (before_anchor e (run ss (load p))))) as Hres1.
    { intros s id' Hid'. rewrite Heng. by apply Hres. }
    rewrite (querySelector_id _ id Hres1 Hid). cbn [fst]. by rewrite Hsame, Hid0.
  - intros p a t tgt href ss e Hthrough Hhref Hoff w w' Hclosed Hq.
    pose proof (before_anchor_closed p a t ss e Hthrough Hoff Hclosed) as Hd.
    destruct (same_document_answers w (before_anchor e w) href tgt Hd)
      as [Hsel Hrect].
    fold w in Hd. rewrite <- Hrect.
    apply (anchor_dispatch_found p a t tgt href ss e); [done|done|].
    etrans; [exact Hsel|exact Hq].
Qed.

Lemma through_anchor_link (link : node) :
  link = Sample.link1_id ∨ link = Sample.link2_id →
  through_anchor Sample.doc link link (Sample.click_on link).
Proof.
  intros [-> | ->];
    (split_and!; [done|compute_done|reflexivity|reflexivity|compute_done
                 |compute_done|compute_done|compute_done]).
Defined.

Lemma sample_resolves_ids : resolves_ids Sample.doc.
Proof. intros s id Hid. cbn. by rewrite Hid. Defined.

Lemma anchor_click_scrolls_to_target_witness :
  scrollTo_calls
    (exec (call anchor_click (Elem Sample.link1_id)
                (Sample.click_on Sample.link1_id))
          (set_page (set_pageYOffset 120.5%float) (load Sample.doc))) =
  [ {| scroll_top := 820.5%float; behavior := "smooth" |} ] ∧
  scrollTo_calls
    (step (Dispatch (Sample.click_on Sample.link2_id))
          (run [Dispatch (Sample.click_on Sample.toggle_id); Scrolled 10%float]
               (load Sample.doc))) =
  [ {| scroll_top := 1330.5%float; behavior := "smooth" |} ] ∧
  defaultPrevented
    (step (Dispatch (Sample.click_on Sample.link2_id))
          (run [Dispatch (Sample.click_on Sample.toggle_id)]
               (load Sample.doc))) = true ∧
  scrollTo_calls
    (step (Dispatch (Sample.click_on Sample.link1_id))
          (run [Scrolled 120.5%float] (load Sample.doc))) =
  [ {| scroll_top := 820.5%float; behavior := "smooth" |} ].
Proof.
  destruct anchor_click_scrolls_to_target
    as (Hlistener & Hdispatch & Hid & Hclosed).
  split_and!.
  - destruct (Hlistener
                (set_page (set_pageYOffset 120.5%float) (load Sample.doc))
                Sample.link1_id Sample.features_id "#features"
                (Sample.click_on Sample.link1_id))
      as (_ & _ & Hs & _); [vm_compute; reflexivity..|].
    rewrite Hs. vm_compute. reflexivity.
  - destruct (Hdispatch Sample.doc Sample.link2_id Sample.link2_id
                Sample.pricing_id "#pricing"
                [Dispatch (Sample.click_on Sample.toggle_id); Scrolled 10%float]
                (Sample.click_on Sample.link2_id))
      as [_ Hs];
      [apply through_anchor_link; by right|reflexivity
      |vm_compute; reflexivity|].
    rewrite Hs. vm_compute. reflexivity.
  - apply (Hid Sample.doc Sample.link2_id Sample.link2_id
             Sample.pricing_id "pricing"
             [Dispatch (Sample.click_on Sample.toggle_id)]
             (Sample.click_on Sample.link2_id));
      [apply through_anchor_link; by right|reflexivity|reflexivity
      |exact sample_resolves_ids|reflexivity].
  - destruct (Hclosed Sample.doc Sample.link1_id Sample.link1_id
                Sample.features_id "#features" [Scrolled 120.5%float]
                (Sample.click_on Sample.link1_id))
      as [_ Hs];
      [apply through_anchor_link; by left|reflexivity|compute_done| 
      |vm_compute; reflexivity|].
    + split_and!.
      * intros nav [= <-]. compute_done.
      * intros tog [= <-]. split; [compute_done|vm_compute; reflexivity].
      * reflexivity.
    + rewrite Hs. vm_compute. reflexivity.
Defined.

(** X14.  On a ready page, after any history, a click on an anchor whose
    [href] starts with a hash, or inside such an anchor, when the [href]
    is a bare hash or empty, or selects nothing in the document as the
    anchor's listener finds it, or is an id selector for an id that no
    element of the markup has: when the event has reached the window the
    script has called neither [preventDefault] nor [window.scrollTo] nor
    [focus], whatever the menu's listeners on the way did; the browser's
    default action for the link goes ahead. *)
Theorem hash_anchor_click_without_target (p : Page) (a t : node)
    (ss : list Stimulus) (e : Event) :
  through_anchor p a t e →
  let w := run ss (load p) in
  let w1 := before_anchor e w in
  let w' := step (Dispatch e) w in
  (attributes (elems p a) !! "href" = Some "#" ∨
   attributes (elems p a) !! "href" = Some "" ∨
   (∀ tgt, (querySelector (string_of_attr (attributes (elems p a) !! "href"))
              w1).1 ≠ Normal (Some tgt)) ∨
   (∃ id, attributes (elems p a) !! "href" = Some (String "#" id) ∧
          is_identifier id = true ∧ resolves_ids p ∧
          getElementById id p = None)) →
  defaultPrevented w' = false ∧
  scrollTo_calls w' = scrollTo_calls w ∧
  focus_calls w' = focus_calls w.
Proof.
  intros Hthrough w w1 w' Hhref.
  assert (attributes (elems p a) !! "href" = Some "#" ∨
          attributes (elems p a) !! "href" = Some "" ∨
          ∀ tgt, (querySelector
                    (string_of_attr (attributes (elems p a) !! "href"))
                    (before_anchor e (run ss (load p)))).1 ≠ Normal (Some tgt))
    as Hidle.
  { destruct Hhref as [?|[?|[?|(id & Hh & Hid & Hres & Hnone)]]]; auto.
    right. right. intros tgt. rewrite Hh. cbn [string_of_attr].
    destruct (before_anchor_markup p a t ss e id Hthrough) as [Heng Hsame].
    assert (resolves_ids (page (before_anchor e (run ss (load p))))) as Hres1.
    { intros s id' Hid'. rewrite Heng. by apply Hres. }
    rewrite (querySelector_id _ id Hres1 Hid). cbn [fst].
    by rewrite Hsame, Hnone. }
  by destruct (anchor_dispatch_idle p a t ss e Hthrough Hidle) as (? & ? & ?).
Qed.

(** The sample page with a link to a section that does not exist. *)
Definition dangling_doc : Page :=
  Sample.document_of
    [ Sample.el "a" [("href", "#nowhere")] [] [];
      Sample.el "section" [("id", "features")] [] [] ]
    true.

Lemma hash_anchor_click_without_target_witness :
  (defaultPrevented
     (step (Dispatch (Sample.click_on Sample.cta_id))
           (run [Scrolled 10%float] (load Sample.doc))) = false ∧
   scrollTo_calls
     (step (Dispatch (Sample.click_on Sample.cta_id))
           (run [Scrolled 10%float] (load Sample.doc))) =
   scrollTo_calls (run [Scrolled 10%float] (load Sample.doc))) ∧
  defaultPrevented
    (step (Dispatch (Sample.click_on 0)) (run [] (load dangling_doc))) = false.
Proof.
  split.
  - destruct (hash_anchor_click_without_target Sample.doc Sample.cta_id
                Sample.cta_id [Scrolled 10%float]
                (Sample.click_on Sample.cta_id)) as (H1 & H2 & _).
    + split_and!; [done|compute_done|reflexivity|reflexivity|compute_done
                  |compute_done|compute_done|compute_done].
    + left. reflexivity.
    + split; [exact H1|exact H2].
  - apply (hash_anchor_click_without_target dangling_doc 0 0 []
             (Sample.click_on 0)).
    + split_and!; [done|compute_done|reflexivity|reflexivity|compute_done
                  |compute_done|compute_done|compute_done].
    + right. right. right. exists "nowhere".
      split_and!; [reflexivity|reflexivity| |reflexivity].
      intros s id Hid. cbn. by rewrite Hid.
Defined.

(** ** A page without the navbar *)

Definition scrolled_frame : relation World := λ w w',
  navbar (script w') = navbar (script w) ∧
  ∀ m, "scrolled" ∈ classList (elems (page w') m) ↔
       "scrolled" ∈ classList (elems (page w) m).

Global Instance scrolled_frame_preorder : PreOrder scrolled_frame.
Proof.
  split.
  - by intros w.
  - intros w1 w2 w3 [Ha Ha'] [Hb Hb']. split; [congruence|].
    intros m. by rewrite Hb'.
Qed.

Ltac scrolled_frame_leaf :=
  let w := fresh "w" in let m := fresh "m" in
  intros w; split; [reflexivity|]; intros m; world_simpl;
  first [ done | rewrite alter_lookup; case_decide; simpl; set_solver ].

(** The navbar is missing and the scroll listener is not registered. *)
Definition navbar_absent (w : World) : Prop :=
  navbar (script w) = None ∧
  Forall (λ l, callback l ≠ navbar_scroll) (listeners (script w)).

Definition navbar_absent_step : relation World := λ w w',
  navbar_absent w → navbar_absent w' ∧ scrolled_frame w w'.

Global Instance navbar_absent_step_preorder : PreOrder navbar_absent_step.
Proof.
  split.
  - intros w Hw. split; [done|reflexivity].
  - intros w1 w2 w3 H12 H23 Hw1. destruct (H12 Hw1) as [Hw2 Hf12].
    destruct (H23 Hw2) as [Hw3 Hf23]. split; [done|]. by etrans.
Qed.

Lemma navbar_absent_step_intro (w w' : World) :
  scrolled_frame w w' →
  appends (λ l, callback l ≠ navbar_scroll) w w' →
  navbar_absent_step w w'.
Proof.
  intros Hf (_ & _ & extra & Hx & Hextra) [Hnb Hreg].
  split; [|done]. destruct Hf as [Hf _]. split.
  - by rewrite Hf.
  - rewrite Hx. by apply Forall_app.
Qed.

Lemma keeps_navbar_absent_step {A} (m : Js A) :
  keeps scrolled_frame m →
  keeps (appends (λ l, callback l ≠ navbar_scroll)) m →
  keeps navbar_absent_step m.
Proof. intros H1 H2 w. by apply navbar_absent_step_intro. Qed.

Ltac navbar_absent_auto :=
  apply keeps_navbar_absent_step;
  [ keeps_auto; scrolled_frame_leaf
  | keeps_auto; appends_leaf_by ltac:(done) ].

Lemma initNavbarScroll_absent : keeps navbar_absent_step initNavbarScroll.
Proof.
  unfold initNavbarScroll. apply keeps_get_bind. intros w Hw.
  pose proof Hw as [Hnb _]. rewrite Hnb. by split.
Qed.

Lemma init_navbar_absent : keeps navbar_absent_step init.
Proof.
  unfold init. apply keeps_bind; [apply _|apply keeps_get; apply _|].
  intros w0. case_decide; [navbar_absent_auto|].
  unfold init_features.
  apply keeps_bind; [apply _|navbar_absent_auto|intros _].
  apply keeps_bind; [apply _|apply initNavbarScroll_absent|intros _].
  navbar_absent_auto.
Qed.

Lemma call_navbar_absent (cb : Callback) (this : EventTarget) (e : Event) :
  cb ≠ navbar_scroll → keeps navbar_absent_step (call cb this e).
Proof.
  destruct cb; try done; intros _; simpl;
    try apply init_navbar_absent; navbar_absent_auto.
Qed.

Lemma on_intersection_navbar_absent o es :
  keeps navbar_absent_step (on_intersection o es).
Proof. navbar_absent_auto. Qed.

Lemma checkInitialView_navbar_absent : keeps navbar_absent_step checkInitialView.
Proof. navbar_absent_auto. Qed.

Lemma initScrollAnimations_navbar_absent :
  keeps navbar_absent_step initScrollAnimations.
Proof. navbar_absent_auto. Qed.

Lemma report_navbar_absent (err : JsError) (w : World) :
  navbar_absent_step w (report err w).
Proof.
  apply navbar_absent_step_intro; revert w;
    [scrolled_frame_leaf|appends_leaf_by idtac].
Qed.

Lemma navbar_absent_loop_invariant (w0 : World) :
  loop_invariant (λ w, navbar_absent w ∧ scrolled_frame w0 w)
                 (λ l, callback l ≠ navbar_scroll).
Proof.
  assert (∀ w w', navbar_absent_step w w' →
            navbar_absent w ∧ scrolled_frame w0 w →
            navbar_absent w' ∧ scrolled_frame w0 w') as Hstep.
  { intros w w' Hs [Hw Hf]. destruct (Hs Hw) as [Hw' Hf']. split; [done|].
    by etrans. }
  assert (∀ (m : Js unit) w, keeps navbar_absent_step m →
            navbar_absent w ∧ scrolled_frame w0 w →
            navbar_absent (run_task m w) ∧ scrolled_frame w0 (run_task m w))
    as Htask.
  { intros m w Hm. apply Hstep. apply keeps_run_task; [apply _|done|].
    apply report_navbar_absent. }
  assert (∀ (f : World → World) w,
            (∀ w, scrolled_frame w (f w)) →
            (∀ w, appends (λ l, callback l ≠ navbar_scroll) w (f w)) →
            navbar_absent w ∧ scrolled_frame w0 w →
            navbar_absent (f w) ∧ scrolled_frame w0 (f w)) as Hupd.
  { intros f w Hf Ha. apply Hstep. by apply navbar_absent_step_intro. }
  split.
  - intros w l [[_ Hreg] _] Hl. rewrite list.Forall_forall in Hreg.
    by apply Hreg.
  - intros w l e Hw Hl. unfold invoke.
    apply Htask; [by apply call_navbar_absent|done].
  - intros w b. apply Hupd; [scrolled_frame_leaf|appends_leaf_by idtac].
  - intros w y. apply Hupd; [scrolled_frame_leaf|appends_leaf_by idtac].
  - intros w late _. apply Hupd; [scrolled_frame_leaf|appends_leaf_by idtac].
  - intros w _. apply Hupd; [scrolled_frame_leaf|appends_leaf_by idtac].
  - intros w l h. apply Hupd; [scrolled_frame_leaf|appends_leaf_by idtac].
  - intros w m. apply Hupd; [scrolled_frame_leaf|appends_leaf_by idtac].
  - intros w. apply Hupd; [scrolled_frame_leaf|appends_leaf_by idtac].
  - intros w o es. apply Htask, on_intersection_navbar_absent.
  - intros w. apply Htask, checkInitialView_navbar_absent.
  - intros w. apply Htask, initScrollAnimations_navbar_absent.
Qed.

(** X15.  On a page (ready or still loading) without a navbar, the
    scroll listener is never registered, and no stimulus, scrolling
    included, ever changes the [scrolled] class of any element. *)
Theorem navbar_features_absent (p : Page) (ss : list Stimulus) :
  getElementById "navbar" p = None →
  let w := run ss (load p) in
  Forall (λ l, callback l ≠ navbar_scroll) (listeners (script w)) ∧
  ∀ m, "scrolled" ∈ classList (elems (page w) m) ↔
       "scrolled" ∈ classList (elems p m).
Proof.
  intros Hnb w.
  assert (navbar_absent (bound p (fresh p))) as H0
    by (split; [exact Hnb|constructor]).
  assert (navbar_absent (load p) ∧ scrolled_frame (bound p (fresh p)) (load p))
    as Hload.
  { rewrite load_unfold.
    destruct (init_navbar_absent (bound p (fresh p)) H0) as [H1 Hf1].
    assert (navbar_absent_step (exec init (bound p (fresh p)))
              (set_script (set_reinitAnimations true)
                 (exec init (bound p (fresh p))))) as Hs.
    { apply navbar_absent_step_intro; generalize (exec init (bound p (fresh p)));
        [scrolled_frame_leaf|appends_leaf_by idtac]. }
    destruct (Hs H1) as [H2 Hf2]. split; [done|]. by etrans. }
  destruct (run_inv _ _ (navbar_absent_loop_invariant (bound p (fresh p)))
              ss (load p) Hload) as [[_ Hreg] [_ Hf]].
  done.
Qed.

(** A page that is one animated section. *)
Definition navbarless_doc : Page :=
  Sample.document_of
    [ Sample.el "section" [("id", "features")] ["fade-in"] [] ] true.

Lemma navbar_features_absent_witness :
  "scrolled" ∈ classList (elems (page
    (run [Scrolled 700%float] (load navbarless_doc))) 0) ↔
  "scrolled" ∈ classList (elems navbarless_doc 0).
Proof.
  apply (navbar_features_absent navbarless_doc [Scrolled 700%float]).
  reflexivity.
Defined.

(** ** No listener throws a [TypeError]

    The script dereferences its bindings without a test inside its
    listeners; what makes that safe is where each listener is registered
    and under which guard. *)

(** A listener that finds what it dereferences, the bindings being [t],
    [n] and [nb]. *)
Definition well_placed (t n nb : option node) (l : Listener) : Prop :=
  match callback l with
  | toggle_click | navlink_click | trap_keydown _ => is_Some t ∧ is_Some n
  | document_click => is_Some t ∧ is_Some n ∧ on_target l = Document
  | navbar_scroll => is_Some nb
  | anchor_click | button_mouseenter | button_mouseleave =>
      ∃ m, on_target l = Elem m
  | escape_keydown | init_callback => True
  end.

(** The bindings are [t], [n] and [nb]; every registered listener is well
    placed; and without a toggle the menu does not carry [active]. *)
Definition sound (t n nb : option node) (w : World) : Prop :=
  mobileMenuToggle (script w) = t ∧
  navLinks (script w) = n ∧
  navbar (script w) = nb ∧
  Forall (well_placed t n nb) (listeners (script w)) ∧
  (t = None → ∀ nav, n = Some nav →
     "active" ∉ classList (elems (page w) nav)).

(** The registry grows by well-placed listeners, and no element gains
    [active]. *)
Definition extends (t n nb : option node) : relation World := λ w w',
  navbar (script w') = navbar (script w) ∧
  appends (well_placed t n nb) w w' ∧
  ∀ m, "active" ∉ classList (elems (page w) m) →
       "active" ∉ classList (elems (page w') m).

Global Instance extends_preorder t n nb : PreOrder (extends t n nb).
Proof.
  split.
  - intros w. split_and!; [done|reflexivity|done].
  - intros w1 w2 w3 (Ha1 & Ha2 & Ha3) (Hb1 & Hb2 & Hb3).
    split_and!; [congruence|by etrans|]. intros m Hm. by apply Hb3, Ha3.
Qed.

Lemma extends_sound (t n nb : option node) (w w' : World) :
  extends t n nb w w' → sound t n nb w → sound t n nb w'.
Proof.
  intros (Hnb & (Ht & Hn & extra & Hx & Hextra) & Hact) (H1 & H2 & H3 & H4 & H5).
  unfold sound. rewrite Ht, Hn, Hnb, Hx. split_and!; [done..| |].
  - by apply Forall_app.
  - intros Hnone nav Hnav. by apply Hact, H5.
Qed.

Ltac extends_leaf :=
  let w := fresh "w" in let m := fresh "m" in let Hm := fresh "Hm" in
  intros w; unfold extends; split_and!;
  [ reflexivity
  | revert w;
    appends_leaf_by ltac:(unfold well_placed; simpl;
                          first [done|by eexists|by repeat split; eexists])
  | intros m Hm; world_simpl;
    first [ exact Hm
          | rewrite alter_lookup; case_decide; [simpl; set_solver|exact Hm] ] ].

Lemma initMobileMenu_sound (t n nb : option node) :
  keeps (inv_rel (sound t n nb)) initMobileMenu.
Proof.
  unfold initMobileMenu. apply keeps_get_bind. intros w Hw.
  pose proof Hw as (Ht & Hn & _). rewrite Ht, Hn.
  destruct t as [tog|]; [destruct n as [nav|]|]; [|done|done].
  assert (keeps (extends (Some tog) (Some nav) nb)
    (addEventListener (Elem tog) click toggle_click;;
     forEach (navLinksArray (script w))
       (λ link, addEventListener (Elem link) click navlink_click);;
     addEventListener Document click document_click)) as Hk
    by (keeps_auto; extends_leaf).
  exact (extends_sound _ _ _ _ _ (Hk w) Hw).
Qed.

Lemma initNavbarScroll_sound (t n nb : option node) :
  keeps (inv_rel (sound t n nb)) initNavbarScroll.
Proof.
  unfold initNavbarScroll. apply keeps_get_bind. intros w Hw.
  pose proof Hw as (_ & _ & Hnb & _). rewrite Hnb.
  destruct nb as [x|]; [|done].
  assert (keeps (extends t n (Some x))
    (modify (set_script (set_lastScroll 0%float));;
     addEventListener Window scroll navbar_scroll)) as Hk
    by (keeps_auto; extends_leaf).
  exact (extends_sound _ _ _ _ _ (Hk w) Hw).
Qed.

Lemma keeps_extends_sound (t n nb : option node) {A} (m : Js A) :
  keeps (extends t n nb) m → keeps (inv_rel (sound t n nb)) m.
Proof. intros Hm w Hw. exact (extends_sound _ _ _ _ _ (Hm w) Hw). Qed.

Lemma initKeyboardNavigation_sound (t n nb : option node) :
  keeps (inv_rel (sound t n nb)) initKeyboardNavigation.
Proof.
  unfold initKeyboardNavigation. apply keeps_bind; [apply _| |intros _].
  - apply keeps_extends_sound. keeps_auto; extends_leaf.
  - apply keeps_get_bind. intros w Hw.
    pose proof Hw as (Ht & Hn & _). rewrite Ht, Hn.
    destruct n as [nav|]; [destruct t as [tog|]|]; [|done|done].
    assert (keeps (extends (Some tog) (Some nav) nb)
      (addEventListener (Elem nav) keydown
         (trap_keydown (querySelectorAll_tabbable nav (page w))))) as Hk
      by (keeps_auto; extends_leaf).
    exact (extends_sound _ _ _ _ _ (Hk w) Hw).
Qed.

Lemma init_sound (t n nb : option node) : keeps (inv_rel (sound t n nb)) init.
Proof.
  unfold init. apply keeps_bind; [apply _|apply keeps_get; apply _|].
  intros w0. case_decide.
  { apply keeps_extends_sound. keeps_auto; extends_leaf. }
  unfold init_features.
  apply keeps_bind; [apply _|apply initMobileMenu_sound|intros _].
  apply keeps_bind; [apply _|apply initNavbarScroll_sound|intros _].
  apply keeps_bind;
    [apply _|apply keeps_extends_sound; keeps_auto; extends_leaf|intros _].
  apply keeps_bind;
    [apply _|apply keeps_extends_sound; keeps_auto; extends_leaf|intros _].
  apply keeps_bind;
    [apply _|apply keeps_extends_sound; keeps_auto; extends_leaf|intros _].
  apply keeps_bind; [apply _|apply initKeyboardNavigation_sound|intros _].
  apply keeps_extends_sound. keeps_auto; extends_leaf.
Qed.

(** Every listener but the toggle's and [init] extends nothing and adds
    no [active]. *)
Lemma call_extends (t n nb : option node) (cb : Callback)
    (this : EventTarget) (e : Event) :
  cb ≠ toggle_click → cb ≠ init_callback →
  keeps (extends t n nb) (call cb this e).
Proof.
  destruct cb; try done; intros _ _; simpl; keeps_auto; extends_leaf.
Qed.

Lemma call_sound (t n nb : option node) (l : Listener) (e : Event) :
  well_placed t n nb l →
  keeps (inv_rel (sound t n nb)) (call (callback l) (on_target l) e).
Proof.
  intros Hl.
  destruct (decide (callback l = init_callback)) as [->|Hinit];
    [apply init_sound|].
  destruct (decide (callback l = toggle_click)) as [Htc|Htc];
    [|by apply keeps_extends_sound, call_extends].
  unfold well_placed in Hl. rewrite Htc in *. destruct Hl as [[tog ->] _].
  intros w (H1 & H2 & H3 & H4 & _).
  destruct (call_keeps_script toggle_click (on_target l) e) with (w := w)
    as (Hs1 & Hs2 & Hs3 & Hs4); [done|].
  unfold sound. rewrite Hs1, Hs2, Hs3, Hs4. by split_and!.
Qed.

(** *** Each listener, run where it is well placed *)

Lemma on_toggle_click_returns (w : World) (nav tog : node) :
  navLinks (script w) = Some nav →
  mobileMenuToggle (script w) = Some tog →
  (on_toggle_click w).1 = Normal tt.
Proof.
  intros Hnav Htog. unfold on_toggle_click, ref. js_run. rewrite Hnav.
  cbn [deref]. unfold classList_contains, classList_toggle, classList_contains,
    element. js_run.
  destruct (bool_decide ("active" ∈ classList (elems (page w) nav)));
    unfold classList_add, classList_remove, update_element; js_run;
    rewrite Htog; cbn [deref]; js_run;
    destruct (bool_decide _);
    unfold setAttribute, body_style_overflow, update_element; js_run; done.
Qed.

Lemma on_document_click_returns (w : World) (nav tog : node) (e : Event) :
  navLinks (script w) = Some nav →
  mobileMenuToggle (script w) = Some tog →
  target e ≠ Window →
  (on_document_click e w).1 = Normal tt.
Proof.
  intros Hnav Htog Htg. unfold on_document_click, ref. js_run. rewrite Hnav.
  cbn [deref]. js_run. unfold contains, element.
  destruct (target e) as [t| |]; [| |done]; js_run; rewrite Htog;
    cbn [deref]; js_run.
  - destruct (negb _ && negb _); js_run; [|done].
    unfold classList_contains, element. js_run.
    destruct (bool_decide _); [|done].
    by rewrite (close_menu_spec w nav tog).
  - cbn [negb andb]. unfold classList_contains, element. js_run.
    destruct (bool_decide _); [|done].
    by rewrite (close_menu_spec w nav tog).
Qed.

Lemma on_anchor_click_no_TypeError (a : node) (w : World) :
  (on_anchor_click (Elem a) w).1 ≠ Abrupt TypeError.
Proof.
  unfold on_anchor_click. cbn [this_element]. unfold getAttribute, element.
  js_run. case_decide; [done|]. unfold querySelector. js_run.
  case_decide; [done|].
  destruct (selected (page w) _); js_run; [|done|done].
  unfold preventDefault, getBoundingClientRect, scrollTo. js_run. done.
Qed.

Lemma strict_eq_true_r (x y : option node) :
  strict_eq x y = true → ∃ b, y = Some b.
Proof. destruct x, y; simpl; eauto; discriminate. Qed.

Lemma on_trap_keydown_returns (w : World) (nav : node)
    (focusableElements : list node) (e : Event) :
  navLinks (script w) = Some nav →
  (on_trap_keydown focusableElements e w).1 = Normal tt.
Proof.
  intros Hnav.
  destruct (decide (key e = "Tab")) as [Hkey|Hkey];
    [|by rewrite (on_trap_keydown_other_key w nav)].
  destruct (decide ("active" ∈ classList (elems (page w) nav))) as [Ha|Ha];
    [|by rewrite (on_trap_keydown_closed w nav)].
  rewrite (on_trap_keydown_open w nav) by done.
  destruct (shiftKey e).
  - destruct (strict_eq _ (head _)) eqn:Heq; [|done].
    apply strict_eq_true_r in Heq as [b Hb].
    destruct focusableElements as [|x l]; [done|].
    destruct (list.last (x :: l)) as [y|] eqn:Hlast.
    + by rewrite wrap_focus_spec.
    + by apply last_None in Hlast.
  - destruct (strict_eq _ (list.last _)) eqn:Heq; [|done].
    apply strict_eq_true_r in Heq as [b Hb].
    destruct focusableElements as [|x l]; [done|].
    cbn [head]. by rewrite wrap_focus_spec.
Qed.

Lemma on_escape_keydown_returns (t n nb : option node) (w : World) (e : Event) :
  sound t n nb w → (on_escape_keydown e w).1 = Normal tt.
Proof.
  intros (Ht & Hn & _ & _ & Hclosed).
  destruct (decide (key e = "Escape")) as [Hkey|Hkey];
    [|by rewrite on_escape_keydown_other_key].
  destruct n as [nav|];
    [|rewrite on_escape_keydown_closed; [done|]; intros nav; by rewrite Hn].
  destruct (decide ("active" ∈ classList (elems (page w) nav))) as [Ha|Ha].
  - destruct t as [tog|]; [|by destruct (Hclosed eq_refl nav eq_refl)].
    by rewrite (on_escape_keydown_open w nav tog).
  - rewrite on_escape_keydown_closed; [done|].
    intros nav'. rewrite Hn. by intros [= <-].
Qed.

(** A well-placed listener, reached by the event, does not end with a
    [TypeError]. *)
Lemma call_no_TypeError (t n nb : option node) (l : Listener) (e : Event)
    (w : World) :
  sound t n nb w → well_placed t n nb l →
  (on_target l = Document → target e ≠ Window) →
  (call (callback l) (on_target l) e w).1 ≠ Abrupt TypeError.
Proof.
  intros Hw Hl Hreach. pose proof Hw as (Ht & Hn & Hnb & _).
  unfold well_placed in Hl.
  destruct (callback l) eqn:Hcb; cbn [call].
  - destruct Hl as [[tog Htog] [nav Hnav]]. subst.
    by rewrite (on_toggle_click_returns w nav tog).
  - destruct Hl as [[tog Htog] [nav Hnav]]. subst.
    unfold on_navlink_click. by rewrite (close_menu_spec w nav tog).
  - destruct Hl as ([tog Htog] & [nav Hnav] & Hdoc). subst.
    by rewrite (on_document_click_returns w nav tog) by auto.
  - destruct Hl as [x Hx]. subst. by rewrite (on_scroll_spec w x).
  - destruct Hl as [m ->]. apply on_anchor_click_no_TypeError.
  - destruct Hl as [m ->]. done.
  - destruct Hl as [m ->]. done.
  - by rewrite (on_escape_keydown_returns t n nb).
  - destruct Hl as [_ [nav Hnav]]. subst.
    by rewrite (on_trap_keydown_returns w nav).
  - destruct (init_returns w) as [[] Hr]. by rewrite Hr.
Qed.

(** *** Through the event loop *)

Definition same_uncaught : relation World := λ w w',
  uncaught w' = uncaught w.

Global Instance same_uncaught_preorder : PreOrder same_uncaught.
Proof.
  split; [by intros w|]. intros w1 w2 w3. unfold same_uncaught. congruence.
Qed.

Lemma call_keeps_uncaught (cb : Callback) (this : EventTarget) (e : Event) :
  keeps same_uncaught (call cb this e).
Proof. destruct cb; simpl; keeps_auto; intros w; reflexivity. Qed.

Definition only_SyntaxErrors (w : World) : Prop :=
  Forall (λ err, err = SyntaxError) (uncaught w).

(** A task that keeps [sound] and does not end with a [TypeError]. *)
Lemma run_task_sound (t n nb : option node) (m : Js unit) (w : World) :
  keeps (inv_rel (sound t n nb)) m → keeps same_uncaught m →
  (m w).1 ≠ Abrupt TypeError →
  sound t n nb w ∧ only_SyntaxErrors w →
  sound t n nb (run_task m w) ∧ only_SyntaxErrors (run_task m w).
Proof.
  intros Hm Hu Hne [Hw Herr]. specialize (Hm w Hw). specialize (Hu w).
  unfold run_task, only_SyntaxErrors, same_uncaught in *.
  destruct (m w) as [[[]|err] w']; simpl in *.
  - split; [done|]. by rewrite Hu.
  - split.
    + destruct Hm as (H1 & H2 & H3 & H4 & H5). by split_and!.
    + rewrite Hu. apply Forall_app. split; [done|].
      constructor; [|constructor]. by destruct err.
Qed.

Lemma update_sound (t n nb : option node) (f : World → World) (w : World) :
  (∀ w, extends t n nb w (f w)) → (∀ w, uncaught (f w) = uncaught w) →
  sound t n nb w ∧ only_SyntaxErrors w →
  sound t n nb (f w) ∧ only_SyntaxErrors (f w).
Proof.
  intros Hf Hu [Hw Herr]. split; [by apply (extends_sound _ _ _ w)|].
  unfold only_SyntaxErrors. by rewrite Hu.
Qed.

Lemma reached_from_window (e : Event) (w : World) (l : Listener) :
  l ∈ listeners_for e w → on_target l = Document → target e ≠ Window.
Proof.
  intros (_ & _ & Hpath)%elem_of_listeners_for Hdoc Hwin.
  unfold propagation_path in Hpath. rewrite Hwin, Hdoc in Hpath.
  by apply list_elem_of_singleton in Hpath.
Qed.

Lemma dispatchEvent_sound (t n nb : option node) (e : Event) (w : World) :
  sound t n nb w ∧ only_SyntaxErrors w →
  sound t n nb (dispatchEvent e w) ∧ only_SyntaxErrors (dispatchEvent e w).
Proof.
  intros Hw. unfold dispatchEvent.
  assert (Forall (λ l, well_placed t n nb l ∧
                       (on_target l = Document → target e ≠ Window))
            (listeners_for e w)) as Hls.
  { apply list.Forall_forall. intros l Hl. split.
    - destruct Hw as [(_ & _ & _ & Hreg & _) _].
      rewrite list.Forall_forall in Hreg. apply Hreg.
      by apply listeners_for_registered in Hl.
    - by apply (reached_from_window e w). }
  assert (sound t n nb (set_defaultPrevented false w) ∧
          only_SyntaxErrors (set_defaultPrevented false w)) as Hw0.
  { revert Hw. apply update_sound; [extends_leaf|done]. }
  revert Hw0. generalize (set_defaultPrevented false w).
  induction Hls as [|l ls [Hl Hreach] _ IH]; intros w0 Hw0; [done|].
  cbn [foldl]. apply IH. unfold invoke.
  apply run_task_sound; [by apply call_sound|apply call_keeps_uncaught| |done].
  apply (call_no_TypeError t n nb); [apply Hw0|done|done].
Qed.

Ltac same_uncaught_leaf := let w := fresh "w" in intros w; reflexivity.

Lemma step_sound (t n nb : option node) (s : Stimulus) (w : World) :
  sound t n nb w ∧ only_SyntaxErrors w →
  sound t n nb (step s w) ∧ only_SyntaxErrors (step s w).
Proof.
  intros Hw.
  assert (∀ (m : Js unit) w, keeps (extends t n nb) m →
            keeps same_uncaught m → returns m →
            sound t n nb w ∧ only_SyntaxErrors w →
            sound t n nb (run_task m w) ∧ only_SyntaxErrors (run_task m w))
    as Htask.
  { intros m w0 Hm Hu Hr. apply run_task_sound; [|done|].
    - by apply keeps_extends_sound.
    - destruct (Hr w0) as [a Ha]. by rewrite Ha. }
  destruct s; cbn [step].
  - by apply dispatchEvent_sound.
  - apply dispatchEvent_sound. revert Hw. apply update_sound; [extends_leaf|done].
  - case_decide; [|done]. revert Hw. apply update_sound; [extends_leaf|done].
  - case_decide; [|done]. apply dispatchEvent_sound. revert Hw.
    apply update_sound; [extends_leaf|done].
  - case_decide; [|done]. revert Hw.
    apply Htask;
      [keeps_auto; extends_leaf|keeps_auto; same_uncaught_leaf|returns_auto].
  - destruct (timers (script w)); [done|].
    apply Htask;
      [keeps_auto; extends_leaf|keeps_auto; same_uncaught_leaf|returns_auto|].
    revert Hw. apply update_sound; [extends_leaf|done].
  - destruct (reinitAnimations (script w)); [|done]. revert Hw.
    apply Htask;
      [keeps_auto; extends_leaf|keeps_auto; same_uncaught_leaf|returns_auto].
  - revert Hw. apply update_sound; [extends_leaf|done].
  - revert Hw. apply update_sound; [extends_leaf|done].
Qed.

Lemma run_sound (t n nb : option node) (ss : list Stimulus) (w : World) :
  sound t n nb w ∧ only_SyntaxErrors w →
  sound t n nb (run ss w) ∧ only_SyntaxErrors (run ss w).
Proof.
  revert w. induction ss as [|s ss IH]; intros w Hw; [done|].
  simpl. by apply IH, step_sound.
Qed.

(** X16.  Unless the page has the menu marked [active] and no toggle
    (the one configuration in which the Escape listener dereferences a
    missing toggle), no listener, observer callback or timer callback of
    the script ever ends with a [TypeError], on any page, ready or still
    loading, after any stimuli: the only exception that can escape is
    the [SyntaxError] of [querySelector] on an anchor's [href]. *)
Theorem no_listener_throws_TypeError (p : Page) (ss : list Stimulus) :
  is_Some (getElementById "mobileMenuToggle" p) ∨
    (∀ nav, getElementById "navLinks" p = Some nav →
            "active" ∉ classList (elems p nav)) →
  Forall (λ err, err = SyntaxError) (uncaught (run ss (load p))).
Proof.
  intros Hp.
  set (t := getElementById "mobileMenuToggle" p).
  set (n := getElementById "navLinks" p).
  set (nb := getElementById "navbar" p).
  assert (sound t n nb (bound p (fresh p))) as H0.
  { split_and!; [done|done|done|constructor|].
    intros Ht nav Hnav. destruct Hp as [[tog Htog]|Hp]; [|by apply Hp].
    fold t in Htog. congruence. }
  assert (sound t n nb (load p) ∧ only_SyntaxErrors (load p)) as Hload.
  { rewrite load_unfold.
    apply (update_sound t n nb (set_script (set_reinitAnimations true)));
      [extends_leaf|done|].
    split; [by apply init_sound|].
    pose proof (call_keeps_uncaught init_callback Document
                  (plain_event click Document) (bound p (fresh p))) as Hu.
    unfold same_uncaught in Hu. cbn [call] in Hu.
    unfold only_SyntaxErrors, exec. rewrite Hu. constructor. }
  by destruct (run_sound t n nb ss (load p) Hload).
Qed.

Lemma no_listener_throws_TypeError_witness :
  Forall (λ err, err = SyntaxError)
    (uncaught (run [Dispatch (Sample.click_on Sample.toggle_id);
                    Dispatch (Sample.keypress "Escape" false Sample.link1_id);
                    Dispatch (plain_event click Window)]
                   (load Sample.doc))).
Proof.
  apply (no_listener_throws_TypeError Sample.doc). left. by eexists.
Defined.

(** ** Scroll animations at load *)

(** What the two setup functions before [initScrollAnimations] leave
    alone: the page and the observers. *)
Definition same_page : relation World := λ w w',
  page w' = page w ∧ observers (script w') = observers (script w).

Global Instance same_page_preorder : PreOrder same_page.
Proof.
  split.
  - by intros w.
  - intros w1 w2 w3 [? ?] [? ?]. split; congruence.
Qed.

Definition same_observers : relation World := λ w w',
  observers (script w') = observers (script w).

Global Instance same_observers_preorder : PreOrder same_observers.
Proof.
  split; [by intros w|]. intros w1 w2 w3. unfold same_observers. congruence.
Qed.

(** X17.  Loading a ready page sets the scroll animations up once.  In a
    browser without [IntersectionObserver] no observer is created and
    every element of the document that carries [fade-in] or [fade-in-up]
    is visible from then on, whatever happens next.  In a browser with
    it, exactly one observer exists after loading, and its targets are
    those elements. *)
Theorem scroll_animations_at_load (p : Page) :
  readyState p ≠ loading →
  (hasIntersectionObserver p = false →
     observers (script (load p)) = [] ∧
     ∀ ss n, n ∈ document_order p → animatable p n →
             visible n (run ss (load p))) ∧
  (hasIntersectionObserver p = true →
     observers (script (load p)) =
       [list_to_set (querySelectorAll_animatable p)]).
Proof.
  intros Hr. rewrite load_unfold, init_ready by done.
  unfold init_features. rewrite 2!exec_seq by returns_auto.
  set (w2 := exec initNavbarScroll _).
  assert (same_page (bound p (fresh p)) w2) as [Hpage Hobs].
  { unfold w2.
    do 2 (apply keeps_exec_chain;
          [apply _|keeps_auto; intros w; by split|]).
    reflexivity. }
  change (page (bound p (fresh p))) with p in Hpage.
  change (observers (script (bound p (fresh p)))) with (@nil (gset node)) in Hobs.
  rewrite exec_seq by returns_auto.
  set (rest := initSmoothScroll;; initButtonEffects;; initKeyboardNavigation;;
               setTimeout_checkInitialView).
  assert (∀ w, observers (script (exec rest w)) = observers (script w))
    as Hrest_obs.
  { assert (keeps same_observers rest) as Hk
      by (unfold rest; keeps_auto; intros w; reflexivity).
    intros w. exact (Hk w). }
  assert (∀ w n, visible n w → visible n (exec rest w)) as Hrest_vis.
  { assert (keeps (class_kept "visible") rest) as Hk
      by (unfold rest; keeps_auto; class_kept_leaf).
    intros w n. exact (Hk w n). }
  split; intros Hio.
  - assert (exec initScrollAnimations w2 =
              exec (forEach (querySelectorAll_animatable p)
                      (λ el, classList_add el "visible")) w2) as ->.
    { unfold exec, initScrollAnimations. rewrite bind_unfold.
      unfold get at 1. cbv beta iota. by rewrite Hpage, Hio. }
    destruct (forEach_classList_add "visible"
                (querySelectorAll_animatable p) w2) as (_ & Hs & Hv).
    split.
    + world_simpl. rewrite Hrest_obs. by rewrite Hs.
    + intros ss n Hn Ha. apply run_keeps_visible.
      change (visible n (exec rest
                (exec (forEach (querySelectorAll_animatable p)
                         (λ el, classList_add el "visible")) w2))).
      apply Hrest_vis. apply Hv. by apply list_elem_of_filter.
  - rewrite initScrollAnimations_spec by (by rewrite Hpage).
    world_simpl. rewrite Hrest_obs. world_simpl.
    by rewrite Hobs, Hpage.
Qed.

Lemma scroll_animations_at_load_witness :
  visible Sample.pricing_id
    (run [Scrolled 10%float] (load Sample.legacy_doc)) ∧
  observers (script (load Sample.doc)) =
    [list_to_set (querySelectorAll_animatable Sample.doc)].
Proof.
  split.
  - destruct (scroll_animations_at_load Sample.legacy_doc) as [Hlegacy _];
      [done|].
    destruct Hlegacy as [_ Hv]; [reflexivity|].
    apply Hv; compute_done.
  - destruct (scroll_animations_at_load Sample.doc) as [_ Hmodern]; [done|].
    by apply Hmodern.
Defined.

(** ** After [DOMContentLoaded], a deferred page is a ready page *)

(** The registry with the [DOMContentLoaded] listener at its head. *)
Definition with_init_listener (w : World) : World :=
  set_script (set_listeners (cons init_listener)) w.

Lemma call_commutes (cb : Callback) (this : EventTarget) (e : Event) :
  cb ≠ init_callback → commutes with_init_listener (call cb this e).
Proof.
  destruct cb; try done; intros _; simpl; autounfold with js; commutes_split.
Qed.

Lemma run_task_commutes (m : Js unit) (w : World) :
  commutes with_init_listener m →
  run_task m (with_init_listener w) = with_init_listener (run_task m w).
Proof.
  intros Hm. unfold run_task. rewrite Hm.
  by destruct (m w) as [[[]|err] w'].
Qed.

Lemma foldl_invoke_commutes (e : Event) (ls : list Listener) (w : World) :
  Forall (λ l, callback l ≠ init_callback) ls →
  foldl (invoke e) (with_init_listener w) ls =
    with_init_listener (foldl (invoke e) w ls).
Proof.
  intros Hls. revert w. induction Hls as [|l ls Hl _ IH]; intros w; [done|].
  cbn [foldl]. unfold invoke at 2.
  rewrite run_task_commutes by (by apply call_commutes). apply IH.
Qed.

(** An event of another type does not see the [DOMContentLoaded]
    listener. *)
Lemma dispatchEvent_commutes (e : Event) (w : World) :
  ev_type e ≠ DOMContentLoaded →
  Forall (λ l, callback l ≠ init_callback) (listeners (script w)) →
  dispatchEvent e (with_init_listener w) =
    with_init_listener (dispatchEvent e w).
Proof.
  intros Hty Hno. unfold dispatchEvent.
  assert (listeners_for e (with_init_listener w) = listeners_for e w) as ->.
  { unfold listeners_for. apply bind_ext_in. intros tg _.
    unfold listeners_on, with_init_listener. world_simpl.
    rewrite filter_cons_False; [done|]. intros [_ Hl]. by destruct Hty. }
  apply (foldl_invoke_commutes e _ (set_defaultPrevented false w)).
  apply list.Forall_forall. intros l Hl%listeners_for_registered.
  rewrite list.Forall_forall in Hno. by apply Hno.
Qed.

(** The browser fires [DOMContentLoaded] once; what is excluded is a
    script that dispatches an event of that type again. *)
Definition no_second_load (s : Stimulus) : Prop :=
  match s with
  | Dispatch e => ev_type e ≠ DOMContentLoaded
  | _ => True
  end.

Lemma step_commutes (s : Stimulus) (w : World) :
  no_second_load s → ready w →
  Forall (λ l, callback l ≠ init_callback) (listeners (script w)) →
  step s (with_init_listener w) = with_init_listener (step s w).
Proof.
  intros Hs Hr Hno. destruct s; cbn [step]; try done.
  - by apply dispatchEvent_commutes.
  - by apply (dispatchEvent_commutes _ (set_page (set_pageYOffset y) w)).
  - change (readyState (page (with_init_listener w)))
      with (readyState (page w)). by rewrite !decide_False.
  - change (readyState (page (with_init_listener w)))
      with (readyState (page w)). by rewrite !decide_False.
  - change (deliverable observer entries (with_init_listener w))
      with (deliverable observer entries w).
    destruct (decide (deliverable observer entries w)); [|done].
    apply run_task_commutes. autounfold with js. commutes_split.
  - change (timers (script (with_init_listener w))) with (timers (script w)).
    destruct (timers (script w)); [done|].
    apply (run_task_commutes _ (set_script (set_timers pred) w)).
    autounfold with js. commutes_split.
  - change (reinitAnimations (script (with_init_listener w)))
      with (reinitAnimations (script w)).
    destruct (reinitAnimations (script w)); [|done].
    apply run_task_commutes. autounfold with js. commutes_split.
Qed.

Lemma run_commutes (w0 : World) (ss : list Stimulus) (w : World) :
  (∀ l, l ∈ listeners (script w0) → callback l ≠ init_callback) →
  settled w0 w ∧ ready w →
  Forall no_second_load ss →
  run ss (with_init_listener w) = with_init_listener (run ss w).
Proof.
  intros Hno Hw Hss. revert w Hw.
  induction Hss as [|s ss Hs _ IH]; intros w Hw; [done|].
  simpl. rewrite step_commutes; [|done|apply Hw|].
  - apply IH. by apply (step_inv _ _ (settled_loop_invariant w0 Hno)).
  - destruct Hw as [[(_ & _ & _ & Hls) _] _]. rewrite Hls.
    by apply list.Forall_forall.
Qed.

(** X18.  A page on which the script ran while the document was loading,
    at a point where the four lookups of lines 18-21 found what they find
    in the complete document (a script at the end of the body, say),
    behaves, once the parser has attached the remaining elements and
    [DOMContentLoaded] has fired, exactly like the complete page on which
    the script ran when it was ready: after the same stimuli the two
    worlds are the same (page, bindings, observers, timers, requests
    made, exceptions reported), but for the [DOMContentLoaded] listener
    that heads the registry of the first.  (A script that ran before its
    elements were parsed is not such a page: its bindings stay [null].) *)
Theorem deferred_page_behaves_like_ready (p : Page) (late : list node)
    (ss : list Stimulus) :
  readyState p = loading →
  lookups (attach late p) = lookups p →
  Forall no_second_load ss →
  run ss (step ContentLoaded (step (Parsed late) (load p))) =
    with_init_listener
      (run ss (load (set_readyState interactive (attach late p)))).
Proof.
  intros Hl Hlk Hss. rewrite (content_loaded_ready p late Hl Hlk).
  assert (readyState (set_readyState interactive (attach late p)) ≠ loading)
    as Hr by done.
  pose proof (load_no_init _ Hr) as Hno. rewrite list.Forall_forall in Hno.
  apply (run_commutes (load (set_readyState interactive (attach late p))));
    [done| |done].
  split; [by split|by apply load_ready].
Qed.

Lemma deferred_page_behaves_like_ready_witness :
  run [Dispatch (Sample.click_on Sample.toggle_id); Scrolled 60%float]
      (step ContentLoaded
         (step (Parsed [5; 6; 7]) (load script_after_navbar))) =
  with_init_listener
    (run [Dispatch (Sample.click_on Sample.toggle_id); Scrolled 60%float]
         (load (set_readyState interactive
                  (attach [5; 6; 7] script_after_navbar)))).
Proof.
  apply (deferred_page_behaves_like_ready script_after_navbar [5; 6; 7]);
    [reflexivity|vm_compute; reflexivity|].
  constructor; [simpl; done|]. constructor; [exact I|constructor].
Defined.

(** ** [debounce]

    Lines 218-228.  The script defines [debounce] and never calls it, so
    it is modelled on its own: the state of one function returned by
    [debounce(func, wait)], next to the browser's table of the timeouts
    that function has set.  The closure variable [timeout] is [undefined]
    until the first call.  A timeout holds the arguments its [later]
    closure captured.  Time is the browser's business: a pending timeout
    may elapse at any later turn of the event loop (the browser waits at
    least [wait] milliseconds), and an id that is not pending never
    elapses.  [func] is any function; what is recorded of it is the
    arguments of each call. *)
Module Debounce.
Section debounce.
Context {Args : Type}.

Record State := {
  timeout : option nat;
  pending : gmap nat Args;
  next_id : nat;
  func_calls : list Args
}.

Definition initial : State :=
  {| timeout := None; pending := ∅; next_id := 1; func_calls := [] |}.

(** [clearTimeout(id)]: no effect when [id] is [undefined] or names no
    pending timeout. *)
Definition clearTimeout (id : option nat) (s : State) : State :=
  match id with
  | Some i =>
      {| timeout := timeout s; pending := delete i (pending s);
         next_id := next_id s; func_calls := func_calls s |}
  | None => s
  end.

(** [setTimeout(later, wait)] with [later] closed over [args]: a fresh id. *)
Definition setTimeout (args : Args) (s : State) : nat * State :=
  (next_id s,
   {| timeout := timeout s; pending := <[next_id s := args]> (pending s);
      next_id := S (next_id s); func_calls := func_calls s |}).

(** Lines 221-224. *)
Definition later (args : Args) (s : State) : State :=
  let s := clearTimeout (timeout s) s in
  {| timeout := timeout s; pending := pending s; next_id := next_id s;
     func_calls := func_calls s ++ [args] |}.

(** Lines 220-227. *)
Definition executedFunction (args : Args) (s : State) : State :=
  let s := clearTimeout (timeout s) s in
  let '(id, s) := setTimeout args s in
  {| timeout := Some id; pending := pending s; next_id := next_id s;
     func_calls := func_calls s |}.

(** The timeout [id] elapses: the browser takes it off the table and runs
    its callback. *)
Definition elapse (id : nat) (s : State) : State :=
  match pending s !! id with
  | Some args =>
      later args {| timeout := timeout s; pending := delete id (pending s);
                    next_id := next_id s; func_calls := func_calls s |}
  | None => s
  end.

Inductive Action := Call (args : Args) | Elapse (id : nat).

Definition act (a : Action) (s : State) : State :=
  match a with
  | Call args => executedFunction args s
  | Elapse id => elapse id s
  end.

Definition run (acts : list Action) (s : State) : State :=
  foldl (λ s a, act a s) s acts.

(** The arguments of the calls among [acts], in order. *)
Definition call_args (acts : list Action) : list Args :=
  acts ≫= λ a, match a with Call args => [args] | Elapse _ => [] end.

(** Whatever is pending is the timeout the variable [timeout] names. *)
Definition single_timer (s : State) : Prop :=
  ∀ id args, pending s !! id = Some args → timeout s = Some id.

Lemma single_timer_cleared (s : State) :
  single_timer s → pending (clearTimeout (timeout s) s) = ∅.
Proof.
  intros Hs. apply map_empty. intros id. unfold clearTimeout.
  destruct (timeout s) as [i|] eqn:Ht; simpl.
  - destruct (decide (i = id)) as [->|Hne]; [by rewrite lookup_delete_eq|].
    rewrite lookup_delete_ne by done.
    destruct (pending s !! id) as [a|] eqn:Hp; [|done].
    specialize (Hs id a Hp). congruence.
  - destruct (pending s !! id) as [a|] eqn:Hp; [|done].
    specialize (Hs id a Hp). congruence.
Qed.

Lemma executedFunction_spec (args : Args) (s : State) :
  single_timer s →
  executedFunction args s =
    {| timeout := Some (next_id s); pending := {[next_id s := args]};
       next_id := S (next_id s); func_calls := func_calls s |}.
Proof.
  intros Hs. unfold executedFunction, setTimeout.
  pose proof (single_timer_cleared s Hs) as Hc.
  destruct (timeout s); simpl in *; by rewrite Hc.
Qed.

Lemma act_single_timer (a : Action) (s : State) :
  single_timer s → single_timer (act a s).
Proof.
  intros Hs. destruct a as [args|id]; cbn [act].
  - rewrite executedFunction_spec by done. intros id a. simpl.
    intros [-> _]%lookup_singleton_Some. done.
  - unfold elapse. destruct (pending s !! id) as [args|] eqn:Hp; [|done].
    intros id' a. unfold later, clearTimeout. simpl.
    rewrite (Hs id args Hp). simpl.
    rewrite lookup_delete_Some. intros [Hne H].
    rewrite lookup_delete_Some in H. destruct H as [_ H].
    pose proof (Hs id' a H). pose proof (Hs id args Hp). congruence.
Qed.

Lemma run_single_timer (acts : list Action) (s : State) :
  single_timer s → single_timer (run acts s).
Proof.
  revert s. induction acts as [|a acts IH]; intros s Hs; [done|].
  simpl. by apply IH, act_single_timer.
Qed.

Lemma initial_single_timer : single_timer initial.
Proof. intros id a. simpl. by rewrite lookup_empty. Qed.

Lemma run_app (acts1 acts2 : list Action) (s : State) :
  run (acts1 ++ acts2) s = run acts2 (run acts1 s).
Proof. unfold run. by rewrite foldl_app. Qed.

(** A row of calls does not reach [func]. *)
Lemma calls_are_silent (burst : list Args) (s : State) :
  func_calls (run (Call <$> burst) s) = func_calls s.
Proof.
  revert s. induction burst as [|a burst IH]; intros s; [done|].
  simpl. rewrite IH. unfold executedFunction, setTimeout, clearTimeout.
  by destruct (timeout s).
Qed.

(** X19.  A function made by [debounce], after any history of calls and
    elapsed timeouts: a burst of calls ending with arguments [args] does
    not call [func]; it leaves exactly one timeout pending, the one
    [timeout] names, holding [args]; and when that timeout elapses,
    [func] is called once, with [args], and nothing is pending. *)
Theorem debounce_trailing_call (acts : list Action) (burst : list Args)
    (args : Args) :
  let s0 := run acts initial in
  let s := run ((Call <$> burst) ++ [Call args]) s0 in
  ∃ id, timeout s = Some id ∧
        pending s = {[id := args]} ∧
        func_calls s = func_calls s0 ∧
        func_calls (elapse id s) = func_calls s0 ++ [args] ∧
        pending (elapse id s) = ∅.
Proof.
  intros s0 s. subst s. rewrite run_app.
  set (s1 := run (Call <$> burst) s0).
  assert (single_timer s1) as H1
    by (apply run_single_timer, run_single_timer, initial_single_timer).
  assert (func_calls s1 = func_calls s0) as Hf by apply calls_are_silent.
  cbn [run foldl act]. rewrite (executedFunction_spec args s1 H1).
  exists (next_id s1). cbn [timeout pending func_calls].
  split_and!; [done|done|done| |].
  - unfold elapse. cbn [pending]. rewrite lookup_singleton_eq.
    unfold later, clearTimeout. simpl. by rewrite Hf.
  - unfold elapse. cbn [pending]. rewrite lookup_singleton_eq.
    unfold later, clearTimeout. simpl. rewrite delete_singleton_eq.
    apply delete_empty.
Qed.

(** X20.  A function made by [debounce] calls [func] only from an
    elapsed timeout, at most once per call it received, with arguments it
    received and in the order it received them: the arguments [func] has
    seen are a sublist of the arguments of the calls. *)
Theorem debounce_calls_sublist (acts : list Action) :
  func_calls (run acts initial) `sublist_of` call_args acts.
Proof.
  assert (∀ s seen,
            single_timer s →
            (∀ id a, pending s !! id = Some a →
               func_calls s ++ [a] `sublist_of` seen) →
            func_calls s `sublist_of` seen →
            func_calls (run acts s) `sublist_of` seen ++ call_args acts) as Hgen.
  { induction acts as [|a acts IH]; intros s seen Hs Hp Hc.
    - simpl. by rewrite app_nil_r.
    - cbn [run foldl]. change (foldl _ ?s acts) with (run acts s).
      destruct a as [args|id]; cbn [act].
      + change (call_args (Call args :: acts)) with ([args] ++ call_args acts).
        rewrite app_assoc. apply IH.
        * by apply (act_single_timer (Call args)).
        * rewrite executedFunction_spec by done. intros id a. simpl.
          intros [_ <-]%lookup_singleton_Some. by apply sublist_app.
        * rewrite executedFunction_spec by done. simpl.
          by apply sublist_inserts_r.
      + change (call_args (Elapse id :: acts)) with (call_args acts).
        assert (single_timer (elapse id s)) as Hs'
          by apply (act_single_timer (Elapse id) s Hs).
        apply IH; [done| |].
        * unfold elapse in *. destruct (pending s !! id) as [args|] eqn:Hid;
            [|done].
          intros id' a. unfold later, clearTimeout. simpl.
          rewrite (Hs id args Hid). simpl.
          rewrite lookup_delete_Some. intros [Hne H].
          rewrite lookup_delete_Some in H. destruct H as [_ H].
          pose proof (Hs id' a H) as E1. pose proof (Hs id args Hid) as E2.
          congruence.
        * unfold elapse. destruct (pending s !! id) as [args|] eqn:Hid; [|done].
          unfold later, clearTimeout. simpl. rewrite (Hs id args Hid). simpl.
          by apply Hp with id. }
  apply (Hgen initial []); [apply initial_single_timer| |apply sublist_nil_l].
  intros id a. simpl. by rewrite lookup_empty.
Qed.
End debounce.
End Debounce.
